(** * E-Frame-App: the BLE chunked transfer engine and the image store

    A shallow embedding of [src/useBLE.ts] (the hook's [bytesToBase64],
    [startStreamingData] and the listener of [scanForPeripherals]), of
    [src/ImageStorageService.ts] ([parseByteString], [bytesToHexString], the
    colour of [generatePreviewImage] and the methods of the service), of the
    progress dialog of [src/ConnectedDeviceScreen.tsx] and of
    [handleStartStreaming] of [src/App.tsx], followed by the properties of
    the specification that concern them and by further properties of the
    code.

    Conventions.
    - A JavaScript [number] that the program only ever uses as an integer
      (array lengths, indices, byte values, the running byte count) is a [Z]
      or a [nat]; the one place where the program leaves the integers, the
      progress percentage [Math.round((count / byteData.length) * 100)], is
      evaluated in IEEE 754 binary64 with the Standard Library's [SpecFloat].
    - A JavaScript string whose code units are all below 256 is a [string];
      this covers the binary strings built by [String.fromCharCode] on bytes,
      base64 text and the byte strings typed into the image form.
    - A rejected promise or a thrown exception is an explicit error result.
    - [console.log] calls are not modelled. *)

From Stdlib Require Import ZArith NArith String Ascii List Bool Arith Lia ZifyNat ZifyN.
From Stdlib Require Import SpecFloat DecimalString Sorted.
From Stdlib Require HexadecimalString.
From Equations Require Import Equations.
Import ListNotations.

Local Open Scope string_scope.
Local Open Scope list_scope.

(** ** Array and number helpers of the JavaScript runtime *)

Module JS.

(** [Array.prototype.slice(s, e)] for indices [0 <= s]: the elements at
    positions [s], ..., [min e length - 1]; empty when [e <= s]. *)
Definition slice {A : Type} (l : list A) (s e : nat) : list A :=
  firstn (e - s) (skipn s l).

(** The values [Math.round] can return, and so the values the hook's
    [streamingProgress] can hold: an integer, [NaN] or an infinity. *)
Inductive number : Type :=
| Int (z : Z)
| NaN
| Infinity (negative : bool).

(** binary64: 53 bits of precision, exponents below 1024. *)
Definition prec : Z := 53.
Definition emax : Z := 1024.

(** An integer as a binary64 number (rounded to nearest even when it does
    not fit in 53 bits). *)
Definition of_Z (z : Z) : spec_float := binary_normalize prec emax z 0 false.

(** The operators [/] and [*] on numbers. *)
Definition div (x y : spec_float) : spec_float := SFdiv prec emax x y.
Definition mul (x y : spec_float) : spec_float := SFmul prec emax x y.

(** floor (m * 2^e + 1/2) for an integer [m]. *)
Definition round_half_up_dyadic (m e : Z) : Z :=
  match e with
  | Zneg k => (2 * m + 2 ^ Zpos k) / 2 ^ (Zpos k + 1)
  | _ => m * 2 ^ e
  end.

(** [Math.round]: the integer closest to the argument, the one nearer to
    +infinity on a tie; [NaN] and the infinities are returned unchanged. *)
Definition Math_round (x : spec_float) : number :=
  match x with
  | S754_zero _ => Int 0
  | S754_infinity s => Infinity s
  | S754_nan => NaN
  | S754_finite s m e =>
      Int (round_half_up_dyadic (if s then Zneg m else Zpos m) e)
  end.

(** Decimal text of an integer, as in a template literal. *)
Definition Z_toString (z : Z) : string := NilZero.string_of_int (Z.to_int z).

Definition number_toString (n : number) : string :=
  match n with
  | Int z => Z_toString z
  | NaN => "NaN"
  | Infinity false => "Infinity"
  | Infinity true => "-Infinity"
  end.

(** [array.findIndex(p)]: the first position whose element satisfies [p];
    [None] is [-1]. *)
Fixpoint findIndex {A : Type} (p : A -> bool) (l : list A) : option nat :=
  match l with
  | [] => None
  | x :: l' => if p x then Some 0 else option_map S (findIndex p l')
  end.

(** [array.splice(i, 1)]: the array without the element at position [i],
    and unchanged when it has no such position. *)
Definition splice_one {A : Type} (i : nat) (l : list A) : list A :=
  firstn i l ++ skipn (S i) l.

(** [array[i] = x] for a position [i] up to the length of the array (at
    the length, the assignment appends). *)
Definition assign {A : Type} (i : nat) (x : A) (l : list A) : list A :=
  firstn i l ++ x :: skipn (S i) l.

End JS.

(** ** The transport encoding

    Modelled from the spec: [base64.encode] and [base64.decode] belong to the
    package [react-native-base64], which [src/useBLE.ts] imports and whose
    code is not part of the repository.  The specification calls it a
    binary-to-text transport encoding, base64-equivalent; it is modelled as
    base64 with the standard alphabet and [=] padding: three code units
    become four characters of [keyStr], and decoding inverts that on
    well-formed text and fails on anything else. *)

Module Base64.

Definition keyStr : string :=
  "ABCDEFGHIJKLMNOPQRSTUVWXYZabcdefghijklmnopqrstuvwxyz0123456789+/=".

(** [keyStr.charAt(n)] *)
Definition charAt (n : N) : ascii :=
  nth (N.to_nat n) (list_ascii_of_string keyStr) "="%char.

Fixpoint index_from (c : ascii) (l : list ascii) (i : N) : option N :=
  match l with
  | [] => None
  | x :: l' => if Ascii.eqb x c then Some i else index_from c l' (i + 1)
  end.

(** [keyStr.indexOf(c)], [None] when [c] does not occur. *)
Definition indexOf (c : ascii) : option N :=
  index_from c (list_ascii_of_string keyStr) 0.

Definition enc1 (chr1 : N) : N := N.shiftr chr1 2.
Definition enc2 (chr1 chr2 : N) : N :=
  N.lor (N.shiftl (N.land chr1 3) 4) (N.shiftr chr2 4).
Definition enc3 (chr2 chr3 : N) : N :=
  N.lor (N.shiftl (N.land chr2 15) 2) (N.shiftr chr3 6).
Definition enc4 (chr3 : N) : N := N.land chr3 63.

Definition chr1 (e1 e2 : N) : N := N.lor (N.shiftl e1 2) (N.shiftr e2 4).
Definition chr2 (e2 e3 : N) : N :=
  N.lor (N.shiftl (N.land e2 15) 4) (N.shiftr e3 2).
Definition chr3 (e3 e4 : N) : N := N.lor (N.shiftl (N.land e3 3) 6) e4.

Definition pad : ascii := "="%char.

Fixpoint encode (input : string) : string :=
  match input with
  | EmptyString => EmptyString
  | String a EmptyString =>
      let a := N_of_ascii a in
      String (charAt (enc1 a)) (String (charAt (enc2 a 0))
        (String pad (String pad EmptyString)))
  | String a (String b EmptyString) =>
      let a := N_of_ascii a in
      let b := N_of_ascii b in
      String (charAt (enc1 a)) (String (charAt (enc2 a b))
        (String (charAt (enc3 b 0)) (String pad EmptyString)))
  | String a (String b (String c rest)) =>
      let a := N_of_ascii a in
      let b := N_of_ascii b in
      let c := N_of_ascii c in
      String (charAt (enc1 a)) (String (charAt (enc2 a b))
        (String (charAt (enc3 b c)) (String (charAt (enc4 c)) (encode rest))))
  end.

(** The index of a data character (not the padding). *)
Definition sextet (c : ascii) : option N :=
  match indexOf c with
  | Some n => if (n <? 64)%N then Some n else None
  | None => None
  end.

Fixpoint decode (input : string) : option string :=
  match input with
  | EmptyString => Some EmptyString
  | String c1 (String c2 (String c3 (String c4 rest))) =>
      match sextet c1, sextet c2 with
      | Some e1, Some e2 =>
          let o1 := ascii_of_N (chr1 e1 e2) in
          match rest, Ascii.eqb c3 pad, Ascii.eqb c4 pad with
          | EmptyString, true, true => Some (String o1 EmptyString)
          | EmptyString, false, true =>
              match sextet c3 with
              | Some e3 =>
                  Some (String o1 (String (ascii_of_N (chr2 e2 e3)) EmptyString))
              | None => None
              end
          | _, _, _ =>
              match sextet c3, sextet c4, decode rest with
              | Some e3, Some e4, Some out =>
                  Some (String o1 (String (ascii_of_N (chr2 e2 e3))
                          (String (ascii_of_N (chr3 e3 e4)) out)))
              | _, _, _ => None
              end
          end
      | _, _ => None
      end
  | _ => None
  end.

End Base64.

(** ** src/useBLE.ts *)

Module UseBLE.
Import JS.

Definition DATA_SERVICE_UUID : string := "000000ff-0000-1000-8000-00805f9b34fb".
Definition COLOR_CHARACTERISTIC_UUID : string := "0000ff01-0000-1000-8000-00805f9b34fb".

(** *** Splitting the payload

    [[
    const chunks = [];
    const limitBytes = 300;
    for (let i = 0; i < byteData.length; i += limitBytes) {
      chunks.push(byteData.slice(i, i + limitBytes));
    }
    ]] *)

Definition limitBytes : nat := 300.

Equations? chunk_loop (byteData : list Z) (i : nat) (chunks : list (list Z))
  : list (list Z) by wf (length byteData - i) lt :=
  chunk_loop byteData i chunks with lt_dec i (length byteData) => {
    | left _ := chunk_loop byteData (i + limitBytes)
                  (chunks ++ [slice byteData i (i + limitBytes)]);
    | right _ := chunks }.
Proof. unfold limitBytes. lia. Qed.

Definition make_chunks (byteData : list Z) : list (list Z) :=
  chunk_loop byteData 0 [].

(** *** bytesToBase64

    [new Uint8Array(bytes)] stores each integer modulo 256, and
    [String.fromCharCode] turns each stored byte into one code unit. *)

Definition toUint8 (b : Z) : N := Z.to_N (b mod 256).

Definition fromCharCode (byte : N) : ascii := ascii_of_N byte.

Definition binaryString (bytes : list Z) : string :=
  fold_left (fun acc byte => (acc ++ String (fromCharCode byte) EmptyString)%string)
            (map toUint8 bytes) EmptyString.

Definition bytesToBase64 (bytes : list Z) : string :=
  Base64.encode (binaryString bytes).

(** [s.charCodeAt(i)] for every [i]: what a receiver reads back from a
    decoded binary string. *)
Definition charCodes (s : string) : list Z :=
  map (fun c => Z.of_N (N_of_ascii c)) (list_ascii_of_string s).

(** *** The hook's state and the effects of a transfer *)

Record Hook : Type := {
  streamingProgress : number;
  isStreaming : bool;
  streamingStatus : string }.

(** The handle of [react-native-ble-plx]; [null] is [None]. *)
Record Device : Type := { id : string; name : option string }.

(** The two [await]ed operations of a device, over the state [L] of the
    link to the peripheral; [None] is a rejected promise. *)
Class BleLink (L : Type) : Type := {
  requestMTU : L -> Z -> option L;
  writeCharacteristicWithResponseForService :
    L -> string -> string -> string -> option L }.

(** The two places where [startStreamingData] writes the characteristic. *)
Inductive WriteSite : Type := PayloadChunk | EndMarker.

Inductive Event : Type :=
| SetIsStreaming (b : bool)
| SetStreamingProgress (p : number)
| SetStreamingStatus (s : string)
| RequestMTU (mtu : Z) (granted : bool)
| Write (site : WriteSite) (value : string) (acknowledged : bool)
| Sleep (ms : Z)
| SetTimeout (ms : Z).

(** [count] is the local variable of that name, kept in the state so that
    it can be read where the function stops. *)
Record World (L : Type) : Type := {
  hook : Hook;
  link : L;
  count : Z;
  trace : list Event }.
Arguments hook {L}.
Arguments link {L}.
Arguments count {L}.
Arguments trace {L}.
Arguments Build_World {L}.

Inductive Result (A : Type) : Type :=
| Ok (a : A)
| Thrown.
Arguments Ok {A}.
Arguments Thrown {A}.

Section Engine.
Context {L : Type} `{BleLink L}.

Definition M (A : Type) : Type := World L -> Result A * World L.

Definition ret {A} (a : A) : M A := fun w => (Ok a, w).

Definition bind {A B} (m : M A) (k : A -> M B) : M B :=
  fun w => match m w with
           | (Ok a, w') => k a w'
           | (Thrown, w') => (Thrown, w')
           end.

Definition try_catch (body handler : M unit) : M unit :=
  fun w => match body w with
           | (Ok a, w') => (Ok a, w')
           | (Thrown, w') => handler w'
           end.

Definition emit (e : Event) (w : World L) : World L :=
  Build_World (hook w) (link w) (count w) (trace w ++ [e]).

Definition set_hook (h : Hook) (w : World L) : World L :=
  Build_World h (link w) (count w) (trace w).

Definition setIsStreaming (b : bool) : M unit :=
  fun w =>
    let h := hook w in
    (Ok tt, emit (SetIsStreaming b)
              (set_hook (Build_Hook (streamingProgress h) b (streamingStatus h)) w)).

Definition setStreamingProgress (p : number) : M unit :=
  fun w =>
    let h := hook w in
    (Ok tt, emit (SetStreamingProgress p)
              (set_hook (Build_Hook p (isStreaming h) (streamingStatus h)) w)).

Definition setStreamingStatus (s : string) : M unit :=
  fun w =>
    let h := hook w in
    (Ok tt, emit (SetStreamingStatus s)
              (set_hook (Build_Hook (streamingProgress h) (isStreaming h) s) w)).

Definition get_count : M Z := fun w => (Ok (count w), w).

Definition set_count (c : Z) : M unit :=
  fun w => (Ok tt, Build_World (hook w) (link w) c (trace w)).

Definition await_requestMTU (mtu : Z) : M unit :=
  fun w => match requestMTU (link w) mtu with
           | Some l => (Ok tt, emit (RequestMTU mtu true)
                                 (Build_World (hook w) l (count w) (trace w)))
           | None => (Thrown, emit (RequestMTU mtu false) w)
           end.

Definition await_write (site : WriteSite) (value : string) : M unit :=
  fun w =>
    match writeCharacteristicWithResponseForService
            (link w) DATA_SERVICE_UUID COLOR_CHARACTERISTIC_UUID value with
    | Some l => (Ok tt, emit (Write site value true)
                          (Build_World (hook w) l (count w) (trace w)))
    | None => (Thrown, emit (Write site value false) w)
    end.

Definition sleep (ms : Z) : M unit := fun w => (Ok tt, emit (Sleep ms) w).

Definition setTimeout (ms : Z) : M unit :=
  fun w => (Ok tt, emit (SetTimeout ms) w).

Notation "m ;; k" := (bind m (fun _ => k))
  (at level 61, right associativity).
Notation "x <- m ;; k" := (bind m (fun x => k))
  (at level 61, m at next level, right associativity).

(** [Math.round((count / byteData.length) * 100)] *)
Definition progress_of (count len : Z) : number :=
  Math_round (mul (div (of_Z count) (of_Z len)) (of_Z 100)).

Definition streaming_message (progress : number) (count len : Z) : string :=
  ("Streaming... " ++ number_toString progress ++ "% (" ++ Z_toString count
    ++ "/" ++ Z_toString len ++ " bytes)")%string.

(** The loop [for (let i = 0; i < chunks.length; i++)] over the chunks
    that remain. *)
Fixpoint stream_chunks (len : Z) (chunks : list (list Z)) : M unit :=
  match chunks with
  | [] => ret tt
  | chunk :: rest =>
      await_write PayloadChunk (bytesToBase64 chunk) ;;
      c <- get_count ;;
      let c := (c + Z.of_nat (length chunk))%Z in
      set_count c ;;
      let progress := progress_of c len in
      setStreamingProgress progress ;;
      setStreamingStatus (streaming_message progress c len) ;;
      sleep 100 ;;
      stream_chunks len rest
  end.

Definition endMarker : list Z := [255; 255; 255; 255]%Z.

Definition startStreamingData (device : option Device) (byteData : list Z)
  : M unit :=
  try_catch
    (match device with
     | Some _ =>
         setIsStreaming true ;;
         setStreamingProgress (Int 0) ;;
         setStreamingStatus "Requesting MTU..." ;;
         await_requestMTU 303 ;;
         setStreamingStatus "Preparing data chunks..." ;;
         let chunks := make_chunks byteData in
         setStreamingStatus "Streaming data..." ;;
         set_count 0 ;;
         stream_chunks (Z.of_nat (length byteData)) chunks ;;
         setStreamingStatus "Sending completion signal..." ;;
         await_write EndMarker (bytesToBase64 endMarker) ;;
         setStreamingProgress (Int 100) ;;
         setStreamingStatus "Streaming completed successfully!" ;;
         setIsStreaming false ;;
         setTimeout 2000
     | None =>
         setStreamingStatus "Error: No device connected" ;;
         setIsStreaming false
     end)
    (setStreamingStatus "Error: Streaming failed" ;;
     setIsStreaming false ;;
     setTimeout 3000).

(** The callback of both timers: [setStreamingStatus("")] and
    [setStreamingProgress(0)]. *)
Definition timer_callback : M unit :=
  setStreamingStatus "" ;; setStreamingProgress (Int 0).

End Engine.

(** *** Reading a trace *)

Definition writes (t : list Event) : list (WriteSite * string * bool) :=
  flat_map (fun e => match e with
                     | Write site v ok => [(site, v, ok)]
                     | _ => []
                     end) t.

Definition progress_events (t : list Event) : list number :=
  flat_map (fun e => match e with
                     | SetStreamingProgress p => [p]
                     | _ => []
                     end) t.

(** *** A peripheral for examples: it grants the MTU request and
    acknowledges writes until [fail_at] of them have been acknowledged;
    [None] never fails. *)
Record Scripted : Type := { acked : nat; fail_at : option nat }.

#[global] Instance Scripted_link : BleLink Scripted := {
  requestMTU l _ := Some l;
  writeCharacteristicWithResponseForService l _ _ _ :=
    match fail_at l with
    | Some k => if Nat.eqb (acked l) k then None
                else Some (Build_Scripted (S (acked l)) (fail_at l))
    | None => Some (Build_Scripted (S (acked l)) (fail_at l))
    end }.

Definition idle : Hook := Build_Hook (Int 0) false "".

Definition fresh {L : Type} (l : L) : World L := Build_World idle l 0 [].

Definition frame : Device := Build_Device "AA:BB" (Some "Khung anh").

(** *** Scanning

    The listener of [bleManager.startDeviceScan] keeps a device when its
    advertised or its cached name is the name of the frame, and the list
    does not hold its identifier yet.  The names of devices are held as
    the bytes of their UTF-8 encoding, on which equality is the equality
    of the texts. *)

Definition FRAME_NAME : string := "Khung ảnh của Hà".

(** A device as the scan reports it: the handle, and the name found in
    the advertisement. *)
Record ScannedDevice : Type := {
  device : Device;
  localName : option string }.

Definition is_name (n : option string) (expected : string) : bool :=
  match n with
  | Some s => String.eqb s expected
  | None => false
  end.

Definition isDuplicteDevice (devices : list Device) (nextDevice : Device) : bool :=
  match JS.findIndex (fun device => String.eqb (id nextDevice) (id device))
                      devices with
  | Some _ => true
  | None => false
  end.

(** The listener, as a function of the list [allDevices]; [error] tells
    that the scan reported an error, which is logged and changes nothing
    by itself. *)
Definition scan_listener (error : bool) (found : option ScannedDevice)
           (allDevices : list Device) : list Device :=
  match found with
  | Some scanned =>
      if is_name (localName scanned) FRAME_NAME
         || is_name (name (device scanned)) FRAME_NAME
      then if negb (isDuplicteDevice allDevices (device scanned))
           then allDevices ++ [device scanned]
           else allDevices
      else allDevices
  | None => allDevices
  end.

(** The list after the reports of a scan, in the order they arrive. *)
Definition scanForPeripherals (reports : list (bool * option ScannedDevice))
           (allDevices : list Device) : list Device :=
  fold_left (fun devices report =>
               scan_listener (fst report) (snd report) devices)
            reports allDevices.

(** *** Reading a trace: the timers

    Every call of [setTimeout] of a trace, in order, with its delay: the
    pause that follows each acknowledged chunk (the event [Sleep], whose
    callback only resolves the awaited promise) and the timer that resets
    the hook (the event [SetTimeout], whose callback is
    [timer_callback]). *)
Inductive Timer : Type :=
| Pause (ms : Z)
| ResetTimer (ms : Z).

Definition timers (t : list Event) : list Timer :=
  flat_map (fun e => match e with
                     | Sleep ms => [Pause ms]
                     | SetTimeout ms => [ResetTimer ms]
                     | _ => []
                     end) t.

(** A peripheral out of reach: every operation on it is rejected. *)
Definition out_of_reach : BleLink unit :=
  {| requestMTU := fun _ _ => None;
     writeCharacteristicWithResponseForService := fun _ _ _ _ => None |}.

End UseBLE.

(** ** src/ConnectedDeviceScreen.tsx *)

Module ConnectedDeviceScreen.
Import JS UseBLE.

(** The progress dialog of [renderProgressBar]:
    [visible={isStreaming || streamingProgress > 0}].  The status text of
    the hook is shown inside this dialog and nowhere else. *)
Definition greater_than_zero (n : number) : bool :=
  match n with
  | Int z => (0 <? z)%Z
  | NaN => false
  | Infinity negative => negb negative
  end.

Definition progress_visible (h : Hook) : bool :=
  isStreaming h || greater_than_zero (streamingProgress h).

End ConnectedDeviceScreen.

(** ** src/App.tsx *)

Module App.
Import JS UseBLE.

Section Handlers.
Context {L : Type} `{BleLink L}.

(** [handleStartStreaming]: the transfer is started only under
    [if (connectedDevice)]; the promise is not awaited. *)
Definition handleStartStreaming (connectedDevice : option Device)
           (data : list Z) : M unit :=
  match connectedDevice with
  | Some device => startStreamingData (Some device) data
  | None => ret tt
  end.

End Handlers.

End App.

(** ** String methods used by src/ImageStorageService.ts *)

Module JSString.

Definition code (c : ascii) : N := N_of_ascii c.

(** The code units below 256 that [\s] and [trim] treat as white space:
    TAB, LF, VT, FF, CR, SPACE and NO-BREAK SPACE. *)
Definition is_white_space (c : ascii) : bool :=
  let n := code c in
  ((9 <=? n) && (n <=? 13) || (n =? 32) || (n =? 160))%N.

Definition is_line_break (c : ascii) : bool :=
  let n := code c in ((n =? 10) || (n =? 13))%N.

Definition comma : ascii := ","%char.

Fixpoint trimStart (s : string) : string :=
  match s with
  | String c s' => if is_white_space c then trimStart s' else s
  | EmptyString => EmptyString
  end.

Definition reverse (s : string) : string :=
  string_of_list_ascii (rev (list_ascii_of_string s)).

Definition trimEnd (s : string) : string := reverse (trimStart (reverse s)).

Definition trim (s : string) : string := trimEnd (trimStart s).

(** [!s] for a string: true exactly on the empty string. *)
Definition is_empty (s : string) : bool :=
  match s with EmptyString => true | _ => false end.

Definition lower (c : ascii) : ascii :=
  let n := code c in
  if ((65 <=? n) && (n <=? 90) || (192 <=? n) && (n <=? 222) && negb (n =? 215))%N
  then ascii_of_N (n + 32) else c.

Fixpoint toLowerCase (s : string) : string :=
  match s with
  | EmptyString => EmptyString
  | String c s' => String (lower c) (toLowerCase s')
  end.

Definition startsWith (s p : string) : bool := prefix p s.

(** [s.replace(/[\r\n]+/g, ',')]: [in_run] tells that the preceding code
    unit belongs to a run that has already been replaced. *)
Fixpoint replace_line_breaks (in_run : bool) (s : string) : string :=
  match s with
  | EmptyString => EmptyString
  | String c s' =>
      if is_line_break c
      then if in_run then replace_line_breaks true s'
           else String comma (replace_line_breaks true s')
      else String c (replace_line_breaks false s')
  end.

(** [s.replace(/\s*,\s*/g, ',')]: [pending] is the white space read since
    the last code unit that was kept, which a comma will swallow;
    [after_comma] tells that the white space being read follows a comma
    and belongs to its match. *)
Fixpoint normalize_commas (pending : string) (after_comma : bool) (s : string)
  : string :=
  match s with
  | EmptyString => pending
  | String c s' =>
      if Ascii.eqb c comma then String comma (normalize_commas EmptyString true s')
      else if is_white_space c then
        if after_comma then normalize_commas EmptyString true s'
        else normalize_commas (pending ++ String c EmptyString) false s'
      else (pending ++ String c (normalize_commas EmptyString false s'))%string
  end.

(** [s.replace(/\s+/g, ',')] *)
Fixpoint replace_spaces (in_run : bool) (s : string) : string :=
  match s with
  | EmptyString => EmptyString
  | String c s' =>
      if is_white_space c
      then if in_run then replace_spaces true s'
           else String comma (replace_spaces true s')
      else String c (replace_spaces false s')
  end.

(** [s.split(',')]: [cur] is the part being read. *)
Fixpoint split_from (cur : string) (s : string) : list string :=
  match s with
  | EmptyString => [cur]
  | String c s' =>
      if Ascii.eqb c comma then cur :: split_from EmptyString s'
      else split_from (cur ++ String c EmptyString) s'
  end.

Definition split_comma (s : string) : list string := split_from EmptyString s.

(** The value of a digit of [parseInt], in any radix up to 36. *)
Definition digit_value (c : ascii) : option Z :=
  let n := Z.of_N (code c) in
  if ((48 <=? n) && (n <=? 57))%Z then Some (n - 48)%Z
  else if ((97 <=? n) && (n <=? 122))%Z then Some (n - 87)%Z
  else if ((65 <=? n) && (n <=? 90))%Z then Some (n - 55)%Z
  else None.

Definition is_hex_digit (c : ascii) : bool :=
  match digit_value c with
  | Some d => (d <? 16)%Z
  | None => false
  end.

(** [/^[0-9a-fA-F]+$/.test(s)] *)
Fixpoint all_hex (s : string) : bool :=
  match s with
  | EmptyString => true
  | String c s' => is_hex_digit c && all_hex s'
  end.

Definition is_hex_word (s : string) : bool := negb (is_empty s) && all_hex s.

(** The longest prefix of digits of the radix, read as an integer; [acc]
    is [None] until a digit has been read. *)
Fixpoint parse_digits (radix : Z) (acc : option Z) (s : string) : option Z :=
  match s with
  | EmptyString => acc
  | String c s' =>
      match digit_value c with
      | Some d =>
          if (d <? radix)%Z
          then parse_digits radix
                 (Some (match acc with
                        | Some a => a * radix + d
                        | None => d
                        end)%Z) s'
          else acc
      | None => acc
      end
  end.

(** [parseInt(s, radix)] for a radix between 2 and 36; [None] is [NaN].
    Leading white space is skipped, one sign is read, a [0x] or [0X] prefix
    is dropped when the radix is 16, and everything after the last digit
    is ignored.  The integer is exact (the runtime rounds it to binary64
    beyond 2^53, which does not change its comparison with 0 and 255). *)
Definition parseInt (s : string) (radix : Z) : option Z :=
  let s := trimStart s in
  let '(sign, s) :=
    match s with
    | String "-"%char s' => ((-1)%Z, s')
    | String "+"%char s' => (1%Z, s')
    | _ => (1%Z, s)
    end in
  let s :=
    if (radix =? 16)%Z then
      match s with
      | String "0"%char (String "x"%char s') => s'
      | String "0"%char (String "X"%char s') => s'
      | _ => s
      end
    else s in
  match parse_digits radix None s with
  | Some v => Some (sign * v)%Z
  | None => None
  end.

End JSString.

(** ** src/ImageStorageService.ts *)

Module ImageStorageService.
Import JSString.

Record ImageDataItem : Type := {
  id : string;
  name : string;
  preview : string;
  byteData : list Z;
  description : string;
  createdAt : Z;
  updatedAt : Z }.

(** *** parseByteString *)

(** [Error('Invalid byte format at "<token>". Expected formats: ...')];
    the inner [Error('Invalid byte value: <token>')] is thrown inside the
    [try] block and always replaced by this one. *)
Inductive ParseError : Type :=
| InvalidByteFormat (trimmed : string).

Definition normalizedString (byteString : string) : string :=
  replace_spaces false
    (normalize_commas EmptyString false
       (replace_line_breaks false (trim byteString))).

(** The body of the [try] block: the value of one non-empty token, or
    [None] when the block throws. *)
Definition parse_token (trimmed : string) : option Z :=
  let value :=
    if startsWith (toLowerCase trimmed) "0x" then parseInt trimmed 16
    else if is_hex_word trimmed && (String.length trimmed <=? 2)%nat
         then parseInt trimmed 16
         else parseInt trimmed 10 in
  match value with
  | None => None
  | Some v => if ((v <? 0) || (v >? 255))%Z then None else Some v
  end.

(** The loop [for (const part of parts)]. *)
Fixpoint parse_parts (parts : list string) (bytes : list Z)
  : ParseError + list Z :=
  match parts with
  | [] => inr bytes
  | part :: parts' =>
      let trimmed := trim part in
      if is_empty trimmed then parse_parts parts' bytes
      else match parse_token trimmed with
           | Some value => parse_parts parts' (bytes ++ [value])
           | None => inl (InvalidByteFormat trimmed)
           end
  end.

Definition parseByteString (byteString : string) : ParseError + list Z :=
  if is_empty (trim byteString) then inr []
  else parse_parts (split_comma (normalizedString byteString)) [].

(** *** bytesToHexString

    [b.toString(16)] is the hexadecimal text of an integer, in lower case
    and with a minus sign when negative; [padStart(2, '0')] completes it to
    two characters.  [toUpperCase] is applied to that text only, whose
    characters are digits, the letters a to f and the sign: of the code
    units below 256 it maps the letters a to z, the only ones that occur
    here. *)

Definition toString16 (b : Z) : string :=
  HexadecimalString.NilZero.string_of_int (Z.to_hex_int b).

Definition padStart2 (s : string) : string :=
  match s with
  | EmptyString => "00"
  | String c EmptyString => String "0"%char s
  | _ => s
  end.

Definition upper (c : ascii) : ascii :=
  let n := code c in
  if ((97 <=? n) && (n <=? 122))%N then ascii_of_N (n - 32) else c.

Fixpoint toUpperCase (s : string) : string :=
  match s with
  | EmptyString => EmptyString
  | String c s' => String (upper c) (toUpperCase s')
  end.

Definition hex_byte (b : Z) : string :=
  "0x" ++ toUpperCase (padStart2 (toString16 b)).

Definition bytesToHexString (bytes : list Z) : string :=
  String.concat "," (map hex_byte bytes).

(** *** generatePreviewImage: the colour of the picture

    The numbers of this computation are integers that binary64 represents
    exactly (the hash is kept within 32 bits and the bytes of an image are
    between 0 and 255), so they are computed as integers. *)

(** [ToInt32], the conversion the bitwise operators apply. *)
Definition to_int32 (z : Z) : Z := ((z + 2 ^ 31) mod 2 ^ 32 - 2 ^ 31)%Z.

(** One turn of the loop over the name:
    [hash = ((hash << 5) - hash) + char; hash = hash & hash]. *)
Definition hash_step (hash : Z) (c : ascii) : Z :=
  let char := Z.of_N (code c) in
  to_int32 (to_int32 (to_int32 hash * 2 ^ 5) - hash + char)%Z.

Fixpoint name_hash (hash : Z) (name : string) : Z :=
  match name with
  | EmptyString => hash
  | String c name' => name_hash (hash_step hash c) name'
  end.

(** The hash after the first, the middle and the last byte have been
    added to it; the three positions are positions of a non-empty
    array. *)
Definition preview_hash (name : string) (byteData : list Z) : Z :=
  let hash := name_hash 0 name in
  if (0 <? length byteData)%nat
  then (hash + (nth 0 byteData 0 + nth (length byteData / 2) byteData 0
                + nth (length byteData - 1) byteData 0))%Z
  else hash.

(** [hash >> n]: the shift of the 32-bit value of [hash], with its sign. *)
Definition shift_right (hash n : Z) : Z := Z.shiftr (to_int32 hash) n.

(** The components [r], [g] and [b]: [Math.abs(hash % 256)],
    [Math.abs((hash >> 8) % 256)], [Math.abs((hash >> 16) % 256)], where
    [%] is the remainder with the sign of the dividend. *)
Definition preview_rgb (name : string) (byteData : list Z) : Z * Z * Z :=
  let hash := preview_hash name byteData in
  (Z.abs (Z.rem hash 256),
   Z.abs (Z.rem (shift_right hash 8) 256),
   Z.abs (Z.rem (shift_right hash 16) 256)).

(** *** The service *)

(** The persistent store behind [AsyncStorage] under [STORAGE_KEY], with
    the JSON encoding folded in.  [load] is [AsyncStorage.getItem] followed
    by [JSON.parse]: [None] when either throws, [Some None] when nothing is
    stored.  [save] is [JSON.stringify] followed by [AsyncStorage.setItem]:
    [None] when it rejects. *)
Class AsyncStorage (S : Type) : Type := {
  load : S -> option (option (list ImageDataItem));
  save : S -> list ImageDataItem -> option S }.

Record Service (S : Type) : Type := {
  images : list ImageDataItem;
  initialized : bool;
  storage : S }.
Arguments images {S}.
Arguments initialized {S}.
Arguments storage {S}.
Arguments Build_Service {S}.

Inductive AddError : Type :=
| ImageNameRequired
| DuplicateName
| InvalidByteData (e : ParseError)
| ByteDataEmpty
| FailedToSave.

Section Service.
Context {S : Type} `{AsyncStorage S}.

(** [generatePreviewImage(name, byteData)] builds the data URI of an SVG
    picture from its two arguments and has no effect; only the fact that
    it is a function of them is used here. *)
Variable generatePreviewImage : string -> list Z -> string.

Definition initialize (sv : Service S) : Service S :=
  if initialized sv then sv
  else match load (storage sv) with
       | Some (Some stored) => Build_Service stored true (storage sv)
       | Some None => Build_Service (images sv) true (storage sv)
       | None => Build_Service [] true (storage sv)
       end.

Definition saveToStorage (sv : Service S) : option (Service S) :=
  match save (storage sv) (images sv) with
  | Some st => Some (Build_Service (images sv) (initialized sv) st)
  | None => None
  end.

Definition getAllImages (sv : Service S) : list ImageDataItem * Service S :=
  let sv := initialize sv in (images sv, sv).

(** [now] is the value of [Date.now()] and [suffix] the text of
    [Math.random().toString(36).substr(2, 9)]. *)
Definition addImage (name byteString : string) (description : option string)
           (now : Z) (suffix : string) (sv : Service S)
  : (AddError + ImageDataItem) * Service S :=
  let sv := initialize sv in
  if is_empty (trim name) then (inl ImageNameRequired, sv)
  else if existsb (fun img =>
                     String.eqb (toLowerCase (ImageStorageService.name img))
                                (toLowerCase name))
                  (images sv)
  then (inl DuplicateName, sv)
  else match parseByteString byteString with
       | inl e => (inl (InvalidByteData e), sv)
       | inr byteData =>
           if (length byteData =? 0)%nat then (inl ByteDataEmpty, sv)
           else
             let newImage :=
               {| id := "img_" ++ JS.Z_toString now ++ "_" ++ suffix;
                  name := trim name;
                  preview := generatePreviewImage name byteData;
                  byteData := byteData;
                  description := match description with
                                 | Some d => trim d
                                 | None => EmptyString
                                 end;
                  createdAt := now;
                  updatedAt := now |} in
             let sv := Build_Service (images sv ++ [newImage])
                                     (initialized sv) (storage sv) in
             match saveToStorage sv with
             | Some sv' => (inr newImage, sv')
             | None => (inl FailedToSave, sv)
             end
       end.

(** *** The other methods of the service *)

Definition has_id (id : string) (img : ImageDataItem) : bool :=
  String.eqb (ImageStorageService.id img) id.

(** [this.images.find(img => img.id === id) || null] *)
Definition getImageById (id : string) (sv : Service S)
  : option ImageDataItem * Service S :=
  let sv := initialize sv in
  (find (has_id id) (images sv), sv).

(** [Error('Invalid byte data: <message>')] of [updateImage], whose [try]
    block also holds the test of the length. *)
Inductive ByteDataError : Type :=
| ByteFormat (e : ParseError)
| NoBytes.

Inductive UpdateError : Type :=
| ImageNotFound
| ImageNameEmpty
| NameTaken
| InvalidBytes (e : ByteDataError)
| UpdateNotSaved.

(** [a || b] for a field that may be missing. *)
Definition or_else (a : option string) (b : string) : string :=
  match a with
  | Some s => if is_empty s then b else s
  | None => b
  end.

(** The fields of [updatedFields] that [updateImage] fills: the name, the
    bytes with their preview, the description.  [None] is a field left
    out. *)
Definition update_name (id : string) (name : option string)
           (images : list ImageDataItem) : UpdateError + option string :=
  match name with
  | None => inr None
  | Some name =>
      let trimmedName := trim name in
      if is_empty trimmedName then inl ImageNameEmpty
      else if existsb (fun img =>
                         negb (has_id id img)
                         && String.eqb (toLowerCase (ImageStorageService.name img))
                                       (toLowerCase trimmedName))
                      images
      then inl NameTaken
      else inr (Some trimmedName)
  end.

Definition update_bytes (byteString : option string) (previewName : string)
  : UpdateError + option (list Z * string) :=
  match byteString with
  | None => inr None
  | Some byteString =>
      match parseByteString byteString with
      | inl e => inl (InvalidBytes (ByteFormat e))
      | inr byteData =>
          if (length byteData =? 0)%nat then inl (InvalidBytes NoBytes)
          else inr (Some (byteData, generatePreviewImage previewName byteData))
      end
  end.

(** [{ ...image, ...updatedFields, updatedAt: Date.now() }] *)
Definition merge_fields (image : ImageDataItem) (newName : option string)
           (newBytes : option (list Z * string)) (newDescription : option string)
           (now : Z) : ImageDataItem :=
  {| id := ImageStorageService.id image;
     name := match newName with
             | Some n => n
             | None => ImageStorageService.name image
             end;
     preview := match newBytes with
                | Some (_, p) => p
                | None => preview image
                end;
     byteData := match newBytes with
                 | Some (b, _) => b
                 | None => byteData image
                 end;
     description := match newDescription with
                    | Some d => d
                    | None => ImageStorageService.description image
                    end;
     createdAt := createdAt image;
     updatedAt := now |}.

(** [updateImage(id, name, byteString, description)]; an argument that is
    [undefined] is [None], and [now] is the value of [Date.now()].  The
    position [JS.findIndex] returns is one of the array, so [image] is
    defined. *)
Definition updateImage (id : string) (name byteString description : option string)
           (now : Z) (sv : Service S)
  : (UpdateError + ImageDataItem) * Service S :=
  let sv := initialize sv in
  match JS.findIndex (has_id id) (images sv) with
  | None => (inl ImageNotFound, sv)
  | Some imageIndex =>
      match nth_error (images sv) imageIndex with
      | None => (inl ImageNotFound, sv)
      | Some image =>
          match update_name id name (images sv) with
          | inl e => (inl e, sv)
          | inr newName =>
              match update_bytes byteString
                      (or_else newName (ImageStorageService.name image)) with
              | inl e => (inl e, sv)
              | inr newBytes =>
                  let newDescription := option_map trim description in
                  let updatedImage :=
                    merge_fields image newName newBytes newDescription now in
                  let sv := Build_Service
                              (JS.assign imageIndex updatedImage (images sv))
                              (initialized sv) (storage sv) in
                  match saveToStorage sv with
                  | Some sv' => (inr updatedImage, sv')
                  | None => (inl UpdateNotSaved, sv)
                  end
              end
          end
      end
  end.

(** [Error('Failed to save image data')], the only error of the methods
    that check nothing. *)
Inductive SaveError : Type := FailedToSaveImageData.

Definition deleteImage (id : string) (sv : Service S)
  : (SaveError + bool) * Service S :=
  let sv := initialize sv in
  match JS.findIndex (has_id id) (images sv) with
  | None => (inr false, sv)
  | Some imageIndex =>
      let sv := Build_Service (JS.splice_one imageIndex (images sv))
                              (initialized sv) (storage sv) in
      match saveToStorage sv with
      | Some sv' => (inr true, sv')
      | None => (inl FailedToSaveImageData, sv)
      end
  end.

Definition clearAllImages (sv : Service S) : (SaveError + unit) * Service S :=
  let sv := initialize sv in
  let sv := Build_Service [] (initialized sv) (storage sv) in
  match saveToStorage sv with
  | Some sv' => (inr tt, sv')
  | None => (inl FailedToSaveImageData, sv)
  end.

Definition getImageCount (sv : Service S) : nat * Service S :=
  let sv := initialize sv in (length (images sv), sv).

(** The service object of a new run of the application: the fields as
    the class initializes them, over the store as the last run left it. *)
Definition new_service (st : S) : Service S := Build_Service [] false st.

End Service.

(** A store for examples: it holds the saved list and never fails. *)
#[global] Instance Memory_storage : AsyncStorage (option (list ImageDataItem)) := {
  load st := Some st;
  save _ imgs := Some (Some imgs) }.

End ImageStorageService.

(** * Properties *)

Ltac Zify.zify_post_hook ::= Z.div_mod_to_equations.

(** ** The chunks of a payload *)

Section Chunks.
Import JS UseBLE.

Lemma chunk_loop_step (l : list Z) (i : nat) (acc : list (list Z)) :
  i < length l ->
  chunk_loop l i acc
  = chunk_loop l (i + limitBytes) (acc ++ [slice l i (i + limitBytes)]).
Proof.
  intros Hi. rewrite chunk_loop_equation_1.
  destruct (lt_dec i (length l)); [reflexivity | contradiction].
Qed.

Lemma chunk_loop_stop (l : list Z) (i : nat) (acc : list (list Z)) :
  length l <= i -> chunk_loop l i acc = acc.
Proof.
  intros Hi. rewrite chunk_loop_equation_1.
  destruct (lt_dec i (length l)); [lia | reflexivity].
Qed.

(** The number of iterations left when the loop index is [i]. *)
Definition iterations_left (len i : nat) : nat := (len - i + 299) / 300.

Lemma chunk_loop_closed (l : list Z) (m : nat) :
  forall i acc,
    iterations_left (length l) i = m ->
    chunk_loop l i acc
    = acc ++ map (fun k => slice l (i + 300 * k) (i + 300 * k + 300)) (seq 0 m).
Proof.
  unfold iterations_left. induction m as [|m IH]; intros i acc Hm.
  - rewrite chunk_loop_stop by lia. simpl. now rewrite app_nil_r.
  - rewrite chunk_loop_step by lia. unfold limitBytes.
    rewrite (IH (i + 300) _) by lia.
    rewrite <- app_assoc. f_equal. simpl.
    replace (i + 0) with i by lia. f_equal.
    rewrite <- seq_shift, map_map. apply map_ext. intros k.
    f_equal; lia.
Qed.

Lemma make_chunks_closed (l : list Z) :
  make_chunks l
  = map (fun k => slice l (300 * k) (300 * k + 300))
        (seq 0 ((length l + 299) / 300)).
Proof.
  unfold make_chunks.
  rewrite (chunk_loop_closed l (iterations_left (length l) 0) 0 []) by reflexivity.
  unfold iterations_left. now rewrite Nat.sub_0_r.
Qed.

Lemma firstn_plus {A : Type} (a b : nat) (l : list A) :
  firstn (a + b) l = firstn a l ++ firstn b (skipn a l).
Proof.
  revert l. induction a as [|a IH]; intros [|x l]; simpl;
    try reflexivity.
  - now rewrite firstn_nil.
  - now rewrite IH.
Qed.

Lemma concat_slices {A : Type} (l : list A) (n : nat) :
  concat (map (fun k => slice l (300 * k) (300 * k + 300)) (seq 0 n))
  = firstn (300 * n) l.
Proof.
  induction n as [|n IH].
  - reflexivity.
  - rewrite seq_S, map_app, concat_app, IH.
    replace (300 * S n) with (300 * n + 300) by lia.
    rewrite firstn_plus. f_equal.
    cbn [map concat Nat.add]. rewrite app_nil_r. unfold slice.
    f_equal. lia.
Qed.

Lemma slice_length {A : Type} (l : list A) (s e : nat) :
  length (slice l s e) = Nat.min (e - s) (length l - s).
Proof. unfold slice. now rewrite length_firstn, length_skipn. Qed.

Lemma chunk_lengths (l : list Z) :
  map (@length Z) (make_chunks l)
  = repeat 300 (length l / 300)
      ++ (if Nat.eqb (length l mod 300) 0 then [] else [length l mod 300]).
Proof.
  rewrite make_chunks_closed, map_map.
  set (len := length l).
  assert (Hn : (len + 299) / 300
               = len / 300 + (if Nat.eqb (len mod 300) 0 then 0 else 1)).
  { destruct (Nat.eqb_spec (len mod 300) 0); lia. }
  rewrite Hn, seq_app, map_app. f_equal.
  - transitivity (map (fun _ : nat => 300) (seq 0 (len / 300))).
    + apply map_ext_in. intros k Hk.
      apply in_seq in Hk. rewrite slice_length. fold len. lia.
    + now rewrite map_const, length_seq.
  - destruct (Nat.eqb_spec (len mod 300) 0); cbn [seq map]; [reflexivity|].
    rewrite slice_length. fold len. f_equal. lia.
Qed.

Lemma concat_make_chunks (l : list Z) : concat (make_chunks l) = l.
Proof.
  rewrite make_chunks_closed, concat_slices. apply firstn_all2. lia.
Qed.

End Chunks.

(** C1. The transfer engine cuts a payload of length [L] into
    ceil(L / 300) chunks; chunk [k] is the contiguous slice of the payload
    from position [300 k] up to position [300 k + 300] (so the chunks follow
    one another in order and do not overlap); every chunk has 300 elements
    except that the last one has [L mod 300] when 300 does not divide [L];
    and the chunks concatenated in order are the payload. *)
Theorem chunks_partition_payload (byteData : list Z) :
  let L := length byteData in
  let chunks := UseBLE.make_chunks byteData in
  length chunks = (L + 299) / 300
  /\ chunks = map (fun k => JS.slice byteData (300 * k) (300 * k + 300))
                  (seq 0 ((L + 299) / 300))
  /\ map (@length Z) chunks
     = repeat 300 (L / 300) ++ (if Nat.eqb (L mod 300) 0 then [] else [L mod 300])
  /\ concat chunks = byteData.
Proof.
  intros L chunks. subst chunks.
  split; [|split; [|split]].
  - now rewrite make_chunks_closed, length_map, length_seq.
  - apply make_chunks_closed.
  - apply chunk_lengths.
  - apply concat_make_chunks.
Qed.

(** ** Running a transfer *)

Section Transfer.
Import JS UseBLE.
Context {L : Type} `{BleLink L}.

Definition write_to (l : L) (value : string) : option L :=
  writeCharacteristicWithResponseForService
    l DATA_SERVICE_UUID COLOR_CHARACTERISTIC_UUID value.

(** How many of the writes of [values], issued in order from the link
    state [l], are acknowledged before one fails. *)
Fixpoint acked_writes (l : L) (values : list string) : nat :=
  match values with
  | [] => 0
  | v :: values' =>
      match write_to l v with
      | Some l' => S (acked_writes l' values')
      | None => 0
      end
  end.

(** The link state after those acknowledged writes. *)
Fixpoint link_after (l : L) (values : list string) : L :=
  match values with
  | [] => l
  | v :: values' =>
      match write_to l v with
      | Some l' => link_after l' values'
      | None => l
      end
  end.

(** What one acknowledged chunk leaves in the trace, the byte count
    before it being [c]. *)
Definition chunk_events (len c : Z) (chunk : list Z) : list Event :=
  let c' := (c + Z.of_nat (length chunk))%Z in
  [ Write PayloadChunk (bytesToBase64 chunk) true;
    SetStreamingProgress (progress_of c' len);
    SetStreamingStatus (streaming_message (progress_of c' len) c' len);
    Sleep 100 ].

Fixpoint chunks_events (len c : Z) (chunks : list (list Z)) : list Event :=
  match chunks with
  | [] => []
  | chunk :: rest =>
      chunk_events len c chunk
        ++ chunks_events len (c + Z.of_nat (length chunk)) rest
  end.

Fixpoint hook_after (len c : Z) (chunks : list (list Z)) (h : Hook) : Hook :=
  match chunks with
  | [] => h
  | chunk :: rest =>
      let c' := (c + Z.of_nat (length chunk))%Z in
      hook_after len c' rest
        (Build_Hook (progress_of c' len) (isStreaming h)
                    (streaming_message (progress_of c' len) c' len))
  end.

Definition total_length (chunks : list (list Z)) : Z :=
  Z.of_nat (length (concat chunks)).

Lemma total_length_cons (chunk : list Z) (rest : list (list Z)) :
  total_length (chunk :: rest)
  = (Z.of_nat (length chunk) + total_length rest)%Z.
Proof. unfold total_length. simpl. rewrite length_app. lia. Qed.

(** The streaming loop, whatever the peripheral does: it stops at the
    first write that is not acknowledged. *)
Lemma stream_chunks_run (len : Z) (chunks : list (list Z)) :
  forall w : World L,
    let values := map bytesToBase64 chunks in
    let k := acked_writes (link w) values in
    let done := firstn k chunks in
    stream_chunks len chunks w
    = (if Nat.eqb k (length chunks) then Ok tt else Thrown,
       Build_World
         (hook_after len (count w) done (hook w))
         (link_after (link w) values)
         (count w + total_length done)
         (trace w ++ chunks_events len (count w) done
            ++ (if Nat.eqb k (length chunks) then []
                else [Write PayloadChunk (nth k values EmptyString) false]))).
Proof.
  induction chunks as [|chunk rest IH]; intros w; cbn zeta.
  - cbn. unfold ret, total_length. cbn.
    rewrite Z.add_0_r, app_nil_r. now destruct w.
  - cbn [stream_chunks map acked_writes link_after].
    unfold bind at 1. unfold await_write at 1. fold (write_to (link w) (bytesToBase64 chunk)).
    destruct (write_to (link w) (bytesToBase64 chunk)) as [l'|] eqn:Hw.
    + unfold bind, get_count, set_count, setStreamingProgress,
        setStreamingStatus, sleep, emit, set_hook. cbn [hook link count trace fst snd].
      cbn [streamingProgress isStreaming streamingStatus].
      match goal with |- stream_chunks _ _ ?w' = _ => rewrite (IH w') end.
      cbn [hook link count trace firstn length Nat.eqb hook_after chunks_events nth].
      cbn [streamingProgress isStreaming streamingStatus].
      rewrite total_length_cons. unfold chunk_events.
      repeat rewrite <- app_assoc. cbn [app].
      now rewrite Z.add_assoc.
    + unfold emit. cbn [hook link count trace firstn length Nat.eqb hook_after chunks_events nth].
      unfold total_length. cbn. rewrite Z.add_0_r. reflexivity.
Qed.

Definition opening_events : list Event :=
  [ SetIsStreaming true; SetStreamingProgress (Int 0);
    SetStreamingStatus "Requesting MTU..." ].

Definition prepared_events : list Event :=
  [ RequestMTU 303 true;
    SetStreamingStatus "Preparing data chunks...";
    SetStreamingStatus "Streaming data..." ].

Definition completion_events : list Event :=
  [ SetStreamingStatus "Sending completion signal...";
    Write EndMarker (bytesToBase64 endMarker) true;
    SetStreamingProgress (Int 100);
    SetStreamingStatus "Streaming completed successfully!";
    SetIsStreaming false;
    SetTimeout 2000 ].

Definition failure_events : list Event :=
  [ SetStreamingStatus "Error: Streaming failed";
    SetIsStreaming false;
    SetTimeout 3000 ].

Definition failed (progress : number) : Hook :=
  Build_Hook progress false "Error: Streaming failed".

Definition completed : Hook :=
  Build_Hook (Int 100) false "Streaming completed successfully!".

(** The transfer when the MTU request is rejected. *)
Lemma startStreamingData_no_mtu (d : Device) (byteData : list Z) (w : World L) :
  requestMTU (link w) 303 = None ->
  startStreamingData (Some d) byteData w
  = (Ok tt,
     Build_World (failed (Int 0)) (link w) (count w)
       (trace w ++ opening_events ++ [RequestMTU 303 false] ++ failure_events)).
Proof.
  intros Hmtu.
  unfold startStreamingData, try_catch, bind, setIsStreaming,
    setStreamingProgress, setStreamingStatus, await_requestMTU, setTimeout,
    emit, set_hook.
  cbn [hook link count trace streamingProgress isStreaming streamingStatus].
  rewrite Hmtu.
  cbn [hook link count trace streamingProgress isStreaming streamingStatus].
  unfold failed, opening_events, failure_events.
  repeat rewrite <- app_assoc. reflexivity.
Qed.

(** The transfer when the MTU request is granted, in terms of the number
    [k] of chunk writes the peripheral acknowledges. *)
Lemma startStreamingData_run (d : Device) (byteData : list Z) (w : World L)
      (l1 : L) :
  requestMTU (link w) 303 = Some l1 ->
  let len := Z.of_nat (length byteData) in
  let chunks := make_chunks byteData in
  let values := map bytesToBase64 chunks in
  let k := acked_writes l1 values in
  let done := firstn k chunks in
  let l2 := link_after l1 values in
  let streamed := trace w ++ opening_events ++ prepared_events
                    ++ chunks_events len 0 done in
  let h := hook_after len 0 done
             (Build_Hook (Int 0) true "Streaming data...") in
  startStreamingData (Some d) byteData w
  = (Ok tt,
     if Nat.eqb k (length chunks) then
       match write_to l2 (bytesToBase64 endMarker) with
       | Some l3 =>
           Build_World completed l3 (total_length done)
             (streamed ++ completion_events)
       | None =>
           Build_World (failed (streamingProgress h)) l2 (total_length done)
             (streamed
                ++ [ SetStreamingStatus "Sending completion signal...";
                     Write EndMarker (bytesToBase64 endMarker) false ]
                ++ failure_events)
       end
     else
       Build_World (failed (streamingProgress h)) l2 (total_length done)
         (streamed ++ [Write PayloadChunk (nth k values EmptyString) false]
            ++ failure_events)).
Proof.
  intros Hmtu len chunks values k done l2 streamed h.
  unfold startStreamingData, try_catch.
  unfold bind at 1. unfold setIsStreaming at 1.
  unfold bind at 1. unfold setStreamingProgress at 1.
  unfold bind at 1. unfold setStreamingStatus at 1.
  unfold bind at 1. unfold await_requestMTU at 1.
  unfold emit, set_hook.
  cbn [hook link count trace streamingProgress isStreaming streamingStatus].
  rewrite Hmtu.
  unfold bind at 1. unfold setStreamingStatus at 1.
  unfold bind at 1. unfold setStreamingStatus at 1.
  unfold bind at 1. unfold set_count at 1.
  unfold bind at 1. unfold emit, set_hook.
  cbn [hook link count trace streamingProgress isStreaming streamingStatus].
  rewrite stream_chunks_run.
  cbn [hook link count trace].
  fold len chunks values k done l2.
  assert (Hh : exists p s, h = Build_Hook p true s).
  { subst h. generalize (Int 0) "Streaming data...".
    generalize 0%Z at 1. clear.
    induction done as [|c r IH]; intros z p s; cbn; eauto. }
  destruct Hh as (p & s & Hh). fold h. rewrite Hh.
  destruct (Nat.eqb k (length chunks)).
  - unfold bind at 1. unfold setStreamingStatus at 1.
    unfold bind at 1. unfold await_write at 1.
    unfold emit, set_hook.
    cbn [hook link count trace streamingProgress isStreaming streamingStatus].
    fold (write_to l2 (bytesToBase64 endMarker)).
    destruct (write_to l2 (bytesToBase64 endMarker)) as [l3|].
    + unfold bind, setStreamingProgress, setStreamingStatus, setIsStreaming,
        setTimeout, emit, set_hook.
      cbn [hook link count trace streamingProgress isStreaming streamingStatus].
      unfold completed, streamed, opening_events, prepared_events, completion_events.
      rewrite Z.add_0_l, app_nil_r.
      repeat rewrite <- app_assoc. reflexivity.
    + unfold bind, setStreamingProgress, setStreamingStatus, setIsStreaming,
        setTimeout, emit, set_hook.
      cbn [hook link count trace streamingProgress isStreaming streamingStatus].
      unfold failed, streamed, opening_events, prepared_events, failure_events.
      rewrite Z.add_0_l, app_nil_r.
      repeat rewrite <- app_assoc. reflexivity.
  - unfold bind, setStreamingProgress, setStreamingStatus, setIsStreaming,
      setTimeout, emit, set_hook.
    cbn [hook link count trace streamingProgress isStreaming streamingStatus].
    unfold failed, streamed, opening_events, prepared_events, failure_events.
    rewrite Z.add_0_l.
    repeat rewrite <- app_assoc. reflexivity.
Qed.

(** *** What the trace of the acknowledged chunks contains *)

(** The byte count after each chunk, from the count [c]. *)
Fixpoint running_counts (c : Z) (chunks : list (list Z)) : list Z :=
  match chunks with
  | [] => []
  | chunk :: rest =>
      (c + Z.of_nat (length chunk))%Z
        :: running_counts (c + Z.of_nat (length chunk)) rest
  end.

Lemma writes_app (t1 t2 : list Event) :
  writes (t1 ++ t2) = writes t1 ++ writes t2.
Proof. unfold writes. now rewrite flat_map_app. Qed.

Lemma progress_events_app (t1 t2 : list Event) :
  progress_events (t1 ++ t2) = progress_events t1 ++ progress_events t2.
Proof. unfold progress_events. now rewrite flat_map_app. Qed.

Lemma writes_chunks_events (len : Z) (chunks : list (list Z)) :
  forall c,
    writes (chunks_events len c chunks)
    = map (fun chunk => (PayloadChunk, bytesToBase64 chunk, true)) chunks.
Proof.
  induction chunks as [|chunk rest IH]; intros c; [reflexivity|].
  cbn [chunks_events]. rewrite writes_app, IH. reflexivity.
Qed.

Lemma progress_chunks_events (len : Z) (chunks : list (list Z)) :
  forall c,
    progress_events (chunks_events len c chunks)
    = map (fun c' => progress_of c' len) (running_counts c chunks).
Proof.
  induction chunks as [|chunk rest IH]; intros c; [reflexivity|].
  cbn [chunks_events running_counts map].
  rewrite progress_events_app, IH. reflexivity.
Qed.

Lemma running_counts_total (chunks : list (list Z)) :
  forall c,
    running_counts c chunks
    = map (fun j => (c + total_length (firstn (S j) chunks))%Z)
          (seq 0 (length chunks)).
Proof.
  induction chunks as [|chunk rest IH]; intros c; [reflexivity|].
  cbn [running_counts length seq map]. f_equal.
  - cbn [firstn]. rewrite total_length_cons. unfold total_length. cbn. lia.
  - rewrite IH, <- seq_shift, map_map. apply map_ext. intros j.
    change (firstn (S (S j)) (chunk :: rest))
      with (chunk :: firstn (S j) rest).
    rewrite (total_length_cons chunk (firstn (S j) rest)). lia.
Qed.

End Transfer.

Section ChunkPrefixes.
Import JS UseBLE.

Lemma firstn_seq_le (k a n : nat) :
  k <= n -> firstn k (seq a n) = seq a k.
Proof.
  revert a n. induction k as [|k IH]; intros a [|n] Hk;
    try reflexivity; try lia.
  cbn [seq firstn]. f_equal. apply IH. lia.
Qed.

(** The first [k] chunks are the first [300 k] elements of the payload. *)
Lemma concat_firstn_chunks (l : list Z) (k : nat) :
  k <= length (make_chunks l) ->
  concat (firstn k (make_chunks l)) = firstn (300 * k) l.
Proof.
  rewrite make_chunks_closed, length_map, length_seq. intros Hk.
  rewrite firstn_map, firstn_seq_le by exact Hk.
  apply concat_slices.
Qed.

Lemma total_length_firstn_chunks (l : list Z) (k : nat) :
  k <= length (make_chunks l) ->
  total_length (firstn k (make_chunks l))
  = Z.of_nat (Nat.min (300 * k) (length l)).
Proof.
  intros Hk. unfold total_length.
  now rewrite concat_firstn_chunks, length_firstn.
Qed.

Lemma chunks_count (l : list Z) :
  length (make_chunks l) = (length l + 299) / 300.
Proof. now rewrite make_chunks_closed, length_map, length_seq. Qed.

(** The byte counts of a complete run over the chunks of a payload. *)
Lemma running_counts_chunks (l : list Z) (k : nat) :
  k <= length (make_chunks l) ->
  running_counts 0 (firstn k (make_chunks l))
  = map (fun j => Z.of_nat (Nat.min (300 * S j) (length l))) (seq 0 k).
Proof.
  intros Hk. rewrite running_counts_total.
  rewrite length_firstn, Nat.min_l by exact Hk.
  apply map_ext_in. intros j Hj. apply in_seq in Hj.
  rewrite firstn_firstn, Nat.min_l by lia.
  rewrite total_length_firstn_chunks by lia. lia.
Qed.

End ChunkPrefixes.

(** C8. With no device handle the transfer is rejected on the spot: the
    only effects are the status message [Error: No device connected] (the
    words "no device connected" once case is ignored) and the streaming flag
    set to false; nothing is awaited, the link is not touched and no write
    is issued. *)
Theorem no_device_is_rejected {L : Type} `{UseBLE.BleLink L}
        (byteData : list Z) (w : UseBLE.World L) :
  UseBLE.startStreamingData None byteData w
  = (UseBLE.Ok tt,
     UseBLE.Build_World
       (UseBLE.Build_Hook (UseBLE.streamingProgress (UseBLE.hook w)) false
                          "Error: No device connected")
       (UseBLE.link w) (UseBLE.count w)
       (UseBLE.trace w
          ++ [ UseBLE.SetStreamingStatus "Error: No device connected";
               UseBLE.SetIsStreaming false ]))
  /\ UseBLE.writes (UseBLE.trace (snd (UseBLE.startStreamingData None byteData w)))
     = UseBLE.writes (UseBLE.trace w)
  /\ JSString.toLowerCase (substring 7 19 "Error: No device connected")
     = "no device connected".
Proof.
  assert (Hrun : UseBLE.startStreamingData None byteData w
                 = (UseBLE.Ok tt,
                    UseBLE.Build_World
                      (UseBLE.Build_Hook
                         (UseBLE.streamingProgress (UseBLE.hook w)) false
                         "Error: No device connected")
                      (UseBLE.link w) (UseBLE.count w)
                      (UseBLE.trace w
                         ++ [ UseBLE.SetStreamingStatus "Error: No device connected";
                              UseBLE.SetIsStreaming false ]))).
  { unfold UseBLE.startStreamingData, UseBLE.try_catch, UseBLE.bind,
      UseBLE.setStreamingStatus, UseBLE.setIsStreaming, UseBLE.emit,
      UseBLE.set_hook. cbn.
    now rewrite <- app_assoc. }
  split; [exact Hrun|]. split; [|reflexivity].
  rewrite Hrun. cbn [snd UseBLE.trace].
  rewrite writes_app. cbn. now rewrite app_nil_r.
Qed.

(** C2. When the MTU request is granted and the write of chunk [k] is the
    first one the peripheral does not acknowledge, the transfer ends in the
    failed state (status [Error: Streaming failed], streaming flag off, the
    3000 ms reset scheduled), the End Marker is never written, and the byte
    count is the total length of chunks 0 to [k - 1], that is [300 k]. *)
Theorem write_failure_stops_at_chunk {L : Type} `{UseBLE.BleLink L}
        (d : UseBLE.Device) (byteData : list Z) (w : UseBLE.World L)
        (l1 : L) (k : nat) :
  UseBLE.requestMTU (UseBLE.link w) 303 = Some l1 ->
  acked_writes l1 (map UseBLE.bytesToBase64 (UseBLE.make_chunks byteData)) = k ->
  k < length (UseBLE.make_chunks byteData) ->
  let chunks := UseBLE.make_chunks byteData in
  let w' := snd (UseBLE.startStreamingData (Some d) byteData w) in
  fst (UseBLE.startStreamingData (Some d) byteData w) = UseBLE.Ok tt
  /\ UseBLE.streamingStatus (UseBLE.hook w') = "Error: Streaming failed"
  /\ UseBLE.isStreaming (UseBLE.hook w') = false
  /\ UseBLE.count w' = Z.of_nat (length (concat (firstn k chunks)))
  /\ UseBLE.count w' = (300 * Z.of_nat k)%Z
  /\ (exists t,
        UseBLE.trace w'
        = UseBLE.trace w ++ t
            ++ [ UseBLE.Write UseBLE.PayloadChunk
                   (UseBLE.bytesToBase64 (nth k chunks [])) false;
                 UseBLE.SetStreamingStatus "Error: Streaming failed";
                 UseBLE.SetIsStreaming false;
                 UseBLE.SetTimeout 3000 ]
        /\ UseBLE.writes t
           = map (fun chunk => (UseBLE.PayloadChunk,
                                UseBLE.bytesToBase64 chunk, true))
                 (firstn k chunks)).
Proof.
  intros Hmtu Hk Hlt chunks w'. subst w'.
  rewrite (startStreamingData_run d byteData w l1 Hmtu).
  fold chunks in Hk, Hlt |- *. rewrite Hk.
  assert (Hneq : Nat.eqb k (length chunks) = false) by (apply Nat.eqb_neq; lia).
  rewrite Hneq. cbn [fst snd UseBLE.hook UseBLE.count UseBLE.trace].
  split; [reflexivity|]. split; [reflexivity|]. split; [reflexivity|].
  split; [reflexivity|]. split.
  - unfold chunks. rewrite total_length_firstn_chunks by (fold chunks; lia).
    unfold chunks in Hlt. rewrite chunks_count in Hlt. lia.
  - exists (opening_events ++ prepared_events
            ++ chunks_events (Z.of_nat (length byteData)) 0 (firstn k chunks)).
    split.
    + unfold failure_events. repeat rewrite <- app_assoc.
      do 4 f_equal. cbn [app]. f_equal. f_equal.
      rewrite <- (map_nth UseBLE.bytesToBase64 chunks [] k). reflexivity.
    + rewrite !writes_app, writes_chunks_events. reflexivity.
Qed.

Lemma write_failure_stops_at_chunk_witness :
  let w := UseBLE.fresh (UseBLE.Build_Scripted 0 (Some 2)) in
  let w' := snd (UseBLE.startStreamingData (Some UseBLE.frame) (repeat 7%Z 700) w) in
  UseBLE.streamingStatus (UseBLE.hook w') = "Error: Streaming failed"
  /\ UseBLE.count w' = 600%Z.
Proof.
  intros w w'.
  destruct (write_failure_stops_at_chunk
              UseBLE.frame (repeat 7%Z 700) w
              (UseBLE.Build_Scripted 0 (Some 2)) 2)
    as (_ & Hs & _ & _ & Hc & _).
  - reflexivity.
  - vm_compute. reflexivity.
  - vm_compute. lia.
  - split; [exact Hs | exact Hc].
Defined.

(** C3. A transfer that ends with the success status has written every
    chunk, in order, and then the End Marker [FF FF FF FF] exactly once, as
    its last write; the byte count at the end is the length of the payload,
    without the four bytes of the marker, and every progress value between
    the initial 0 and the final 100 is computed from the length of a prefix
    of the payload. *)
Theorem end_marker_once_and_last {L : Type} `{UseBLE.BleLink L}
        (d : UseBLE.Device) (byteData : list Z) (w : UseBLE.World L) :
  let w' := snd (UseBLE.startStreamingData (Some d) byteData w) in
  let len := length byteData in
  UseBLE.streamingStatus (UseBLE.hook w') = "Streaming completed successfully!" ->
  UseBLE.endMarker = [255; 255; 255; 255]%Z
  /\ UseBLE.count w' = Z.of_nat len
  /\ exists t,
       UseBLE.trace w' = UseBLE.trace w ++ t
       /\ UseBLE.writes t
          = map (fun chunk => (UseBLE.PayloadChunk,
                               UseBLE.bytesToBase64 chunk, true))
                (UseBLE.make_chunks byteData)
              ++ [(UseBLE.EndMarker, UseBLE.bytesToBase64 UseBLE.endMarker, true)]
       /\ UseBLE.progress_events t
          = JS.Int 0
              :: map (fun j => UseBLE.progress_of
                                 (Z.of_nat (Nat.min (300 * S j) len))
                                 (Z.of_nat len))
                     (seq 0 ((len + 299) / 300))
              ++ [JS.Int 100].
Proof.
  intros w' len. subst w'.
  destruct (UseBLE.requestMTU (UseBLE.link w) 303) as [l1|] eqn:Hmtu.
  2:{ rewrite (startStreamingData_no_mtu d byteData w Hmtu).
      cbn. discriminate. }
  rewrite (startStreamingData_run d byteData w l1 Hmtu).
  set (chunks := UseBLE.make_chunks byteData).
  set (values := map UseBLE.bytesToBase64 chunks).
  destruct (Nat.eqb_spec (acked_writes l1 values) (length chunks)) as [Hk|Hk].
  2:{ cbn. discriminate. }
  destruct (write_to (link_after l1 values) _) as [l3|].
  2:{ cbn. discriminate. }
  intros _. cbn [snd UseBLE.hook UseBLE.count UseBLE.trace].
  rewrite Hk, firstn_all.
  split; [reflexivity|]. split.
  - unfold total_length, chunks.
    now rewrite concat_make_chunks.
  - eexists. split.
    + rewrite <- !app_assoc. reflexivity.
    + split.
      * rewrite !writes_app, writes_chunks_events. reflexivity.
      * rewrite !progress_events_app, progress_chunks_events.
        rewrite <- (firstn_all chunks) at 1.
        unfold chunks at 1 2.
        rewrite running_counts_chunks by reflexivity.
        rewrite chunks_count, map_map. reflexivity.
Qed.

Lemma end_marker_once_and_last_witness :
  let w := UseBLE.fresh (UseBLE.Build_Scripted 0 None) in
  let w' := snd (UseBLE.startStreamingData (Some UseBLE.frame) (repeat 7%Z 700) w) in
  UseBLE.count w' = 700%Z
  /\ map fst (UseBLE.writes (UseBLE.trace w'))
     = [ (UseBLE.PayloadChunk, UseBLE.bytesToBase64 (repeat 7%Z 300));
         (UseBLE.PayloadChunk, UseBLE.bytesToBase64 (repeat 7%Z 300));
         (UseBLE.PayloadChunk, UseBLE.bytesToBase64 (repeat 7%Z 100));
         (UseBLE.EndMarker, "/////w==") ].
Proof.
  intros w w'.
  destruct (end_marker_once_and_last UseBLE.frame (repeat 7%Z 700) w)
    as (_ & Hc & t & Ht & Hw & _).
  - vm_compute. reflexivity.
  - split; [exact Hc|].
    fold w'. fold w' in Ht. rewrite Ht. cbn [UseBLE.trace w UseBLE.fresh app].
    rewrite Hw. vm_compute. reflexivity.
Defined.

(** The division of [progress_of] by a zero length would be [NaN], were it
    evaluated. *)
Lemma progress_of_zero_length : UseBLE.progress_of 0 0 = JS.NaN.
Proof. reflexivity. Qed.

(** C7, as stated, fails: with an empty payload and a connected peripheral
    that acknowledges everything, the progress values emitted are 0 and 100
    and none is [NaN]; the transfer ends with the progress 100 and the
    success status. *)
Lemma empty_payload_progress_is_not_nan :
  let w' := snd (UseBLE.startStreamingData (Some UseBLE.frame) []
                   (UseBLE.fresh (UseBLE.Build_Scripted 0 None))) in
  UseBLE.progress_events (UseBLE.trace w') = [JS.Int 0; JS.Int 100]
  /\ UseBLE.streamingProgress (UseBLE.hook w') = JS.Int 100
  /\ ~ In JS.NaN (UseBLE.progress_events (UseBLE.trace w'))
  /\ UseBLE.streamingStatus (UseBLE.hook w')
     = "Streaming completed successfully!".
Proof.
  cbv zeta. split; [reflexivity|]. split; [reflexivity|].
  split; [|reflexivity].
  cbn. intros [Hx|[Hx|[]]]; discriminate.
Qed.

(** C7, amended. A transfer with an empty payload and a device handle is
    not guarded, but the payload yields no chunk, so the loop that holds the
    division never runs: no payload write is issued, the byte count stays 0,
    and the progress values emitted are the initial 0 followed, when the MTU
    request and the End Marker write both succeed, by 100; none of them is
    [NaN].  In that case the transfer ends with the progress 100 and the
    status [Streaming completed successfully!]; when either of the two is
    rejected it ends with the progress 0 and the status
    [Error: Streaming failed]. *)
Theorem empty_payload_emits_no_nan {L : Type} `{UseBLE.BleLink L}
        (d : UseBLE.Device) (w : UseBLE.World L) :
  let w' := snd (UseBLE.startStreamingData (Some d) [] w) in
  let marker := UseBLE.bytesToBase64 UseBLE.endMarker in
  UseBLE.make_chunks [] = []
  /\ exists t,
       UseBLE.trace w' = UseBLE.trace w ++ t
       /\ UseBLE.progress_events t
          = JS.Int 0
              :: match UseBLE.requestMTU (UseBLE.link w) 303 with
                 | Some l1 =>
                     match write_to l1 marker with
                     | Some _ => [JS.Int 100]
                     | None => []
                     end
                 | None => []
                 end
       /\ ~ In JS.NaN (UseBLE.progress_events t)
       /\ UseBLE.writes t
          = match UseBLE.requestMTU (UseBLE.link w) 303 with
            | Some l1 =>
                [(UseBLE.EndMarker, marker,
                  match write_to l1 marker with
                  | Some _ => true
                  | None => false
                  end)]
            | None => []
            end
       /\ UseBLE.count w'
          = match UseBLE.requestMTU (UseBLE.link w) 303 with
            | Some _ => 0%Z
            | None => UseBLE.count w
            end
       /\ UseBLE.hook w'
          = match UseBLE.requestMTU (UseBLE.link w) 303 with
            | Some l1 =>
                match write_to l1 marker with
                | Some _ =>
                    UseBLE.Build_Hook (JS.Int 100) false
                                      "Streaming completed successfully!"
                | None =>
                    UseBLE.Build_Hook (JS.Int 0) false
                                      "Error: Streaming failed"
                end
            | None =>
                UseBLE.Build_Hook (JS.Int 0) false "Error: Streaming failed"
            end.
Proof.
  intros w' marker. subst w' marker. split; [reflexivity|].
  destruct (UseBLE.requestMTU (UseBLE.link w) 303) as [l1|] eqn:Hmtu.
  - rewrite (startStreamingData_run d [] w l1 Hmtu).
    change (UseBLE.make_chunks []) with (@nil (list Z)).
    cbn [map acked_writes link_after firstn length Nat.eqb chunks_events
         hook_after].
    destruct (write_to l1 _) as [l3|];
      cbn [snd UseBLE.trace UseBLE.count UseBLE.hook];
      eexists; (split; [rewrite <- !app_assoc; reflexivity|]);
      (split; [reflexivity|]); cbn;
      (split; [intros Hin; repeat (destruct Hin as [Hin|Hin]; [discriminate|]);
               exact Hin|]);
      (split; [reflexivity|]); split; reflexivity.
  - rewrite (startStreamingData_no_mtu d [] w Hmtu).
    cbn [snd UseBLE.trace UseBLE.count UseBLE.hook].
    eexists. split; [reflexivity|]. split; [reflexivity|]. cbn.
    split; [intros [Hin|[]]; discriminate|].
    split; [reflexivity|]. split; reflexivity.
Qed.

(** ** The progress percentage in binary64

    [progress_of] divides and multiplies in binary64.  The lemmas below
    describe [SpecFloat]'s rounding for positive numbers in the normal
    range: the result of an operation is the exact result rounded to 53
    significant bits, ties to even ([rounds]), and so the operations are
    monotone.  Values are compared after scaling by [2^1074], which makes
    every finite binary64 number an integer. *)

Section Binary64.
Import JS UseBLE.
Local Open Scope Z_scope.

Lemma fexp_eq e : fexp prec emax e = Z.max (e - 53) (-1074).
Proof. reflexivity. Qed.

Lemma digits2_pos_spec (p : positive) :
  2 ^ (Zpos (digits2_pos p) - 1) <= Zpos p < 2 ^ Zpos (digits2_pos p).
Proof.
  induction p as [p IH|p IH|]; cbn [digits2_pos].
  - rewrite Pos2Z.inj_succ.
    replace (Z.succ (Zpos (digits2_pos p)) - 1) with (Z.succ (Zpos (digits2_pos p) - 1)) by lia.
    rewrite !Z.pow_succ_r by lia. lia.
  - rewrite Pos2Z.inj_succ.
    replace (Z.succ (Zpos (digits2_pos p)) - 1) with (Z.succ (Zpos (digits2_pos p) - 1)) by lia.
    rewrite !Z.pow_succ_r by lia. lia.
  - cbn. lia.
Qed.

(** digits are determined by the binade *)
Lemma Zdigits2_unique (q d : Z) :
  0 < d -> 2 ^ (d - 1) <= q < 2 ^ d -> Zdigits2 q = d.
Proof.
  intros Hd Hq.
  assert (0 < q) by (pose proof (Z.pow_pos_nonneg 2 (d - 1)); lia).
  destruct q as [|p|p]; try lia. cbn [Zdigits2].
  pose proof (digits2_pos_spec p) as Hp.
  set (d' := Zpos (digits2_pos p)) in *.
  destruct (Z.lt_trichotomy d' d) as [Hlt|[Heq|Hgt]]; [|exact Heq|].
  - assert (2 ^ d' <= 2 ^ (d - 1)) by (apply Z.pow_le_mono_r; lia). lia.
  - assert (2 ^ d <= 2 ^ (d' - 1)) by (apply Z.pow_le_mono_r; lia). lia.
Qed.

Definition loc_of (r D : Z) : location :=
  if r =? 0 then loc_Exact else loc_Inexact (2 * r ?= D).

Definition located (mrs : shr_record) (T D : Z) : Prop :=
  shr_m mrs = T / D /\ loc_of_shr_record mrs = loc_of (T mod D) D.

Lemma shr_1_nonneg (m : Z) (r s : bool) :
  0 <= m ->
  shr_1 (Build_shr_record m r s) = Build_shr_record (m / 2) (Z.odd m) (r || s).
Proof.
  intros Hm. destruct m as [|p|p]; [reflexivity| |lia].
  destruct p as [p|p|]; cbn [shr_1 Z.odd]; f_equal; try lia.
Qed.

Lemma located_step (mrs : shr_record) (T D : Z) :
  0 <= T -> 0 < D -> located mrs T D -> located (shr_1 mrs) T (2 * D).
Proof.
  intros HT HD [Hm Hl]. destruct mrs as [m r s]. cbn [shr_m] in Hm.
  assert (Hm0 : 0 <= m) by (subst m; apply Z.div_pos; lia).
  rewrite shr_1_nonneg by exact Hm0.
  assert (Hq : T / (2 * D) = m / 2).
  { subst m. rewrite Z.mul_comm, Z.div_div by lia. reflexivity. }
  assert (Hr : T mod (2 * D) = T mod D + D * (m mod 2)).
  { subst m. rewrite Z.mul_comm. rewrite Z.rem_mul_r by lia. reflexivity. }
  split; cbn [shr_m]; [now rewrite Hq|].
  rewrite Hr. unfold loc_of in *.
  assert (Hodd : m mod 2 = if Z.odd m then 1 else 0).
  { rewrite Zmod_odd. reflexivity. }
  pose proof (Z.mod_pos_bound T D HD) as Hb.
  rewrite Hodd.
  destruct (Z.odd m); cbn [loc_of_shr_record] in *.
  - destruct (Z.eqb_spec (T mod D) 0) as [H0|H0].
    + rewrite H0. destruct r, s; try discriminate.
      destruct (Z.eqb_spec (0 + D * 1) 0); [lia|].
      assert (Hc : (2 * (0 + D * 1) ?= 2 * D) = Eq) by (apply Z.compare_eq_iff; lia).
      now rewrite Hc.
    + destruct (Z.eqb_spec (T mod D + D * 1) 0); [lia|].
      assert (Hc : (2 * (T mod D + D * 1) ?= 2 * D) = Gt) by (apply Z.compare_gt_iff; lia).
      rewrite Hc. destruct r, s; try discriminate; reflexivity.
  - destruct (Z.eqb_spec (T mod D) 0) as [H0|H0].
    + rewrite H0. destruct r, s; try discriminate.
      replace (0 + D * 0) with 0 by lia. reflexivity.
    + destruct (Z.eqb_spec (T mod D + D * 0) 0); [lia|].
      assert (Hc : (2 * (T mod D + D * 0) ?= 2 * D) = Lt) by (apply Z.compare_lt_iff; lia).
      rewrite Hc. destruct r, s; try discriminate; reflexivity.
Qed.

Lemma located_iter (p : positive) :
  forall (mrs : shr_record) (T D : Z),
    0 <= T -> 0 < D -> located mrs T D ->
    located (iter_pos shr_1 p mrs) T (D * 2 ^ Zpos p).
Proof.
  induction p as [p IH|p IH|]; intros mrs T D HT HD Hloc; cbn [iter_pos].
  - replace (D * 2 ^ Zpos p~1) with (((2 * D) * 2 ^ Zpos p) * 2 ^ Zpos p).
    + apply IH; [exact HT| |]. { pose proof (Z.pow_pos_nonneg 2 (Zpos p)); nia. }
      apply IH; [exact HT|lia|]. now apply located_step.
    + rewrite (Pos2Z.inj_xI p).
      replace (2 * Zpos p + 1) with (Zpos p + Zpos p + 1) by lia.
      rewrite !Z.pow_add_r by lia. ring.
  - replace (D * 2 ^ Zpos p~0) with ((D * 2 ^ Zpos p) * 2 ^ Zpos p).
    + apply IH; [exact HT| |]. { pose proof (Z.pow_pos_nonneg 2 (Zpos p)); nia. }
      now apply IH.
    + rewrite (Pos2Z.inj_xO p).
      replace (2 * Zpos p) with (Zpos p + Zpos p) by lia.
      rewrite !Z.pow_add_r by lia. ring.
  - replace (D * 2 ^ 1) with (2 * D) by lia. now apply located_step.
Qed.

Lemma located_of_loc (T D : Z) :
  located (shr_record_of_loc (T / D) (loc_of (T mod D) D)) T D.
Proof.
  split.
  - now destruct (loc_of (T mod D) D) as [|[]].
  - now destruct (loc_of (T mod D) D) as [|[]].
Qed.

Definition RNE (T D : Z) : Z := round_nearest_even (T / D) (loc_of (T mod D) D).

Lemma round_located (mrs : shr_record) (T D : Z) :
  located mrs T D ->
  round_nearest_even (shr_m mrs) (loc_of_shr_record mrs) = RNE T D.
Proof. intros [-> ->]. reflexivity. Qed.

Lemma RNE_bounds (T D : Z) : T / D <= RNE T D <= T / D + 1.
Proof.
  unfold RNE, round_nearest_even.
  destruct (loc_of (T mod D) D) as [|[]]; try lia.
  destruct (Z.even (T / D)); lia.
Qed.

Lemma shr_fexp_located (T D ex : Z) :
  0 <= T -> 0 < D ->
  let q := T / D in
  let n := Zdigits2 q - 53 in
  0 <= n -> -1074 <= ex + n ->
  exists mrs,
    shr_fexp prec emax q ex (loc_of (T mod D) D) = (mrs, ex + n)
    /\ located mrs T (D * 2 ^ n).
Proof.
  intros HT HD q n Hn Hex. unfold shr_fexp. rewrite fexp_eq.
  replace (Z.max (Zdigits2 q + ex - 53) (-1074) - ex) with n by (subst n; lia).
  pose proof (located_of_loc T D) as Hloc. fold q in Hloc.
  unfold shr. destruct n as [|p|p] eqn:En; [| |lia].
  - eexists. split; [f_equal; lia|]. now rewrite Z.pow_0_r, Z.mul_1_r.
  - eexists. split; [reflexivity|]. now apply located_iter.
Qed.

Lemma binary_round_aux_spec (T D ex : Z) :
  0 < D ->
  let q := T / D in
  let n := Zdigits2 q - 53 in
  let m0 := RNE T (D * 2 ^ n) in
  2 ^ 52 <= q ->
  -1074 <= ex + n -> ex + n + 1 <= 971 ->
  0 <= n
  /\ 2 ^ 52 * (D * 2 ^ n) <= T < 2 ^ 53 * (D * 2 ^ n)
  /\ 2 ^ 52 <= m0 <= 2 ^ 53
  /\ binary_round_aux prec emax false q ex (loc_of (T mod D) D)
     = if m0 <? 2 ^ 53
       then S754_finite false (Z.to_pos m0) (ex + n)
       else S754_finite false (Z.to_pos (2 ^ 52)) (ex + n + 1).
Proof.
  intros HD q n m0 Hq Hlo Hhi.
  assert (HT : 0 <= T).
  { destruct (Z.le_gt_cases 0 T) as [Hok|Hneg]; [exact Hok|].
    assert (T / D < 0) by (apply Z.div_lt_upper_bound; lia). fold q in H.
    change (2 ^ 52) with 4503599627370496 in Hq. lia. }
  assert (Hq0 : 0 < q) by (change (2 ^ 52) with 4503599627370496 in Hq; lia).
  set (d := Zdigits2 q) in *.
  assert (Hd : 2 ^ (d - 1) <= q < 2 ^ d /\ 0 < d).
  { subst d. destruct q as [|p|p]; try lia. cbn [Zdigits2].
    split; [apply digits2_pos_spec|lia]. }
  destruct Hd as [Hd Hdpos].
  assert (Hn : 0 <= n).
  { subst n. destruct (Z.le_gt_cases 53 d) as [Hok|Hsmall]; [lia|].
    assert (2 ^ d <= 2 ^ 52) by (apply Z.pow_le_mono_r; lia). lia. }
  assert (H2n : 0 < 2 ^ n) by (apply Z.pow_pos_nonneg; lia).
  assert (Hpow : 2 ^ (d - 1) = 2 ^ 52 * 2 ^ n /\ 2 ^ d = 2 ^ 53 * 2 ^ n).
  { subst n. split.
    - replace (d - 1) with (52 + (d - 53)) by lia. now rewrite Z.pow_add_r by lia.
    - replace d with (53 + (d - 53)) at 1 by lia. now rewrite Z.pow_add_r by lia. }
  destruct Hpow as [Hp1 Hp2]. rewrite Hp1, Hp2 in Hd.
  assert (Hquot : T / (D * 2 ^ n) = q / 2 ^ n).
  { subst q. now rewrite Z.div_div by lia. }
  assert (Hqn : 2 ^ 52 <= q / 2 ^ n < 2 ^ 53).
  { split.
    - apply Z.div_le_lower_bound; lia.
    - apply Z.div_lt_upper_bound; lia. }
  assert (HTb : 2 ^ 52 * (D * 2 ^ n) <= T < 2 ^ 53 * (D * 2 ^ n)).
  { assert (HDn : 0 < D * 2 ^ n) by nia.
    pose proof (Z.mul_div_le T (D * 2 ^ n) HDn) as H1.
    pose proof (Z.mul_succ_div_gt T (D * 2 ^ n) HDn) as H2.
    rewrite Hquot in H1, H2. nia. }
  assert (Hm0 : 2 ^ 52 <= m0 <= 2 ^ 53).
  { pose proof (RNE_bounds T (D * 2 ^ n)) as Hb. fold m0 in Hb.
    rewrite Hquot in Hb. lia. }
  split; [exact Hn|]. split; [exact HTb|]. split; [exact Hm0|].
  unfold binary_round_aux.
  destruct (shr_fexp_located T D ex HT HD Hn Hlo) as (mrs & Hshr & Hloc).
  change (Zdigits2 (T / D) - 53) with n in Hshr, Hloc.
  change (T / D) with q in Hshr. rewrite Hshr.
  rewrite (round_located mrs T (D * 2 ^ n) Hloc). fold m0.
  destruct (Z.ltb_spec m0 (2 ^ 53)) as [Hlt|Hge].
  - assert (Hdig : Zdigits2 m0 = 53).
    { apply Zdigits2_unique; [lia|]. change (53 - 1) with 52. lia. }
    unfold shr_fexp. rewrite Hdig, fexp_eq.
    replace (Z.max (53 + (ex + n) - 53) (-1074) - (ex + n)) with 0 by lia.
    cbn [shr shr_record_of_loc shr_m].
    change (2 ^ 52) with 4503599627370496 in Hm0.
    destruct m0 as [|pm|pm]; try lia.
    cbn [Z.to_pos]. unfold prec, emax.
    destruct (Z.leb_spec (ex + n) (1024 - 53)); [reflexivity|lia].
  - assert (Hm53 : m0 = 2 ^ 53) by lia. rewrite Hm53.
    unfold shr_fexp. rewrite fexp_eq.
    change (Zdigits2 (2 ^ 53)) with 54.
    replace (Z.max (54 + (ex + n) - 53) (-1074) - (ex + n)) with 1 by lia.
    cbn.
    destruct (Z.leb_spec (ex + n + 1) 971); [reflexivity|lia].
Qed.

Lemma new_location_spec (D r : Z) :
  0 < D -> 0 <= r < D -> new_location D r = loc_of r D.
Proof.
  intros HD Hr. unfold new_location, new_location_even, new_location_odd, loc_of.
  destruct (Z.even D) eqn:Hev; [reflexivity|].
  destruct (Z.eqb_spec r 0); [reflexivity|]. f_equal.
  assert (Hodd : Z.odd D = true) by (rewrite <- Z.negb_even, Hev; reflexivity).
  apply Z.odd_spec in Hodd. destruct Hodd as [k Hk].
  destruct (Z.compare_spec (2 * r + 1) D); destruct (Z.compare_spec (2 * r) D);
    try reflexivity; lia.
Qed.

Lemma RNE_mono (T1 E1 T2 E2 : Z) :
  0 < E1 -> 0 < E2 -> T1 * E2 <= T2 * E1 -> RNE T1 E1 <= RNE T2 E2.
Proof.
  intros HE1 HE2 Hle.
  pose proof (Z.div_mod T1 E1 ltac:(lia)) as Hd1.
  pose proof (Z.div_mod T2 E2 ltac:(lia)) as Hd2.
  pose proof (Z.mod_pos_bound T1 E1 HE1) as Hb1.
  pose proof (Z.mod_pos_bound T2 E2 HE2) as Hb2.
  pose proof (RNE_bounds T1 E1) as HR1.
  pose proof (RNE_bounds T2 E2) as HR2.
  set (q1 := T1 / E1) in *. set (r1 := T1 mod E1) in *.
  set (q2 := T2 / E2) in *. set (r2 := T2 mod E2) in *.
  assert (Hq : q1 <= q2).
  { destruct (Z.le_gt_cases q1 q2) as [Hok|Hgt]; [exact Hok|]. exfalso.
    assert (E1 * E2 * (q2 + 1) <= E1 * E2 * q1)
      by (apply Z.mul_le_mono_nonneg_l; nia).
    assert (r2 * E1 < E2 * E1) by (apply Z.mul_lt_mono_pos_r; lia).
    assert (0 <= r1 * E2) by (apply Z.mul_nonneg_nonneg; lia).
    rewrite Hd1, Hd2 in Hle. lia. }
  destruct (Z.eq_dec q1 q2) as [Heq|Hne]; [|lia].
  assert (Hr : r1 * E2 <= r2 * E1).
  { rewrite Hd1, Hd2, Heq in Hle. lia. }
  assert (F1 : 2 * r2 <= E2 -> 2 * r1 <= E1).
  { intros Hh. apply (Z.mul_le_mono_pos_r _ _ E2); [exact HE2|].
    apply Z.le_trans with (2 * (r2 * E1)); [lia|].
    replace (2 * (r2 * E1)) with (2 * r2 * E1) by ring.
    rewrite (Z.mul_comm E1 E2). apply Z.mul_le_mono_nonneg_r; lia. }
  assert (F2 : 2 * r2 < E2 -> 2 * r1 < E1).
  { intros Hh. apply (Z.mul_lt_mono_pos_r E2); [exact HE2|].
    apply Z.le_lt_trans with (2 * (r2 * E1)); [lia|].
    replace (2 * (r2 * E1)) with (2 * r2 * E1) by ring.
    rewrite (Z.mul_comm E1 E2). apply Z.mul_lt_mono_pos_r; lia. }
  assert (F3 : r2 = 0 -> r1 = 0).
  { intros Hh. subst r2. rewrite Hh in Hr.
    destruct (Z.eq_dec r1 0) as [|Hnz]; [assumption|].
    assert (0 < r1 * E2) by (apply Z.mul_pos_pos; lia). lia. }
  unfold RNE, round_nearest_even, loc_of. fold q1 q2 r1 r2. rewrite <- Heq.
  destruct (Z.eqb_spec r1 0) as [H10|H10]; destruct (Z.eqb_spec r2 0) as [H20|H20].
  - lia.
  - destruct (Z.compare_spec (2 * r2) E2); destruct (Z.even q1); lia.
  - exfalso. auto.
  - destruct (Z.compare_spec (2 * r1) E1) as [Hc1|Hc1|Hc1];
      destruct (Z.compare_spec (2 * r2) E2) as [Hc2|Hc2|Hc2];
      destruct (Z.even q1); lia.
Qed.

Lemma RNE_exact (T : Z) : RNE T 1 = T.
Proof.
  unfold RNE. rewrite Z.div_1_r, Z.mod_1_r. reflexivity.
Qed.

(** [rounds N D v]: the number [v] is the rational [N / D] rounded to the
    nearest multiple of [2^s], ties to even, where [s] is such that
    [N / D] lies between [2^52 * 2^s] and [2^53 * 2^s]. *)
Definition rounds (N D v : Z) : Prop :=
  exists s T E,
    0 <= s /\ 0 < E /\ N * E = T * D * 2 ^ s
    /\ 2 ^ 52 * E <= T < 2 ^ 53 * E
    /\ v = RNE T E * 2 ^ s.

Lemma rounds_mono (N1 D1 v1 N2 D2 v2 : Z) :
  0 < D1 -> 0 < D2 ->
  rounds N1 D1 v1 -> rounds N2 D2 v2 ->
  N1 * D2 <= N2 * D1 -> v1 <= v2.
Proof.
  intros HD1 HD2 (s1 & T1 & E1 & Hs1 & HE1 & HN1 & HT1 & ->)
         (s2 & T2 & E2 & Hs2 & HE2 & HN2 & HT2 & ->) Hle.
  change (2 ^ 52) with 4503599627370496 in *.
  change (2 ^ 53) with 9007199254740992 in *.
  set (a1 := 2 ^ s1) in *. set (a2 := 2 ^ s2) in *.
  assert (Ha1 : 0 < a1) by (apply Z.pow_pos_nonneg; lia).
  assert (Ha2 : 0 < a2) by (apply Z.pow_pos_nonneg; lia).
  assert (HA : T1 * a1 * E2 <= T2 * a2 * E1).
  { apply (Z.mul_le_mono_pos_r _ _ (D1 * D2)); [nia|].
    replace (T1 * a1 * E2 * (D1 * D2)) with ((T1 * D1 * a1) * (D2 * E2)) by ring.
    replace (T2 * a2 * E1 * (D1 * D2)) with ((T2 * D2 * a2) * (D1 * E1)) by ring.
    rewrite <- HN1, <- HN2.
    replace (N1 * E1 * (D2 * E2)) with ((N1 * D2) * (E1 * E2)) by ring.
    replace (N2 * E2 * (D1 * E1)) with ((N2 * D1) * (E1 * E2)) by ring.
    apply Z.mul_le_mono_nonneg_r; [nia|exact Hle]. }
  pose proof (RNE_bounds T1 E1) as HR1.
  pose proof (RNE_bounds T2 E2) as HR2.
  assert (Hq1 : 4503599627370496 <= T1 / E1 < 9007199254740992).
  { split; [apply Z.div_le_lower_bound; lia | apply Z.div_lt_upper_bound; lia]. }
  assert (Hq2 : 4503599627370496 <= T2 / E2 < 9007199254740992).
  { split; [apply Z.div_le_lower_bound; lia | apply Z.div_lt_upper_bound; lia]. }
  destruct (Z.lt_trichotomy s1 s2) as [Hlt|[Heq|Hgt]].
  - assert (Hstep : 2 * a1 <= a2).
    { subst a1 a2. replace s2 with (s1 + (s2 - s1)) by lia.
      rewrite Z.pow_add_r by lia.
      assert (2 ^ 1 <= 2 ^ (s2 - s1)) by (apply Z.pow_le_mono_r; lia).
      change (2 ^ 1) with 2 in H. nia. }
    nia.
  - assert (a1 = a2) by (subst a1 a2; now rewrite Heq).
    assert (T1 * E2 <= T2 * E1).
    { apply (Z.mul_le_mono_pos_r _ _ a1); [exact Ha1|].
      replace (T1 * E2 * a1) with (T1 * a1 * E2) by ring.
      replace (T2 * E1 * a1) with (T2 * a1 * E1) by ring.
      rewrite H at 2. exact HA. }
    pose proof (RNE_mono T1 E1 T2 E2 HE1 HE2 H0). subst a2. nia.
  - exfalso.
    assert (Hstep : 2 * a2 <= a1).
    { subst a1 a2. replace s1 with (s2 + (s1 - s2)) by lia.
      rewrite Z.pow_add_r by lia.
      assert (2 ^ 1 <= 2 ^ (s1 - s2)) by (apply Z.pow_le_mono_r; lia).
      change (2 ^ 1) with 2 in H. nia. }
    assert (H1 : 4503599627370496 * E1 * (2 * a2) * E2 <= T1 * a1 * E2).
    { apply Z.mul_le_mono_nonneg_r; [lia|].
      apply Z.mul_le_mono_nonneg; nia. }
    assert (H2 : T2 * a2 * E1 < 9007199254740992 * E2 * a2 * E1).
    { apply Z.mul_lt_mono_pos_r; [lia|].
      apply Z.mul_lt_mono_pos_r; lia. }
    nia.
Qed.

Lemma rounds_ratio (N D N' D' v : Z) :
  0 < D -> N' * D = N * D' -> rounds N D v -> rounds N' D' v.
Proof.
  intros HD Hratio (s & T & E & Hs & HE & HN & HT & Hv).
  exists s, T, E. repeat split; try assumption; try lia.
  apply (Z.mul_cancel_r _ _ D); [lia|].
  replace (N' * E * D) with (N' * D * E) by ring.
  rewrite Hratio.
  replace (N * D' * E) with (N * E * D') by ring.
  rewrite HN. ring.
Qed.

Lemma rounds_representable (M s : Z) :
  2 ^ 52 <= M < 2 ^ 53 -> 0 <= s -> rounds (M * 2 ^ s) 1 (M * 2 ^ s).
Proof.
  intros HM Hs. exists s, M, 1. repeat split; try lia.
  now rewrite RNE_exact.
Qed.

(** The value of a positive finite number, scaled by [2^1074]. *)
Definition scaled (m : positive) (e : Z) : Z := Zpos m * 2 ^ (e + 1074).

Lemma Zdigits2_bounds (q : Z) :
  0 < q -> 2 ^ (Zdigits2 q - 1) <= q < 2 ^ Zdigits2 q /\ 0 < Zdigits2 q.
Proof.
  intros Hq. destruct q as [|p|p]; try lia. cbn [Zdigits2].
  split; [apply digits2_pos_spec|lia].
Qed.

Lemma Zdigits2_between (q lo hi : Z) :
  0 <= lo -> 2 ^ lo <= q < 2 ^ hi -> lo + 1 <= Zdigits2 q <= hi.
Proof.
  intros Hlo Hq.
  assert (0 < q) by (pose proof (Z.pow_pos_nonneg 2 lo); lia).
  destruct (Zdigits2_bounds q H) as [Hb Hpos].
  split.
  - destruct (Z.le_gt_cases (lo + 1) (Zdigits2 q)) as [|Hlt]; [assumption|].
    assert (2 ^ Zdigits2 q <= 2 ^ lo) by (apply Z.pow_le_mono_r; lia). lia.
  - destruct (Z.le_gt_cases (Zdigits2 q) hi) as [|Hgt]; [assumption|].
    assert (2 ^ hi <= 2 ^ (Zdigits2 q - 1)) by (apply Z.pow_le_mono_r; lia). lia.
Qed.

Lemma round_aux_rounds (T D ex : Z) :
  0 < D ->
  let q := T / D in
  let n := Zdigits2 q - 53 in
  2 ^ 52 <= q -> -1074 <= ex -> ex + n + 1 <= 971 ->
  exists m e,
    binary_round_aux prec emax false q ex (loc_of (T mod D) D)
    = S754_finite false m e
    /\ 2 ^ 52 <= Zpos m < 2 ^ 53
    /\ ex + n <= e <= ex + n + 1
    /\ rounds (T * 2 ^ (ex + 1074)) D (scaled m e).
Proof.
  intros HD q n Hq Hex Hhi.
  assert (Hn0 : 0 <= n).
  { subst n. pose proof (Zdigits2_between q 52 (Zdigits2 q) ltac:(lia)) as Hb.
    destruct (Zdigits2_bounds q) as [Hb' _];
      [change (2 ^ 52) with 4503599627370496 in Hq; lia|].
    lia. }
  destruct (binary_round_aux_spec T D ex HD Hq ltac:(fold q; fold n; lia) Hhi)
    as (_ & HT & Hm0 & Hrun).
  fold q n in HT, Hm0, Hrun. fold q. rewrite Hrun.
  set (m0 := RNE T (D * 2 ^ n)) in *.
  assert (Hround : rounds (T * 2 ^ (ex + 1074)) D (m0 * 2 ^ (ex + n + 1074))).
  { exists (ex + n + 1074), T, (D * 2 ^ n).
    assert (0 < 2 ^ n) by (apply Z.pow_pos_nonneg; lia).
    repeat split; try lia; try nia.
    replace (ex + n + 1074) with ((ex + 1074) + n) by lia.
    rewrite (Z.pow_add_r 2 (ex + 1074) n) by lia. ring. }
  destruct (Z.ltb_spec m0 (2 ^ 53)) as [Hlt|Hge].
  - exists (Z.to_pos m0), (ex + n).
    assert (Hpos : Zpos (Z.to_pos m0) = m0).
    { apply Z2Pos.id. change (2 ^ 52) with 4503599627370496 in Hm0. lia. }
    unfold scaled. rewrite Hpos. repeat split; try lia. exact Hround.
  - exists (Z.to_pos (2 ^ 52)), (ex + n + 1).
    change (Zpos (Z.to_pos (2 ^ 52))) with (2 ^ 52).
    repeat split; try lia; try reflexivity.
    unfold scaled. change (Zpos (Z.to_pos (2 ^ 52))) with (2 ^ 52).
    replace (2 ^ 52 * 2 ^ (ex + n + 1 + 1074)) with (m0 * 2 ^ (ex + n + 1074));
      [exact Hround|].
    replace m0 with (2 ^ 53) by lia.
    replace (ex + n + 1 + 1074) with (1 + (ex + n + 1074)) by lia.
    rewrite (Z.pow_add_r 2 1) by lia. change (2 ^ 53) with (2 ^ 52 * 2 ^ 1). ring.
Qed.

Lemma pow2_sum3 (a b c d e : Z) :
  0 <= a -> 0 <= b -> 0 <= c -> 0 <= d -> 0 <= e ->
  a + b = c + d + e -> 2 ^ a * 2 ^ b = 2 ^ c * 2 ^ d * 2 ^ e.
Proof.
  intros Ha Hb Hc Hd He Hsum. rewrite <- !Z.pow_add_r by lia. f_equal. lia.
Qed.

Lemma iter_xO (k p : positive) : Zpos (Pos.iter xO p k) = Zpos p * 2 ^ Zpos k.
Proof.
  induction k as [|k IH] using Pos.peano_ind.
  - cbn. lia.
  - rewrite Pos.iter_succ, Pos2Z.inj_xO, IH, Pos2Z.inj_succ, Z.pow_succ_r by lia.
    ring.
Qed.

(** An integer below [2^53] is a binary64 number. *)
Lemma of_Z_spec (z : Z) :
  0 < z < 2 ^ 53 ->
  exists m e,
    of_Z z = S754_finite false m e
    /\ 2 ^ 52 <= Zpos m < 2 ^ 53
    /\ -52 <= e <= 0
    /\ scaled m e = z * 2 ^ 1074.
Proof.
  intros Hz. destruct z as [|p|p]; try lia.
  unfold of_Z, binary_normalize, binary_round.
  destruct (Zdigits2_bounds (Zpos p) ltac:(lia)) as [Hb Hd0].
  pose proof (Zdigits2_between (Zpos p) 0 53 ltac:(lia) ltac:(lia)) as Hd.
  cbn [Zdigits2] in Hb, Hd0, Hd. set (d := Zpos (digits2_pos p)) in *.
  rewrite fexp_eq.
  replace (Z.max (d + 0 - 53) (-1074)) with (d - 53) by lia.
  assert (Hal : exists mz, shl_align p 0 (d - 53) = (mz, d - 53)
                           /\ Zpos mz = Zpos p * 2 ^ (53 - d)).
  { unfold shl_align. destruct (d - 53 - 0) as [|k|k] eqn:Ek; try lia.
    - exists p. split; [f_equal; lia|].
      replace (53 - d) with 0 by lia. lia.
    - exists (Pos.iter xO p k). split; [reflexivity|].
      rewrite iter_xO. f_equal. f_equal. lia. }
  destruct Hal as (mz & -> & Hmz).
  assert (Hm : 2 ^ 52 <= Zpos mz < 2 ^ 53).
  { rewrite Hmz.
    assert (H52 : 2 ^ 52 = 2 ^ (d - 1) * 2 ^ (53 - d)).
    { rewrite <- Z.pow_add_r by lia. f_equal. lia. }
    assert (H53 : 2 ^ 53 = 2 ^ d * 2 ^ (53 - d)).
    { rewrite <- Z.pow_add_r by lia. f_equal. lia. }
    rewrite H52, H53.
    assert (0 < 2 ^ (53 - d)) by (apply Z.pow_pos_nonneg; lia).
    split; [apply Z.mul_le_mono_nonneg_r; lia | apply Z.mul_lt_mono_pos_r; lia]. }
  assert (Hdig : Zdigits2 (Zpos mz) = 53).
  { apply Zdigits2_unique; [lia|]. exact Hm. }
  pose proof (binary_round_aux_spec (Zpos mz) 1 (d - 53) ltac:(lia)) as Hspec.
  cbv zeta in Hspec. rewrite Z.div_1_r, Z.mod_1_r, Hdig in Hspec.
  change (53 - 53) with 0 in Hspec.
  rewrite Z.pow_0_r, Z.mul_1_r, RNE_exact in Hspec.
  destruct (Hspec ltac:(lia) ltac:(lia) ltac:(lia)) as (_ & _ & _ & Hrun).
  change (loc_of 0 1) with loc_Exact in Hrun. rewrite Hrun.
  destruct (Z.ltb_spec (Zpos mz) (2 ^ 53)); [|lia].
  exists mz, (d - 53 + 0). repeat split; try lia.
  unfold scaled. rewrite Hmz.
  replace (1074) with ((53 - d) + (d - 53 + 0 + 1074)) at 2 by lia.
  rewrite (Z.pow_add_r 2 (53 - d)) by lia. ring.
Qed.

Lemma div_spec (ma mb : positive) (ea eb : Z) :
  2 ^ 52 <= Zpos ma < 2 ^ 53 -> 2 ^ 52 <= Zpos mb < 2 ^ 53 ->
  -400 <= ea <= 400 -> -400 <= eb <= 400 ->
  exists m e,
    div (S754_finite false ma ea) (S754_finite false mb eb)
    = S754_finite false m e
    /\ 2 ^ 52 <= Zpos m < 2 ^ 53
    /\ ea - eb - 53 <= e <= ea - eb - 51
    /\ rounds (scaled ma ea * 2 ^ 1074) (scaled mb eb) (scaled m e).
Proof.
  intros Hma Hmb Hea Heb.
  unfold div, SFdiv, SFdiv_core_binary. cbn [xorb].
  rewrite (Zdigits2_unique (Zpos ma) 53 ltac:(lia) Hma).
  rewrite (Zdigits2_unique (Zpos mb) 53 ltac:(lia) Hmb).
  rewrite fexp_eq.
  replace (Z.min (Z.max (53 + ea - (53 + eb) - 53) (-1074)) (ea - eb))
    with (ea - eb - 53) by lia.
  replace (ea - eb - (ea - eb - 53)) with 53 by lia.
  rewrite Z.shiftl_mul_pow2 by lia.
  set (T := Zpos ma * 2 ^ 53). set (D := Zpos mb).
  assert (HD : 0 < D) by (subst D; lia).
  pose proof (Z.div_eucl_eq T D ltac:(lia)) as Heucl.
  pose proof (Z.mod_pos_bound T D HD) as Hrem.
  unfold Z.modulo in Hrem. unfold Z.div, Z.modulo in *.
  destruct (Z.div_eucl T D) as [q r] eqn:Hqr.
  assert (Hq : q = T / D) by (unfold Z.div; now rewrite Hqr).
  assert (Hr : r = T mod D) by (unfold Z.modulo; now rewrite Hqr).
  rewrite new_location_spec by lia. rewrite Hq, Hr.
  change (2 ^ 52) with 4503599627370496 in *.
  change (2 ^ 53) with 9007199254740992 in *.
  assert (Hqb : 2 ^ 52 <= T / D < 2 ^ 54).
  { change (2 ^ 52) with 4503599627370496. change (2 ^ 54) with 18014398509481984.
    split.
    - apply Z.div_le_lower_bound; [lia|]. subst T D. nia.
    - apply Z.div_lt_upper_bound; [lia|]. subst T D. nia. }
  pose proof (Zdigits2_between (T / D) 52 54 ltac:(lia) Hqb) as Hdig.
  destruct (round_aux_rounds T D (ea - eb - 53) HD ltac:(lia) ltac:(lia) ltac:(lia))
    as (m & e & Hrun & Hm & He & Hround).
  exists m, e. split; [exact Hrun|]. split; [exact Hm|]. split; [lia|].
  refine (rounds_ratio _ _ _ _ _ HD _ Hround).
  unfold scaled. subst T D.
  pose proof (pow2_sum3 (ea + 1074) 1074 53 (ea - eb - 53 + 1074) (eb + 1074)
                ltac:(lia) ltac:(lia) ltac:(lia) ltac:(lia) ltac:(lia) ltac:(lia))
    as Hp.
  change (2 ^ 53) with 9007199254740992 in Hp.
  set (A := 2 ^ (ea + 1074)) in *. set (B := 2 ^ 1074) in *.
  set (U := 2 ^ (ea - eb - 53 + 1074)) in *. set (W := 2 ^ (eb + 1074)) in *.
  replace (Zpos ma * A * B * Zpos mb) with (Zpos ma * Zpos mb * (A * B)) by ring.
  rewrite Hp. ring.
Qed.

Lemma mul_spec (ma mb : positive) (ea eb : Z) :
  2 ^ 52 <= Zpos ma < 2 ^ 53 -> 2 ^ 52 <= Zpos mb < 2 ^ 53 ->
  -400 <= ea <= 400 -> -400 <= eb <= 400 ->
  exists m e,
    mul (S754_finite false ma ea) (S754_finite false mb eb)
    = S754_finite false m e
    /\ 2 ^ 52 <= Zpos m < 2 ^ 53
    /\ ea + eb + 52 <= e <= ea + eb + 54
    /\ rounds (scaled ma ea * scaled mb eb) (2 ^ 1074) (scaled m e).
Proof.
  intros Hma Hmb Hea Heb.
  unfold mul, SFmul. cbn [xorb].
  set (T := Zpos (ma * mb)).
  assert (HT : T = Zpos ma * Zpos mb) by reflexivity.
  assert (HTb : 2 ^ 104 <= T < 2 ^ 106).
  { rewrite HT.
    change (2 ^ 104) with (2 ^ 52 * 2 ^ 52). change (2 ^ 106) with (2 ^ 53 * 2 ^ 53).
    split; [apply Z.mul_le_mono_nonneg; lia | apply Z.mul_lt_mono_nonneg; lia]. }
  pose proof (Zdigits2_between T 104 106 ltac:(lia) HTb) as Hdig.
  pose proof (round_aux_rounds T 1 (ea + eb) ltac:(lia)) as Hspec.
  cbv zeta in Hspec. rewrite Z.div_1_r, Z.mod_1_r in Hspec.
  change (loc_of 0 1) with loc_Exact in Hspec.
  destruct Hspec as (m & e & Hrun & Hm & He & Hround).
  { assert (2 ^ 52 <= 2 ^ 104) by (apply Z.pow_le_mono_r; lia). lia. }
  { lia. }
  { lia. }
  exists m, e. split; [exact Hrun|]. split; [exact Hm|]. split; [lia|].
  refine (rounds_ratio _ _ _ _ _ Z.lt_0_1 _ Hround).
  unfold scaled. rewrite HT.
  pose proof (pow2_sum3 (ea + 1074) (eb + 1074) 0 (ea + eb + 1074) 1074
                ltac:(lia) ltac:(lia) ltac:(lia) ltac:(lia) ltac:(lia) ltac:(lia))
    as Hp.
  rewrite Z.pow_0_r in Hp.
  set (A := 2 ^ (ea + 1074)) in *. set (B := 2 ^ (eb + 1074)) in *.
  set (U := 2 ^ (ea + eb + 1074)) in *. set (W := 2 ^ 1074) in *.
  replace (Zpos ma * A * (Zpos mb * B) * 1) with (Zpos ma * Zpos mb * (A * B)) by ring.
  rewrite Hp. ring.
Qed.

(** [Math.round] in terms of the scaled value. *)
Lemma round_half_up_scaled (m : positive) (e : Z) :
  -1074 <= e ->
  round_half_up_dyadic (Zpos m) e = (2 * scaled m e + 2 ^ 1074) / 2 ^ 1075.
Proof.
  intros He. unfold round_half_up_dyadic, scaled.
  assert (H1075 : 2 ^ 1075 = 2 * 2 ^ 1074).
  { change 1075 with (Z.succ 1074). now rewrite Z.pow_succ_r by lia. }
  assert (HB : 0 < 2 ^ 1074) by (apply Z.pow_pos_nonneg; lia).
  destruct e as [|k|k].
  - rewrite Z.pow_0_r, Z.mul_1_r, Z.add_0_l, H1075.
    set (B := 2 ^ 1074) in *.
    replace (2 * (Zpos m * B) + B) with (B + Zpos m * (2 * B)) by ring.
    rewrite Z.div_add by lia. rewrite Z.div_small by lia. lia.
  - rewrite Z.pow_add_r by lia. rewrite H1075.
    set (B := 2 ^ 1074) in *. set (K := 2 ^ Zpos k).
    replace (2 * (Zpos m * (K * B)) + B) with (B + (Zpos m * K) * (2 * B)) by ring.
    rewrite Z.div_add by lia. rewrite Z.div_small by lia. lia.
  - assert (Hsplit : 2 ^ 1074 = 2 ^ (Zneg k + 1074) * 2 ^ Zpos k).
    { rewrite <- Z.pow_add_r by lia. f_equal. lia. }
    rewrite H1075, Hsplit. rewrite (Z.pow_add_r 2 (Zpos k) 1) by lia.
    set (R := 2 ^ (Zneg k + 1074)). set (K := 2 ^ Zpos k).
    assert (0 < R) by (apply Z.pow_pos_nonneg; lia).
    assert (0 < K) by (apply Z.pow_pos_nonneg; lia).
    replace (2 * (Zpos m * R) + R * K) with ((2 * Zpos m + K) * R) by ring.
    replace (2 * (R * K)) with ((K * 2 ^ 1) * R) by (change (2 ^ 1) with 2; ring).
    rewrite Z.div_mul_cancel_r by (change (2 ^ 1) with 2; lia). reflexivity.
Qed.

Lemma rounds_pos (N D v : Z) : rounds N D v -> 0 < v.
Proof.
  intros (s & T & E & Hs & HE & _ & HT & ->).
  pose proof (RNE_bounds T E) as Hb.
  assert (2 ^ 52 <= T / E) by (apply Z.div_le_lower_bound; lia).
  change (2 ^ 52) with 4503599627370496 in *.
  apply Z.mul_pos_pos; [lia|]. apply Z.pow_pos_nonneg; lia.
Qed.

(** The percentage that [progress_of] computes, from the scaled value [z]
    of the product. *)
Definition percent_of_scaled (z : Z) : Z := (2 * z + 2 ^ 1074) / 2 ^ 1075.

Lemma percent_of_scaled_mono (z1 z2 : Z) :
  z1 <= z2 -> percent_of_scaled z1 <= percent_of_scaled z2.
Proof.
  intros Hz. unfold percent_of_scaled.
  apply Z.div_le_mono; [apply Z.pow_pos_nonneg; lia | lia].
Qed.

Lemma of_Z_100 : of_Z 100 = S754_finite false 7036874417766400 (-46).
Proof. reflexivity. Qed.

(** The three roundings behind [progress_of count len]: [y] is the scaled
    value of [count / len] and [z] that of the product by 100. *)
Lemma progress_of_spec (c l : Z) :
  0 < c < 2 ^ 53 -> 0 < l < 2 ^ 53 ->
  exists y z,
    rounds (c * 2 ^ 1074 * 2 ^ 1074) (l * 2 ^ 1074) y
    /\ rounds (y * (100 * 2 ^ 1074)) (2 ^ 1074) z
    /\ progress_of c l = Int (percent_of_scaled z).
Proof.
  intros Hc Hl.
  destruct (of_Z_spec c Hc) as (mc & ec & Hofc & Hmc & Hec & Hvc).
  destruct (of_Z_spec l Hl) as (ml & el & Hofl & Hml & Hel & Hvl).
  destruct (div_spec mc ml ec el Hmc Hml ltac:(lia) ltac:(lia))
    as (my & ey & Hdiv & Hmy & Hey & Hry).
  destruct (mul_spec my 7036874417766400 ey (-46) Hmy ltac:(lia) ltac:(lia) ltac:(lia))
    as (mz & ez & Hmul & Hmz & Hez & Hrz).
  exists (scaled my ey), (scaled mz ez).
  rewrite Hvc, Hvl in Hry. split; [exact Hry|]. split.
  - replace (100 * 2 ^ 1074) with (scaled 7036874417766400 (-46)); [exact Hrz|].
    unfold scaled. change (-46 + 1074) with 1028.
    change 1074 with (46 + 1028). rewrite Z.pow_add_r by lia.
    change (2 ^ 46) with 70368744177664. ring.
  - unfold progress_of. rewrite Hofc, Hofl, Hdiv, of_Z_100, Hmul.
    unfold Math_round. rewrite round_half_up_scaled by lia. reflexivity.
Qed.

(** The progress percentage does not decrease when more bytes are sent. *)
Lemma progress_of_mono (c1 c2 l : Z) :
  0 < c1 -> c1 <= c2 -> c2 < 2 ^ 53 -> 0 < l < 2 ^ 53 ->
  exists p1 p2,
    progress_of c1 l = Int p1 /\ progress_of c2 l = Int p2 /\ p1 <= p2.
Proof.
  intros Hc1 Hle Hc2 Hl.
  destruct (progress_of_spec c1 l ltac:(lia) Hl) as (y1 & z1 & Hy1 & Hz1 & Hp1).
  destruct (progress_of_spec c2 l ltac:(lia) Hl) as (y2 & z2 & Hy2 & Hz2 & Hp2).
  exists (percent_of_scaled z1), (percent_of_scaled z2).
  split; [exact Hp1|]. split; [exact Hp2|].
  apply percent_of_scaled_mono.
  assert (HB : 0 < 2 ^ 1074) by (apply Z.pow_pos_nonneg; lia).
  set (B := 2 ^ 1074) in *.
  assert (HlB : 0 < l * B) by (apply Z.mul_pos_pos; lia).
  assert (Hy : y1 <= y2).
  { apply (rounds_mono _ _ _ _ _ _ HlB HlB Hy1 Hy2).
    apply Z.mul_le_mono_nonneg_r; [lia|].
    apply Z.mul_le_mono_nonneg_r; [lia|].
    apply Z.mul_le_mono_nonneg_r; lia. }
  apply (rounds_mono _ _ _ _ _ _ HB HB Hz1 Hz2).
  apply Z.mul_le_mono_nonneg_r; [lia|].
  apply Z.mul_le_mono_nonneg_r; lia.
Qed.

(** While no more bytes are sent than the payload holds, the percentage is
    between 0 and 100. *)
Lemma progress_of_range (c l : Z) :
  0 < c -> c <= l -> l < 2 ^ 53 ->
  exists p, progress_of c l = Int p /\ 0 <= p <= 100.
Proof.
  intros Hc Hle Hl.
  destruct (progress_of_spec c l ltac:(lia) ltac:(lia)) as (y & z & Hy & Hz & Hp).
  exists (percent_of_scaled z). split; [exact Hp|].
  assert (HB : 0 < 2 ^ 1074) by (apply Z.pow_pos_nonneg; lia).
  pose proof (rounds_pos _ _ _ Hz) as Hzpos.
  assert (Hone : 2 ^ 1074 = 2 ^ 52 * 2 ^ 1022).
  { rewrite <- Z.pow_add_r by lia. reflexivity. }
  assert (Hcent : 100 * 2 ^ 1074 = 7036874417766400 * 2 ^ 1028).
  { change 1074 with (46 + 1028). rewrite Z.pow_add_r by lia.
    change (2 ^ 46) with 70368744177664. ring. }
  assert (HlB : 0 < l * 2 ^ 1074) by (apply Z.mul_pos_pos; lia).
  assert (Hy1 : y <= 2 ^ 1074).
  { rewrite Hone at 1.
    apply (rounds_mono _ _ _ _ _ _ HlB Z.lt_0_1 Hy
             (rounds_representable (2 ^ 52) 1022 ltac:(lia) ltac:(lia))).
    rewrite <- Hone. set (B := 2 ^ 1074) in *.
    replace (c * B * B * 1) with (c * (B * B)) by ring.
    replace (B * (l * B)) with (l * (B * B)) by ring.
    apply Z.mul_le_mono_nonneg_r; [|lia].
    apply Z.mul_nonneg_nonneg; lia. }
  assert (Hz1 : z <= 100 * 2 ^ 1074).
  { rewrite Hcent at 1.
    apply (rounds_mono _ _ _ _ _ _ HB Z.lt_0_1 Hz
             (rounds_representable 7036874417766400 1028 ltac:(lia) ltac:(lia))).
    rewrite <- Hcent. set (B := 2 ^ 1074) in *.
    replace (y * (100 * B) * 1) with (y * (100 * B)) by ring.
    replace (100 * B * B) with (B * (100 * B)) by ring.
    apply Z.mul_le_mono_nonneg_r; [lia|exact Hy1]. }
  unfold percent_of_scaled.
  assert (H1075 : 2 ^ 1075 = 2 * 2 ^ 1074).
  { change 1075 with (Z.succ 1074). now rewrite Z.pow_succ_r by lia. }
  rewrite H1075. set (B := 2 ^ 1074) in *.
  split.
  - apply Z.div_pos; lia.
  - apply Z.lt_succ_r. apply Z.div_lt_upper_bound; lia.
Qed.


End Binary64.

(** ** Progress over a session *)

Section ProgressOrder.
Import JS UseBLE.
Context {L : Type} `{BleLink L}.

Definition number_to_Z (n : number) : Z :=
  match n with
  | Int z => z
  | _ => 0%Z
  end.

Lemma acked_writes_le (values : list string) :
  forall l : L, acked_writes l values <= length values.
Proof.
  induction values as [|v values IH]; intros l; cbn [acked_writes length].
  - lia.
  - destruct (write_to l v) as [l'|]; [|lia]. specialize (IH l'). lia.
Qed.

Lemma sorted_map_seq (f : nat -> Z) (n : nat) :
  (forall i j, i <= j -> j < n -> (f i <= f j)%Z) ->
  forall start, start + 0 <= n ->
  forall len, start + len <= n ->
  Sorted.StronglySorted Z.le (map f (seq start len)).
Proof.
  intros Hmono start _ len. revert start.
  induction len as [|len IH]; intros start Hn; cbn [seq map].
  - constructor.
  - constructor; [apply IH; lia|].
    apply Forall_forall. intros x Hx. apply in_map_iff in Hx.
    destruct Hx as (j & <- & Hj). apply in_seq in Hj.
    apply Hmono; lia.
Qed.

(** The byte count after chunk [j] of a payload of [len] elements. *)
Definition count_after (len j : nat) : Z := Z.of_nat (Nat.min (300 * S j) len).

Lemma count_after_bounds (len j : nat) :
  j < (len + 299) / 300 ->
  (0 < count_after len j <= Z.of_nat len)%Z.
Proof. unfold count_after. intros Hj. lia. Qed.

Lemma count_after_mono (len i j : nat) :
  i <= j -> (count_after len i <= count_after len j)%Z.
Proof. unfold count_after. intros Hij. lia. Qed.

(** The progress values of the first [k] chunk completions. *)
Lemma chunk_progress_sorted (len k : nat) :
  (Z.of_nat len < 2 ^ 32)%Z ->
  k <= (len + 299) / 300 ->
  let qs := map (fun j => number_to_Z
                            (progress_of (count_after len j) (Z.of_nat len)))
                (seq 0 k) in
  map (fun j => progress_of (count_after len j) (Z.of_nat len)) (seq 0 k)
  = map Int qs
  /\ Sorted.StronglySorted Z.le qs
  /\ Forall (fun p => 0 <= p <= 100)%Z qs.
Proof.
  intros Hlen Hk qs. subst qs.
  assert (H53 : (2 ^ 32 < 2 ^ 53)%Z) by reflexivity.
  assert (Hval : forall j, j < k ->
            exists p, progress_of (count_after len j) (Z.of_nat len) = Int p
                      /\ (0 <= p <= 100)%Z).
  { intros j Hj.
    pose proof (count_after_bounds len j ltac:(lia)) as Hb.
    apply progress_of_range; lia. }
  split; [|split].
  - rewrite map_map. apply map_ext_in. intros j Hj. apply in_seq in Hj.
    destruct (Hval j ltac:(lia)) as (p & -> & _). reflexivity.
  - apply (sorted_map_seq _ k); [|lia|lia].
    intros i j Hij Hj.
    pose proof (count_after_bounds len i ltac:(lia)) as Hbi.
    pose proof (count_after_bounds len j ltac:(lia)) as Hbj.
    destruct (progress_of_mono (count_after len i) (count_after len j)
                (Z.of_nat len)) as (p1 & p2 & -> & -> & Hp); try lia.
    + now apply count_after_mono.
    + exact Hp.
  - apply Forall_forall. intros x Hx. apply in_map_iff in Hx.
    destruct Hx as (j & <- & Hj). apply in_seq in Hj.
    destruct (Hval j ltac:(lia)) as (p & -> & Hp). exact Hp.
Qed.

(** The number of payload chunk writes of a trace that were acknowledged. *)
Definition acknowledged_chunks (t : list Event) : nat :=
  length (filter (fun x => match x with
                           | (PayloadChunk, _, true) => true
                           | _ => false
                           end) (writes t)).

Lemma acknowledged_chunks_app (t1 t2 : list Event) :
  acknowledged_chunks (t1 ++ t2)
  = acknowledged_chunks t1 + acknowledged_chunks t2.
Proof.
  unfold acknowledged_chunks.
  now rewrite writes_app, filter_app, length_app.
Qed.

Lemma acknowledged_chunks_events (len : Z) (chunks : list (list Z)) :
  acknowledged_chunks (chunks_events len 0 chunks) = length chunks.
Proof.
  unfold acknowledged_chunks. rewrite writes_chunks_events.
  induction chunks as [|chunk rest IH]; cbn [map filter length]; [reflexivity|].
  now rewrite IH.
Qed.

End ProgressOrder.

(** C4. In a transfer of a payload whose length fits a JavaScript array,
    the progress emitted is 0 at the start, then one value per acknowledged
    chunk, and these values never decrease and stay between 0 and 100; when
    the transfer succeeds, that is after the End Marker has been written,
    the last progress emitted, and the one the hook holds, is exactly 100. *)
Theorem progress_is_monotone {L : Type} `{UseBLE.BleLink L}
        (d : UseBLE.Device) (byteData : list Z) (w : UseBLE.World L) :
  (Z.of_nat (length byteData) < 2 ^ 32)%Z ->
  let w' := snd (UseBLE.startStreamingData (Some d) byteData w) in
  let success :=
    String.eqb (UseBLE.streamingStatus (UseBLE.hook w'))
               "Streaming completed successfully!" in
  exists t qs,
    UseBLE.trace w' = UseBLE.trace w ++ t
    /\ UseBLE.progress_events t
       = JS.Int 0 :: map JS.Int qs ++ (if success then [JS.Int 100] else [])
    /\ length qs = acknowledged_chunks t
    /\ Sorted.StronglySorted Z.le (0 :: qs ++ (if success then [100] else []))%Z
    /\ (if success
        then UseBLE.streamingProgress (UseBLE.hook w') = JS.Int 100
        else True).
Proof.
  intros Hlen w' success. subst success w'.
  assert (Hsorted : forall qs (fin : bool),
             Sorted.StronglySorted Z.le qs ->
             Forall (fun p => 0 <= p <= 100)%Z qs ->
             Sorted.StronglySorted Z.le
               (0 :: qs ++ (if fin then [100] else []))%Z).
  { intros qs fin Hs Hr. constructor.
    - induction Hs as [|q qs Hs IH Hq]; cbn [app].
      + destruct fin; repeat constructor.
      + constructor.
        * apply IH. now inversion Hr.
        * apply Forall_app. split; [exact Hq|].
          destruct fin; [|constructor].
          constructor; [|constructor]. inversion Hr; subst. lia.
    - apply Forall_app. split.
      + eapply Forall_impl; [|exact Hr]. cbv beta. intros; lia.
      + destruct fin; repeat constructor. lia. }
  destruct (UseBLE.requestMTU (UseBLE.link w) 303) as [l1|] eqn:Hmtu.
  2:{ rewrite (startStreamingData_no_mtu d byteData w Hmtu).
      cbn [snd UseBLE.hook UseBLE.trace UseBLE.streamingStatus failed].
      change (String.eqb "Error: Streaming failed" "Streaming completed successfully!")
        with false.
      eexists. exists []. split; [reflexivity|]. split; [reflexivity|].
      split; [reflexivity|]. split; [repeat constructor|exact I]. }
  rewrite (startStreamingData_run d byteData w l1 Hmtu).
  set (chunks := UseBLE.make_chunks byteData).
  set (values := map UseBLE.bytesToBase64 chunks).
  set (k := acked_writes l1 values).
  assert (Hk : k <= length chunks).
  { subst k. pose proof (acked_writes_le values l1) as Hle.
    subst values. now rewrite length_map in Hle. }
  pose proof Hk as Hk'. unfold chunks in Hk'. rewrite chunks_count in Hk'.
  destruct (chunk_progress_sorted (length byteData) k Hlen Hk')
    as (Hmap & Hs & Hr).
  set (qs := map (fun j => number_to_Z
                             (UseBLE.progress_of
                                (count_after (length byteData) j)
                                (Z.of_nat (length byteData))))
                 (seq 0 k)) in *.
  assert (Hprog : UseBLE.progress_events
                    (opening_events ++ prepared_events
                       ++ chunks_events (Z.of_nat (length byteData)) 0
                            (firstn k chunks))
                  = JS.Int 0 :: map JS.Int qs).
  { rewrite !progress_events_app, progress_chunks_events.
    unfold chunks. rewrite running_counts_chunks by exact Hk.
    rewrite map_map. cbn [opening_events prepared_events UseBLE.progress_events
                          flat_map app].
    f_equal. exact Hmap. }
  set (streamed := opening_events ++ prepared_events
                    ++ chunks_events (Z.of_nat (length byteData)) 0
                         (firstn k chunks)) in *.
  assert (Htail : forall tail,
             UseBLE.progress_events (streamed ++ tail)
             = JS.Int 0 :: map JS.Int qs ++ UseBLE.progress_events tail).
  { intros tail. now rewrite progress_events_app, Hprog. }
  assert (Hack : forall tail,
             acknowledged_chunks tail = 0 ->
             length qs = acknowledged_chunks (streamed ++ tail)).
  { intros tail Htl. subst streamed qs.
    rewrite !acknowledged_chunks_app, acknowledged_chunks_events, Htl.
    rewrite length_map, length_seq, length_firstn. cbn. lia. }
  destruct (Nat.eqb k (length chunks)).
  - destruct (write_to (link_after l1 values) _) as [l3|];
      cbn [snd UseBLE.hook UseBLE.trace UseBLE.streamingStatus
           UseBLE.streamingProgress failed completed].
    + change (String.eqb "Streaming completed successfully!"
                         "Streaming completed successfully!") with true.
      exists (streamed ++ completion_events), qs.
      split; [now rewrite <- !app_assoc|].
      split; [apply Htail|]. split; [now apply Hack|].
      split; [now apply (Hsorted qs true)|reflexivity].
    + change (String.eqb "Error: Streaming failed" "Streaming completed successfully!")
        with false.
      exists (streamed
                ++ [ UseBLE.SetStreamingStatus "Sending completion signal...";
                     UseBLE.Write UseBLE.EndMarker
                       (UseBLE.bytesToBase64 UseBLE.endMarker) false ]
                ++ failure_events), qs.
      split; [now rewrite <- !app_assoc|].
      split; [apply Htail|]. split; [now apply Hack|].
      split; [now apply (Hsorted qs false)|exact I].
  - cbn [snd UseBLE.hook UseBLE.trace UseBLE.streamingStatus failed].
    change (String.eqb "Error: Streaming failed" "Streaming completed successfully!")
      with false.
    exists (streamed
              ++ [UseBLE.Write UseBLE.PayloadChunk (nth k values EmptyString) false]
              ++ failure_events), qs.
    split; [now rewrite <- !app_assoc|].
    split; [apply Htail|]. split; [now apply Hack|].
    split; [now apply (Hsorted qs false)|exact I].
Qed.

Lemma progress_is_monotone_witness :
  let w := UseBLE.fresh (UseBLE.Build_Scripted 0 None) in
  let w' := snd (UseBLE.startStreamingData (Some UseBLE.frame) (repeat 7%Z 700) w) in
  exists qs,
    UseBLE.progress_events (UseBLE.trace w') = JS.Int 0 :: map JS.Int qs ++ [JS.Int 100]
    /\ Sorted.StronglySorted Z.le (0 :: qs ++ [100])%Z.
Proof.
  intros w w'.
  destruct (progress_is_monotone UseBLE.frame (repeat 7%Z 700) w)
    as (t & qs & Ht & Hp & _ & Hs & _).
  - vm_compute. reflexivity.
  - exists qs. fold w' in Ht, Hp, Hs.
    assert (Hok : String.eqb (UseBLE.streamingStatus (UseBLE.hook w'))
                             "Streaming completed successfully!" = true)
      by (vm_compute; reflexivity).
    rewrite Hok in Hp, Hs. split; [|exact Hs].
    rewrite Ht. exact Hp.
Defined.

(** Following the spec's words: round(100 x bytesSent / len(payload)), the
    exact quotient rounded to the nearest integer, a half going up as
    [Math.round] does. *)
Definition spec_percent (bytesSent len : Z) : Z :=
  ((2 * (100 * bytesSent) + len) / (2 * len))%Z.

(** The same with a half going to the even neighbour. *)
Definition spec_percent_half_even (bytesSent len : Z) : Z :=
  let q := (100 * bytesSent / len)%Z in
  let r := ((100 * bytesSent) mod len)%Z in
  match (2 * r ?= len)%Z with
  | Lt => q
  | Eq => if Z.even q then q else (q + 1)%Z
  | Gt => (q + 1)%Z
  end.

(** C5, at the input where the code departs from it. With a payload of
    12000 bytes and a peripheral that acknowledges every write, the progress
    emitted after chunk 23 (6900 bytes sent, 57.5 percent) is 57, whereas
    round(100 x 6900 / 12000) is 58: the quotient 0.575 is rounded to
    binary64 before the multiplication, and the product falls just below
    57.5.  Rounding halves to even does not describe the code either: after
    the first chunk (2.5 percent) it emits 3. *)
Theorem progress_departs_from_exact_rounding :
  let payload := repeat 0%Z (40 * 300) in
  let w' := snd (UseBLE.startStreamingData (Some UseBLE.frame) payload
                   (UseBLE.fresh (UseBLE.Build_Scripted 0 None))) in
  let emitted := UseBLE.progress_events (UseBLE.trace w') in
  Z.of_nat (length payload) = 12000%Z
  /\ UseBLE.streamingStatus (UseBLE.hook w') = "Streaming completed successfully!"
  /\ nth 23 emitted JS.NaN = JS.Int 57
  /\ UseBLE.progress_of 6900 12000 = JS.Int 57
  /\ spec_percent 6900 12000 = 58%Z
  /\ nth 1 emitted JS.NaN = JS.Int 3
  /\ spec_percent_half_even 300 12000 = 2%Z.
Proof. vm_compute. repeat split; reflexivity. Qed.

(** ** The transport encoding round trip *)

Section Base64RoundTrip.
Import Base64.
Local Open Scope N_scope.

Lemma testbit_below (lo k n : N) : lo < 2 ^ k -> k <= n -> N.testbit lo n = false.
Proof.
  intros Hlo Hkn. destruct (N.eq_dec lo 0) as [->|Hnz].
  - apply N.bits_0.
  - apply N.bits_above_log2. apply N.log2_lt_pow2; [lia|].
    apply N.lt_le_trans with (2 ^ k); [exact Hlo|].
    apply N.pow_le_mono_r; lia.
Qed.

(** [(hi << k) | lo] is [hi * 2^k + lo] when [lo] fits in [k] bits. *)
Lemma lor_shiftl_low (hi lo k : N) :
  lo < 2 ^ k -> N.lor (N.shiftl hi k) lo = hi * 2 ^ k + lo.
Proof.
  intros Hlo.
  assert (Hdisj : N.land (N.shiftl hi k) lo = 0).
  { apply N.bits_inj. intros n. rewrite N.land_spec, N.bits_0.
    destruct (N.lt_ge_cases n k) as [Hn|Hn].
    - now rewrite N.shiftl_spec_low.
    - rewrite (testbit_below lo k n Hlo Hn). apply andb_false_r. }
  rewrite <- N.lxor_lor, <- N.add_nocarry_lxor by exact Hdisj.
  now rewrite N.shiftl_mul_pow2.
Qed.

Ltac to_arith :=
  unfold enc1, enc2, enc3, enc4, chr1, chr2, chr3;
  change 3 with (N.ones 2); change 15 with (N.ones 4);
  change 63 with (N.ones 6);
  rewrite ?N.land_ones, ?N.shiftr_div_pow2;
  change (2 ^ 2) with 4; change (2 ^ 4) with 16; change (2 ^ 6) with 64.

Lemma enc2_arith (a b : N) : b < 256 -> enc2 a b = (a mod 4) * 16 + b / 16.
Proof.
  intros Hb. to_arith. rewrite lor_shiftl_low; change (2 ^ 4) with 16; lia.
Qed.

Lemma enc3_arith (b c : N) : c < 256 -> enc3 b c = (b mod 16) * 4 + c / 64.
Proof.
  intros Hc. to_arith. rewrite lor_shiftl_low; change (2 ^ 2) with 4; lia.
Qed.

Lemma enc1_lt (a : N) : a < 256 -> enc1 a < 64.
Proof. intros Ha. to_arith. lia. Qed.

Lemma enc2_lt (a b : N) : b < 256 -> enc2 a b < 64.
Proof. intros Hb. rewrite enc2_arith by exact Hb. lia. Qed.

Lemma enc3_lt (b c : N) : c < 256 -> enc3 b c < 64.
Proof. intros Hc. rewrite enc3_arith by exact Hc. lia. Qed.

Lemma enc4_lt (c : N) : enc4 c < 64.
Proof. to_arith. lia. Qed.

Lemma chr1_enc (a b : N) : a < 256 -> b < 256 -> chr1 (enc1 a) (enc2 a b) = a.
Proof.
  intros Ha Hb. rewrite enc2_arith by exact Hb. to_arith.
  rewrite lor_shiftl_low; change (2 ^ 2) with 4; lia.
Qed.

Lemma chr2_enc (a b c : N) :
  b < 256 -> c < 256 -> chr2 (enc2 a b) (enc3 b c) = b.
Proof.
  intros Hb Hc. rewrite enc2_arith, enc3_arith by assumption. to_arith.
  rewrite lor_shiftl_low; change (2 ^ 4) with 16; lia.
Qed.

Lemma chr3_enc (b c : N) : c < 256 -> chr3 (enc3 b c) (enc4 c) = c.
Proof.
  intros Hc. rewrite enc3_arith by exact Hc. to_arith.
  rewrite lor_shiftl_low; change (2 ^ 6) with 64; lia.
Qed.

(** The alphabet: [keyStr.indexOf(keyStr.charAt(n))] is [n], and the
    first 64 characters differ from the padding. *)
Lemma sextet_charAt (n : N) :
  n < 64 -> sextet (charAt n) = Some n /\ Ascii.eqb (charAt n) pad = false.
Proof.
  intros Hn. rewrite <- (N2Nat.id n).
  assert (Hm : (N.to_nat n < 64)%nat) by lia.
  revert Hm. generalize (N.to_nat n). intros m Hm.
  do 64 (destruct m as [|m]; [split; reflexivity|]). lia.
Qed.

Lemma code_lt (c : ascii) : N_of_ascii c < 256.
Proof. apply N_ascii_bounded. Qed.

Lemma decode_group (a b c : ascii) (rest out : string) :
  decode rest = Some out ->
  decode (String (charAt (enc1 (N_of_ascii a)))
           (String (charAt (enc2 (N_of_ascii a) (N_of_ascii b)))
             (String (charAt (enc3 (N_of_ascii b) (N_of_ascii c)))
               (String (charAt (enc4 (N_of_ascii c))) rest))))
  = Some (String a (String b (String c out))).
Proof.
  intros Hrest.
  pose proof (code_lt a) as Ha. pose proof (code_lt b) as Hb.
  pose proof (code_lt c) as Hc.
  cbn [decode].
  destruct (sextet_charAt _ (enc1_lt _ Ha)) as [-> _].
  destruct (sextet_charAt _ (enc2_lt (N_of_ascii a) _ Hb)) as [-> _].
  destruct (sextet_charAt _ (enc3_lt (N_of_ascii b) _ Hc)) as [-> ->].
  destruct (sextet_charAt _ (enc4_lt (N_of_ascii c))) as [-> ->].
  rewrite Hrest, chr1_enc, chr2_enc, chr3_enc by assumption.
  rewrite !ascii_N_embedding. now destruct rest.
Qed.

Lemma decode_encode (input : string) : decode (encode input) = Some input.
Proof.
  assert (Hall : forall n (s : string), (String.length s < n)%nat ->
                                        decode (encode s) = Some s).
  { induction n as [|n IH]; intros s Hs; [lia|].
    destruct s as [|a [|b [|c rest]]].
    - reflexivity.
    - pose proof (code_lt a) as Ha. cbn [encode decode].
      destruct (sextet_charAt _ (enc1_lt _ Ha)) as [-> _].
      destruct (sextet_charAt _ (enc2_lt (N_of_ascii a) 0 eq_refl)) as [-> _].
      rewrite chr1_enc by (exact Ha || reflexivity).
      now rewrite ascii_N_embedding.
    - pose proof (code_lt a) as Ha. pose proof (code_lt b) as Hb.
      cbn [encode decode].
      destruct (sextet_charAt _ (enc1_lt _ Ha)) as [-> _].
      destruct (sextet_charAt _ (enc2_lt (N_of_ascii a) _ Hb)) as [-> _].
      destruct (sextet_charAt _ (enc3_lt (N_of_ascii b) 0 eq_refl)) as [-> ->].
      rewrite chr1_enc by assumption.
      rewrite (chr2_enc (N_of_ascii a) (N_of_ascii b) 0) by (exact Hb || reflexivity).
      now rewrite !ascii_N_embedding.
    - cbn [encode]. apply decode_group. apply IH. cbn in Hs. lia. }
  apply (Hall (S (String.length input))). lia.
Qed.

End Base64RoundTrip.

Section BytesToBase64.
Import UseBLE.

Lemma fold_append (l : list N) (acc : string) :
  fold_left (fun acc byte => (acc ++ String (fromCharCode byte) EmptyString)%string)
            l acc
  = (acc ++ string_of_list_ascii (map fromCharCode l))%string.
Proof.
  revert acc. induction l as [|x l IH]; intros acc; cbn [fold_left map string_of_list_ascii].
  - clear. induction acc as [|c acc IH]; cbn; [reflexivity | now f_equal].
  - rewrite IH. clear. induction acc as [|c acc IH]; cbn; [reflexivity | now f_equal].
Qed.

Lemma binaryString_map (bytes : list Z) :
  binaryString bytes
  = string_of_list_ascii (map (fun b => fromCharCode (toUint8 b)) bytes).
Proof. unfold binaryString. now rewrite fold_append, map_map. Qed.

Lemma charCodes_binaryString (bytes : list Z) :
  charCodes (binaryString bytes) = map (fun b => (b mod 256)%Z) bytes.
Proof.
  rewrite binaryString_map. unfold charCodes.
  rewrite list_ascii_of_string_of_list_ascii, map_map.
  apply map_ext. intros b. unfold fromCharCode, toUint8.
  rewrite N_ascii_embedding; lia.
Qed.

(** Whatever the numbers in the array, the receiver reads back their
    residues modulo 256. *)
Lemma decode_bytesToBase64 (bytes : list Z) :
  option_map charCodes (Base64.decode (bytesToBase64 bytes))
  = Some (map (fun b => (b mod 256)%Z) bytes).
Proof.
  unfold bytesToBase64. rewrite decode_encode. cbn [option_map].
  now rewrite charCodes_binaryString.
Qed.

End BytesToBase64.

(** C6. For every sequence of bytes, each between 0 and 255, encoding it
    with [bytesToBase64] and decoding the text gives the sequence back. *)
Theorem base64_round_trip (bytes : list Z) :
  Forall (fun b => 0 <= b <= 255)%Z bytes ->
  option_map UseBLE.charCodes (Base64.decode (UseBLE.bytesToBase64 bytes))
  = Some bytes.
Proof.
  intros Hrange. rewrite decode_bytesToBase64. f_equal.
  induction Hrange as [|b bytes Hb _ IH]; cbn [map]; [reflexivity|].
  rewrite IH. f_equal. apply Z.mod_small. lia.
Qed.

Lemma base64_round_trip_witness :
  option_map UseBLE.charCodes
    (Base64.decode (UseBLE.bytesToBase64 [0; 1; 127; 128; 255]%Z))
  = Some [0; 1; 127; 128; 255]%Z.
Proof.
  apply (base64_round_trip [0; 1; 127; 128; 255]%Z).
  repeat constructor; lia.
Defined.

(** ** parseByteString *)

Section ParseByteString.
Import JSString ImageStorageService.

(** Every code unit below 256. *)
Definition all_ascii : list ascii := map ascii_of_nat (seq 0 256).

Definition forallb_ascii (P : ascii -> bool) : bool := forallb P all_ascii.

Lemma forallb_ascii_spec (P : ascii -> bool) :
  forallb_ascii P = true -> forall c, P c = true.
Proof.
  unfold forallb_ascii. rewrite forallb_forall. intros Hall c. apply Hall.
  unfold all_ascii. rewrite <- (ascii_nat_embedding c).
  apply in_map, in_seq. pose proof (nat_ascii_bounded c). lia.
Qed.

(** The value of a word of hexadecimal digits. *)
Definition hex_value (t : string) : Z :=
  fold_left (fun acc c => match digit_value c with
                          | Some d => (16 * acc + d)%Z
                          | None => acc
                          end)
            (list_ascii_of_string t) 0%Z.

Definition option_Z_eqb (a b : option Z) : bool :=
  match a, b with
  | Some x, Some y => Z.eqb x y
  | None, None => true
  | _, _ => false
  end.

Lemma option_Z_eqb_eq (a b : option Z) : option_Z_eqb a b = true -> a = b.
Proof.
  destruct a, b; cbn; try discriminate; try reflexivity.
  intros Heq. apply Z.eqb_eq in Heq. now subst.
Qed.

(** What is checked of a token: when it is a word of one or two
    hexadecimal digits, [parse_token] returns its hexadecimal value. *)
Definition short_hex_check (t : string) : bool :=
  if is_hex_word t && (String.length t <=? 2)%nat
  then option_Z_eqb (parse_token t) (Some (hex_value t))
  else true.

Lemma short_hex_check_all_1 :
  forallb_ascii (fun c => short_hex_check (String c EmptyString)) = true.
Proof. vm_compute. reflexivity. Qed.

Lemma short_hex_check_all_2 :
  forallb_ascii
    (fun c1 => forallb_ascii
                 (fun c2 => short_hex_check (String c1 (String c2 EmptyString))))
  = true.
Proof. vm_compute. reflexivity. Qed.

(** A token of one or two hexadecimal digits is read in base 16, whatever
    its digits: ["10"] is sixteen. *)
Lemma short_hex_token_is_hexadecimal (t : string) :
  is_hex_word t = true ->
  (String.length t <= 2)%nat ->
  parse_token t = Some (hex_value t).
Proof.
  intros Hword Hlen.
  assert (Hcheck : short_hex_check t = true).
  { destruct t as [|c1 [|c2 [|c3 t]]].
    - discriminate.
    - apply (forallb_ascii_spec _ short_hex_check_all_1 c1).
    - pose proof (forallb_ascii_spec _ short_hex_check_all_2 c1) as H1.
      cbv beta in H1. apply (forallb_ascii_spec _ H1 c2).
    - cbn in Hlen. lia. }
  unfold short_hex_check in Hcheck. rewrite Hword in Hcheck.
  apply Nat.leb_le in Hlen. rewrite Hlen in Hcheck.
  now apply option_Z_eqb_eq.
Qed.

Lemma parse_token_range (t : string) (v : Z) :
  parse_token t = Some v -> (0 <= v <= 255)%Z.
Proof.
  unfold parse_token.
  destruct (if startsWith (toLowerCase t) "0x" then parseInt t 16
            else if is_hex_word t && (String.length t <=? 2)%nat
                 then parseInt t 16 else parseInt t 10) as [x|];
    [|discriminate].
  destruct ((x <? 0)%Z || (x >? 255)%Z) eqn:Hx; [discriminate|].
  intros [= <-]. apply orb_false_iff in Hx. lia.
Qed.

Lemma parse_parts_range (parts : list string) :
  forall bytes out,
    Forall (fun b => 0 <= b <= 255)%Z bytes ->
    parse_parts parts bytes = inr out ->
    Forall (fun b => 0 <= b <= 255)%Z out.
Proof.
  induction parts as [|part parts IH]; intros bytes out Hbytes Hrun;
    cbn [parse_parts] in Hrun.
  - now injection Hrun as <-.
  - destruct (is_empty (trim part)); [now apply (IH bytes)|].
    destruct (parse_token (trim part)) as [v|] eqn:Hv; [|discriminate].
    apply (IH (bytes ++ [v])); [|exact Hrun].
    apply Forall_app. split; [exact Hbytes|].
    constructor; [|constructor]. now apply parse_token_range in Hv.
Qed.

(** Every value [parseByteString] returns is an integer from 0 to 255. *)
Lemma parseByteString_range (byteString : string) (bytes : list Z) :
  parseByteString byteString = inr bytes ->
  Forall (fun b => 0 <= b <= 255)%Z bytes.
Proof.
  unfold parseByteString. destruct (is_empty (trim byteString)).
  - intros [= <-]. constructor.
  - apply parse_parts_range. constructor.
Qed.

End ParseByteString.

(** C9, at the inputs where the code departs from it. A token that begins
    with digits and goes on with other characters is malformed, yet
    [parseByteString] does not throw on it: [parseInt] reads the leading
    digits and drops the rest, so ["12abc"] gives 12, ["0x1G"] gives 1,
    ["1.5"] gives 1 and ["7up"] gives 7.  The other parts of the claim hold:
    ["10"] is read as sixteen, and a token without a leading digit or out of
    range is refused. *)
Theorem parseByteString_accepts_trailing_garbage :
  ImageStorageService.parseByteString "12abc" = inr [12%Z]
  /\ ImageStorageService.parseByteString "0x1G" = inr [1%Z]
  /\ ImageStorageService.parseByteString "1.5" = inr [1%Z]
  /\ ImageStorageService.parseByteString "7up" = inr [7%Z]
  /\ ImageStorageService.parseByteString "10" = inr [16%Z]
  /\ ImageStorageService.parseByteString "256"
     = inl (ImageStorageService.InvalidByteFormat "256")
  /\ ImageStorageService.parseByteString "-1"
     = inl (ImageStorageService.InvalidByteFormat "-1")
  /\ ImageStorageService.parseByteString "0x100"
     = inl (ImageStorageService.InvalidByteFormat "0x100")
  /\ ImageStorageService.parseByteString "zz"
     = inl (ImageStorageService.InvalidByteFormat "zz").
Proof. repeat split; vm_compute; reflexivity. Qed.

(** ** addImage *)

Section AddImage.
Import JSString ImageStorageService.
Context {S : Type} `{AsyncStorage S}.
Variable generatePreviewImage : string -> list Z -> string.

Lemma initialize_initialized (sv : Service S) :
  initialized sv = true -> initialize sv = sv.
Proof. intros Hi. unfold initialize. now rewrite Hi. Qed.

Lemma initialize_storage (sv : Service S) :
  storage (initialize sv) = storage sv.
Proof.
  unfold initialize. destruct (initialized sv); [reflexivity|].
  now destruct (load (storage sv)) as [[stored|]|].
Qed.

(** The conditions under which [addImage] throws before touching the
    list, in the order the code tests them. *)
Lemma addImage_validation (name byteString : string)
      (description : option string) (now : Z) (suffix : string)
      (sv : Service S) :
  let sv1 := initialize sv in
  let duplicate :=
    existsb (fun img => String.eqb (toLowerCase (ImageStorageService.name img))
                                   (toLowerCase name)) (images sv1) in
  fst (addImage generatePreviewImage name byteString description now suffix sv)
  = (if is_empty (trim name) then inl ImageNameRequired
     else if duplicate then inl DuplicateName
     else match parseByteString byteString with
          | inl e => inl (InvalidByteData e)
          | inr [] => inl ByteDataEmpty
          | inr _ =>
              fst (addImage generatePreviewImage name byteString description
                            now suffix sv)
          end).
Proof.
  cbv zeta. unfold addImage.
  destruct (is_empty (trim name)); [reflexivity|].
  destruct (existsb _ _); [reflexivity|].
  destruct (parseByteString byteString) as [e|[|b bytes]]; reflexivity.
Qed.

End AddImage.

(** C10. When [addImage] throws one of its validation errors (name empty
    after trimming, name equal to an existing one up to case, byte data
    that does not parse, byte data empty) the service is left as
    [initialize] leaves it: the list is the one [getAllImages] returns
    before the call, no image is added, none is modified, and nothing is
    written to the store.  On a service that is already initialized the
    list is the very same. *)
Theorem addImage_validation_failure_keeps_images
        {S : Type} `{ImageStorageService.AsyncStorage S}
        (generatePreviewImage : string -> list Z -> string)
        (name byteString : string) (description : option string)
        (now : Z) (suffix : string) (sv : ImageStorageService.Service S)
        (e : ImageStorageService.AddError) :
  let run := ImageStorageService.addImage generatePreviewImage name byteString
               description now suffix sv in
  fst run = inl e ->
  e <> ImageStorageService.FailedToSave ->
  snd run = ImageStorageService.initialize sv
  /\ ImageStorageService.images (snd run)
     = fst (ImageStorageService.getAllImages sv)
  /\ ImageStorageService.storage (snd run) = ImageStorageService.storage sv
  /\ (ImageStorageService.initialized sv = true ->
      ImageStorageService.images (snd run) = ImageStorageService.images sv).
Proof.
  intros run Herr Hvalid.
  assert (Hsv : snd run = ImageStorageService.initialize sv).
  { subst run. revert Herr. unfold ImageStorageService.addImage.
    destruct (JSString.is_empty (JSString.trim name)); [reflexivity|].
    destruct (existsb _ _); [reflexivity|].
    destruct (ImageStorageService.parseByteString byteString) as [pe|bytes];
      [reflexivity|].
    destruct (Nat.eqb (length bytes) 0); [reflexivity|].
    destruct (ImageStorageService.saveToStorage _) as [sv'|]; cbn [fst snd].
    - discriminate.
    - intros [= <-]. now contradiction Hvalid. }
  rewrite Hsv. split; [reflexivity|]. split; [reflexivity|].
  split; [apply initialize_storage|].
  intros Hinit. now rewrite initialize_initialized.
Qed.

Definition cat : ImageStorageService.ImageDataItem :=
  {| ImageStorageService.id := "img_1_a";
     ImageStorageService.name := "Cat";
     ImageStorageService.preview := "";
     ImageStorageService.byteData := [1%Z];
     ImageStorageService.description := "";
     ImageStorageService.createdAt := 1;
     ImageStorageService.updatedAt := 1 |}.

Lemma addImage_validation_failure_keeps_images_witness :
  let sv := ImageStorageService.Build_Service [cat] true (Some [cat]) in
  let run := ImageStorageService.addImage (fun _ _ => "") "cat" "0x01" None 2 "b" sv in
  fst run = inl ImageStorageService.DuplicateName
  /\ ImageStorageService.images (snd run) = [cat].
Proof.
  intros sv run. split; [reflexivity|].
  destruct (addImage_validation_failure_keeps_images
              (fun _ _ => "") "cat" "0x01" None 2 "b" sv
              ImageStorageService.DuplicateName)
    as (_ & _ & _ & Himgs).
  - reflexivity.
  - discriminate.
  - apply Himgs. reflexivity.
Defined.

(** A store whose writes are rejected. *)
Definition read_only_store : ImageStorageService.AsyncStorage unit :=
  {| ImageStorageService.load := fun _ => Some None;
     ImageStorageService.save := fun _ _ => None |}.

(** Outside the validation errors: when the write to the store is rejected,
    [addImage] throws after the push, and the new image stays in the list. *)
Example addImage_rejected_save_keeps_new_image :
  let run := @ImageStorageService.addImage unit read_only_store
               (fun _ _ => "") "Dog" "0x01" None 2 "b"
               (ImageStorageService.Build_Service [] true tt) in
  fst run = inl ImageStorageService.FailedToSave
  /\ map ImageStorageService.name (ImageStorageService.images (snd run)) = ["Dog"].
Proof. split; reflexivity. Qed.

Example chunks_700 :
  map (@length Z) (UseBLE.make_chunks (repeat 0%Z 700)) = [300; 300; 100].
Proof. vm_compute. reflexivity. Qed.

Example b64_ex : UseBLE.bytesToBase64 [255; 255; 255; 255]%Z = "/////w==".
Proof. vm_compute. reflexivity. Qed.

Example b64_dec_ex : Base64.decode "TWFu" = Some "Man".
Proof. vm_compute. reflexivity. Qed.

(** * Further properties of the code *)

(** ** The byte string as a sequence of tokens *)

Section Tokens.
Import JSString ImageStorageService.

(** A separator of byte strings: white space or a comma. *)
Definition is_separator (c : ascii) : bool :=
  is_white_space c || Ascii.eqb c comma.

Definition flush (cur : string) (l : list string) : list string :=
  if is_empty cur then l else cur :: l.

(** The maximal runs of characters that are not separators; [cur] is the
    run being read. *)
Fixpoint tokens_from (cur : string) (s : string) : list string :=
  match s with
  | EmptyString => flush cur []
  | String c s' =>
      if is_separator c then flush cur (tokens_from EmptyString s')
      else tokens_from (cur ++ String c EmptyString) s'
  end.

Definition tokens (s : string) : list string := tokens_from EmptyString s.

(** The loop of [parseByteString] over tokens that need no trimming. *)
Fixpoint parse_tokens (toks : list string) (bytes : list Z)
  : ParseError + list Z :=
  match toks with
  | [] => inr bytes
  | t :: toks' =>
      match parse_token t with
      | Some value => parse_tokens toks' (bytes ++ [value])
      | None => inl (InvalidByteFormat t)
      end
  end.

Fixpoint all_chars (P : ascii -> bool) (s : string) : bool :=
  match s with
  | EmptyString => true
  | String c s' => P c && all_chars P s'
  end.

Definition no_white_space (s : string) : bool :=
  all_chars (fun c => negb (is_white_space c)) s.

Lemma append_nil_r (s : string) : (s ++ "")%string = s.
Proof. induction s as [|c s IH]; cbn; [reflexivity | now rewrite IH]. Qed.

Lemma append_assoc (a b c : string) :
  ((a ++ b) ++ c)%string = (a ++ (b ++ c))%string.
Proof. induction a as [|x a IH]; cbn; [reflexivity | now rewrite IH]. Qed.

Lemma all_chars_app (P : ascii -> bool) (a b : string) :
  all_chars P (a ++ b) = all_chars P a && all_chars P b.
Proof.
  induction a as [|x a IH]; cbn; [reflexivity|]. now rewrite IH, andb_assoc.
Qed.

Lemma is_empty_app_char (cur : string) (c : ascii) :
  is_empty (cur ++ String c "") = false.
Proof. now destruct cur. Qed.

(** Separators in front of the text end the current token and are
    otherwise ignored. *)
Lemma tokens_from_separators (p s cur : string) :
  all_chars is_separator p = true ->
  tokens_from cur (p ++ s)
  = if is_empty p then tokens_from cur s
    else flush cur (tokens_from "" s).
Proof.
  revert cur. induction p as [|c p IH]; intros cur Hp; [reflexivity|].
  cbn in Hp. apply andb_true_iff in Hp. destruct Hp as [Hc Hp].
  cbn [append tokens_from is_empty]. rewrite Hc, (IH "" Hp).
  destruct (is_empty p); reflexivity.
Qed.

(** Separators at the end of the text are ignored. *)
Lemma tokens_from_trailing (s w cur : string) :
  all_chars is_separator w = true ->
  tokens_from cur (s ++ w) = tokens_from cur s.
Proof.
  intros Hw. revert cur. induction s as [|c s IH]; intros cur.
  - cbn [append]. rewrite <- (append_nil_r w), tokens_from_separators by exact Hw.
    cbn. now destruct (is_empty w).
  - cbn [append tokens_from]. destruct (is_separator c); now rewrite IH.
Qed.

Lemma white_space_is_separator (s : string) :
  all_chars is_white_space s = true -> all_chars is_separator s = true.
Proof.
  induction s as [|c s IH]; cbn; [reflexivity|]. intros Hs.
  apply andb_true_iff in Hs. destruct Hs as [Hc Hs].
  apply andb_true_iff. split; [|now apply IH].
  unfold is_separator. now rewrite Hc.
Qed.

(** *** trim *)

Lemma trimStart_split (s : string) :
  exists w, all_chars is_white_space w = true /\ s = (w ++ trimStart s)%string.
Proof.
  induction s as [|c s (w & Hw & IH)].
  - now exists "".
  - cbn [trimStart]. destruct (is_white_space c) eqn:Hc.
    + exists (String c w). cbn. rewrite Hc, Hw. split; [reflexivity|].
      now rewrite <- IH.
    + now exists "".
Qed.

Lemma string_of_list_app (a b : list ascii) :
  string_of_list_ascii (a ++ b)
  = (string_of_list_ascii a ++ string_of_list_ascii b)%string.
Proof. induction a as [|x a IH]; cbn; [reflexivity | now rewrite IH]. Qed.

Lemma list_of_string_app (a b : string) :
  list_ascii_of_string (a ++ b)
  = list_ascii_of_string a ++ list_ascii_of_string b.
Proof. induction a as [|x a IH]; cbn; [reflexivity | now rewrite IH]. Qed.

Lemma reverse_app (a b : string) :
  reverse (a ++ b) = (reverse b ++ reverse a)%string.
Proof.
  unfold reverse. now rewrite list_of_string_app, rev_app_distr, string_of_list_app.
Qed.

Lemma reverse_involutive (s : string) : reverse (reverse s) = s.
Proof.
  unfold reverse.
  now rewrite list_ascii_of_string_of_list_ascii, rev_involutive,
    string_of_list_ascii_of_string.
Qed.

Lemma all_chars_reverse (P : ascii -> bool) (s : string) :
  all_chars P (reverse s) = all_chars P s.
Proof.
  induction s as [|c s IH]; [reflexivity|].
  change (String c s) with ("" ++ String c "" ++ s)%string at 1.
  cbn [append]. change (String c s) with (String c "" ++ s)%string.
  rewrite reverse_app, all_chars_app, IH. cbn. now rewrite andb_true_r, andb_comm.
Qed.

Lemma trimEnd_split (s : string) :
  exists w, all_chars is_white_space w = true /\ s = (trimEnd s ++ w)%string.
Proof.
  destruct (trimStart_split (reverse s)) as (w & Hw & Hs).
  exists (reverse w). split; [now rewrite all_chars_reverse|].
  unfold trimEnd. rewrite <- reverse_app, <- Hs. now rewrite reverse_involutive.
Qed.

Lemma tokens_trim (s : string) :
  tokens_from "" (trim s) = tokens_from "" s.
Proof.
  unfold trim.
  destruct (trimEnd_split (trimStart s)) as (w2 & Hw2 & H2).
  destruct (trimStart_split s) as (w1 & Hw1 & H1).
  rewrite H1 at 2. rewrite H2 at 2.
  rewrite tokens_from_separators by now apply white_space_is_separator.
  rewrite tokens_from_trailing by now apply white_space_is_separator.
  cbn. now destruct (is_empty w1).
Qed.

(** A text without white space at either end is its own trim. *)
Lemma trimStart_no_white_space (s : string) :
  no_white_space s = true -> trimStart s = s.
Proof.
  destruct s as [|c s]; [reflexivity|]. cbn. intros Hs.
  apply andb_true_iff in Hs. destruct Hs as [Hc _].
  apply negb_true_iff in Hc. now rewrite Hc.
Qed.

Lemma trim_no_white_space (s : string) :
  no_white_space s = true -> trim s = s.
Proof.
  intros Hs. unfold trim, trimEnd.
  rewrite (trimStart_no_white_space s Hs).
  rewrite trimStart_no_white_space; [apply reverse_involutive|].
  unfold no_white_space. now rewrite all_chars_reverse.
Qed.

(** *** The three replacements *)

Lemma line_break_is_separator (c : ascii) :
  is_line_break c = true -> is_separator c = true.
Proof.
  intros Hc. unfold is_separator.
  replace (is_white_space c) with true; [reflexivity|]. symmetry.
  revert Hc. unfold is_line_break, is_white_space.
  generalize (code c). intros n Hn.
  apply orb_true_iff in Hn. destruct Hn as [Hn|Hn];
    apply N.eqb_eq in Hn; now subst n.
Qed.

Lemma tokens_replace_line_breaks (s : string) :
  (forall cur, tokens_from cur (replace_line_breaks false s) = tokens_from cur s)
  /\ tokens_from "" (replace_line_breaks true s) = tokens_from "" s.
Proof.
  induction s as [|c s [IHf IHt]]; [split; reflexivity|].
  cbn [replace_line_breaks].
  destruct (is_line_break c) eqn:Hc.
  - pose proof (line_break_is_separator c Hc) as Hsep. split.
    + intros cur. cbn [tokens_from]. rewrite Hsep.
      change (is_separator comma) with true. cbv iota. now rewrite IHt.
    + cbn [tokens_from]. now rewrite Hsep, IHt.
  - split; [intros cur|]; cbn [tokens_from];
      destruct (is_separator c); now rewrite IHf.
Qed.

Lemma tokens_replace_spaces (s : string) :
  (forall cur, tokens_from cur (replace_spaces false s) = tokens_from cur s)
  /\ tokens_from "" (replace_spaces true s) = tokens_from "" s.
Proof.
  induction s as [|c s [IHf IHt]]; [split; reflexivity|].
  cbn [replace_spaces].
  destruct (is_white_space c) eqn:Hc.
  - assert (Hsep : is_separator c = true) by (unfold is_separator; now rewrite Hc).
    split.
    + intros cur. cbn [tokens_from]. rewrite Hsep.
      change (is_separator comma) with true. cbv iota. now rewrite IHt.
    + cbn [tokens_from]. now rewrite Hsep, IHt.
  - split; [intros cur|]; cbn [tokens_from];
      destruct (is_separator c); now rewrite IHf.
Qed.

Lemma replace_spaces_no_white_space (s : string) (b : bool) :
  no_white_space (replace_spaces b s) = true.
Proof.
  revert b. induction s as [|c s IH]; intros b; [reflexivity|].
  cbn [replace_spaces]. destruct (is_white_space c) eqn:Hc.
  - destruct b; [apply IH|]. cbn. apply IH.
  - cbn. rewrite Hc. apply IH.
Qed.

Lemma tokens_normalize_commas (s : string) :
  (forall pending cur,
      all_chars is_white_space pending = true ->
      tokens_from cur (normalize_commas pending false s)
      = tokens_from cur (pending ++ s))
  /\ tokens_from "" (normalize_commas "" true s) = tokens_from "" s.
Proof.
  induction s as [|c s [IHf IHt]].
  - split; [|reflexivity]. intros pending cur _. cbn. now rewrite append_nil_r.
  - cbn [normalize_commas]. destruct (Ascii.eqb c comma) eqn:Hcomma.
    + apply Ascii.eqb_eq in Hcomma. subst c. split.
      * intros pending cur Hp.
        change (pending ++ String comma s)%string
          with (pending ++ (String comma "" ++ s))%string.
        rewrite <- append_assoc.
        rewrite tokens_from_separators.
        -- rewrite is_empty_app_char. cbn [tokens_from].
           change (is_separator comma) with true. cbv iota. now rewrite IHt.
        -- rewrite all_chars_app, (white_space_is_separator _ Hp). reflexivity.
      * cbn [tokens_from]. change (is_separator comma) with true.
        cbv iota. now rewrite IHt.
    + destruct (is_white_space c) eqn:Hws.
      * split.
        -- intros pending cur Hp.
           rewrite IHf by (rewrite all_chars_app, Hp; cbn; now rewrite Hws).
           now rewrite append_assoc.
        -- cbn [tokens_from]. unfold is_separator. rewrite Hws. cbn.
           exact IHt.
      * assert (Hsep : is_separator c = false)
          by (unfold is_separator; now rewrite Hws, Hcomma).
        split.
        -- intros pending cur Hp.
           rewrite !tokens_from_separators by now apply white_space_is_separator.
           cbn [tokens_from]. rewrite Hsep.
           destruct (is_empty pending); now rewrite (IHf "" _ eq_refl).
        -- cbn [append tokens_from]. rewrite Hsep. now rewrite (IHf "" _ eq_refl).
Qed.

(** *** split and the loop *)

Lemma parse_parts_split (s : string) :
  forall cur bytes,
    no_white_space cur = true -> no_white_space s = true ->
    parse_parts (split_from cur s) bytes
    = parse_tokens (tokens_from cur s) bytes.
Proof.
  induction s as [|c s IH]; intros cur bytes Hcur Hs.
  - cbn [split_from parse_parts tokens_from]. rewrite (trim_no_white_space cur Hcur).
    unfold flush. destruct (is_empty cur); reflexivity.
  - cbn in Hs. apply andb_true_iff in Hs. destruct Hs as [Hc Hs].
    apply negb_true_iff in Hc.
    cbn [split_from tokens_from]. unfold is_separator. rewrite Hc. cbn [orb].
    destruct (Ascii.eqb c comma) eqn:Hcomma.
    + cbn [parse_parts]. rewrite (trim_no_white_space cur Hcur).
      unfold flush. destruct (is_empty cur); [now apply IH|].
      cbn [parse_tokens]. destruct (parse_token cur); [now apply IH|reflexivity].
    + apply IH; [|exact Hs].
      unfold no_white_space in *. rewrite all_chars_app, Hcur. cbn. now rewrite Hc.
Qed.

Lemma tokens_normalizedString (s : string) :
  tokens_from "" (normalizedString s) = tokens s.
Proof.
  unfold normalizedString, tokens.
  rewrite (proj1 (tokens_replace_spaces _)).
  rewrite (proj1 (tokens_normalize_commas _) "" "" eq_refl). cbn [append].
  rewrite (proj1 (tokens_replace_line_breaks _)).
  now apply tokens_trim.
Qed.

End Tokens.

Section TokenTheorems.
Import JSString ImageStorageService.

Lemma parseByteString_reads_tokens_eq (byteString : string) :
  parseByteString byteString = parse_tokens (tokens byteString) [].
Proof.
  unfold parseByteString.
  destruct (is_empty (trim byteString)) eqn:Hempty.
  - unfold tokens. rewrite <- (tokens_trim byteString).
    destruct (trim byteString); [reflexivity|discriminate].
  - unfold split_comma.
    rewrite parse_parts_split;
      [|reflexivity|apply replace_spaces_no_white_space].
    now rewrite tokens_normalizedString.
Qed.

(** X1. [parseByteString] reads its argument as a sequence of tokens, the
    maximal runs of characters that are neither white space nor commas:
    line breaks, spaces and commas, in any number and any order, only
    separate the tokens.  Two texts with the same tokens give the same
    result, which is that of converting the tokens one after the other. *)
Theorem parseByteString_reads_tokens (byteString other : string) :
  tokens other = tokens byteString ->
  parseByteString other = parseByteString byteString
  /\ parseByteString byteString = parse_tokens (tokens byteString) [].
Proof.
  intros Hsame. split; [|apply parseByteString_reads_tokens_eq].
  now rewrite !parseByteString_reads_tokens_eq, Hsame.
Qed.

Lemma parseByteString_reads_tokens_witness :
  parseByteString "  0x01

 0x02,, ,3 " = parseByteString "0x01,0x02,3"
  /\ parseByteString "0x01,0x02,3" = inr [1; 2; 3]%Z.
Proof.
  apply (parseByteString_reads_tokens "0x01,0x02,3" "  0x01

 0x02,, ,3 ").
  reflexivity.
Defined.

Lemma parse_tokens_all (toks : list string) (values : list Z) :
  forall bytes,
    map parse_token toks = map Some values ->
    parse_tokens toks bytes = inr (bytes ++ values).
Proof.
  revert values. induction toks as [|t toks IH]; intros [|v values] bytes Hall;
    try discriminate.
  - cbn. now rewrite app_nil_r.
  - cbn in Hall. injection Hall as Ht Hall.
    cbn [parse_tokens]. rewrite Ht, (IH values _ Hall), <- app_assoc.
    reflexivity.
Qed.

Lemma parse_tokens_first_bad (good rest : list string) (bad : string)
      (values : list Z) :
  forall bytes,
    map parse_token good = map Some values ->
    parse_token bad = None ->
    parse_tokens (good ++ bad :: rest) bytes = inl (InvalidByteFormat bad).
Proof.
  revert values. induction good as [|t good IH]; intros [|v values] bytes Hall Hbad;
    try discriminate.
  - cbn. now rewrite Hbad.
  - cbn in Hall. injection Hall as Ht Hall.
    cbn [app parse_tokens]. rewrite Ht. now apply (IH values).
Qed.

Lemma parse_tokens_inv (toks : list string) :
  forall bytes out,
    parse_tokens toks bytes = inr out ->
    exists values, map parse_token toks = map Some values
                   /\ out = bytes ++ values.
Proof.
  induction toks as [|t toks IH]; intros bytes out Hrun; cbn in Hrun.
  - injection Hrun as <-. exists []. now rewrite app_nil_r.
  - destruct (parse_token t) as [v|] eqn:Ht; [|discriminate].
    destruct (IH _ _ Hrun) as (values & Hall & ->).
    exists (v :: values). cbn. rewrite Ht, Hall, <- app_assoc. now split.
Qed.

(** X2. [parseByteString] returns a list exactly when every token is
    accepted, and the list then holds the value of each token, in
    order. *)
Theorem parseByteString_succeeds_iff_all_tokens (byteString : string)
        (values : list Z) :
  parseByteString byteString = inr values
  <-> map parse_token (tokens byteString) = map Some values.
Proof.
  rewrite parseByteString_reads_tokens_eq. split.
  - intros Hrun. destruct (parse_tokens_inv _ _ _ Hrun) as (vs & Hall & ->).
    exact Hall.
  - intros Hall. now rewrite (parse_tokens_all _ _ [] Hall).
Qed.

(** X3. When some token is refused, [parseByteString] throws, and the
    error names the first token that is refused: nothing is returned of
    the bytes read before it. *)
Theorem parseByteString_first_error (byteString : string)
        (good rest : list string) (bad : string) (values : list Z) :
  tokens byteString = good ++ bad :: rest ->
  map parse_token good = map Some values ->
  parse_token bad = None ->
  parseByteString byteString = inl (InvalidByteFormat bad).
Proof.
  intros Htokens Hall Hbad. rewrite parseByteString_reads_tokens_eq, Htokens.
  now apply (parse_tokens_first_bad good rest bad values).
Qed.

Lemma parseByteString_first_error_witness :
  parseByteString "0x01, 300, zz" = inl (InvalidByteFormat "300").
Proof.
  apply (parseByteString_first_error "0x01, 300, zz" ["0x01"] ["zz"] "300"
           [1%Z]); reflexivity.
Defined.

End TokenTheorems.

(** ** bytesToHexString and back *)

Section HexRoundTrip.
Import JSString ImageStorageService.

Definition is_word_char (c : ascii) : bool := negb (is_separator c).

Lemma tokens_from_word (t s cur : string) :
  all_chars is_word_char t = true ->
  tokens_from cur (t ++ s) = tokens_from (cur ++ t) s.
Proof.
  revert cur. induction t as [|c t IH]; intros cur Ht.
  - cbn. now rewrite append_nil_r.
  - cbn in Ht. apply andb_true_iff in Ht. destruct Ht as [Hc Ht].
    apply negb_true_iff in Hc. cbn [append tokens_from]. rewrite Hc.
    rewrite (IH _ Ht), append_assoc. reflexivity.
Qed.

Definition is_word (t : string) : bool :=
  negb (is_empty t) && all_chars is_word_char t.

Lemma tokens_concat (ts : list string) :
  forallb is_word ts = true -> tokens (String.concat "," ts) = ts.
Proof.
  unfold tokens. induction ts as [|t ts IH]; [reflexivity|].
  cbn [forallb]. intros Hts. apply andb_true_iff in Hts.
  destruct Hts as [Ht Hts]. apply andb_true_iff in Ht. destruct Ht as [Hne Hw].
  apply negb_true_iff in Hne. specialize (IH Hts).
  cbn [String.concat]. destruct ts as [|t2 ts].
  - pose proof (tokens_from_word t "" "" Hw) as Hword.
    rewrite append_nil_r in Hword. rewrite Hword.
    cbn. unfold flush. now rewrite Hne.
  - rewrite (tokens_from_word t _ "" Hw). cbn [append tokens_from].
    change (is_separator ","%char) with true. cbv iota.
    unfold flush. now rewrite Hne, IH.
Qed.

(** What is checked of the text of each byte: it is a word of four
    characters that [parse_token] reads back as the byte. *)
Definition hex_byte_check (n : nat) : bool :=
  let t := hex_byte (Z.of_nat n) in
  is_word t && option_Z_eqb (parse_token t) (Some (Z.of_nat n))
  && Nat.eqb (String.length t) 4.

Lemma hex_byte_check_all : forallb hex_byte_check (seq 0 256) = true.
Proof. vm_compute. reflexivity. Qed.

Lemma hex_byte_facts (b : Z) :
  (0 <= b <= 255)%Z ->
  is_word (hex_byte b) = true
  /\ parse_token (hex_byte b) = Some b
  /\ String.length (hex_byte b) = 4.
Proof.
  intros Hb.
  pose proof (proj1 (forallb_forall _ _) hex_byte_check_all (Z.to_nat b)) as Hall.
  unfold hex_byte_check in Hall. rewrite Z2Nat.id in Hall by lia.
  specialize (Hall ltac:(apply in_seq; lia)).
  apply andb_true_iff in Hall. destruct Hall as [Hall Hlen].
  apply andb_true_iff in Hall. destruct Hall as [Hword Hparse].
  split; [exact Hword|]. split; [now apply option_Z_eqb_eq|].
  now apply Nat.eqb_eq.
Qed.

Lemma parseByteString_bytesToHexString (bytes : list Z) :
  Forall (fun b => 0 <= b <= 255)%Z bytes ->
  parseByteString (bytesToHexString bytes) = inr bytes.
Proof.
  intros Hrange.
  rewrite parseByteString_reads_tokens_eq. unfold bytesToHexString.
  rewrite tokens_concat.
  - apply (parse_tokens_all _ bytes []).
    rewrite map_map. induction Hrange as [|b bytes Hb _ IH]; cbn [map];
      [reflexivity|].
    rewrite IH. f_equal. now apply hex_byte_facts.
  - rewrite forallb_forall. intros t Ht. apply in_map_iff in Ht.
    destruct Ht as (b & <- & Hin).
    apply hex_byte_facts. now apply (proj1 (Forall_forall _ _) Hrange).
Qed.

Lemma residues_of_bytes (bytes : list Z) :
  Forall (fun b => 0 <= b <= 255)%Z bytes ->
  map (fun b => b mod 256)%Z bytes = bytes.
Proof.
  intros Hrange. induction Hrange as [|b bs Hb _ IH]; cbn [map]; [reflexivity|].
  rewrite IH. f_equal. apply Z.mod_small. lia.
Qed.

End HexRoundTrip.

(** X4. The text [bytesToHexString] produces for bytes between 0 and
    255 is read back by [parseByteString] as the same bytes, and it
    writes every byte with four characters, [0x] and two upper-case
    digits. *)
Theorem hex_string_round_trip (bytes : list Z) :
  Forall (fun b => 0 <= b <= 255)%Z bytes ->
  ImageStorageService.parseByteString (ImageStorageService.bytesToHexString bytes)
  = inr bytes
  /\ Forall (fun b => String.length (ImageStorageService.hex_byte b) = 4) bytes.
Proof.
  intros Hrange. split; [now apply parseByteString_bytesToHexString|].
  apply (Forall_impl _ (P := fun b => (0 <= b <= 255)%Z)); [|exact Hrange].
  intros b Hb. now apply hex_byte_facts.
Qed.

Lemma hex_string_round_trip_witness :
  ImageStorageService.parseByteString
    (ImageStorageService.bytesToHexString [0; 10; 146; 255]%Z)
  = inr [0; 10; 146; 255]%Z
  /\ ImageStorageService.bytesToHexString [0; 10; 146; 255]%Z = "0x00,0x0A,0x92,0xFF".
Proof.
  split; [|reflexivity].
  apply (hex_string_round_trip [0; 10; 146; 255]%Z).
  repeat constructor; lia.
Defined.

(** X5. The bytes [parseByteString] returns go through the rest of the
    application unchanged: the text the edit form shows for them
    ([bytesToHexString]) parses back to the same bytes, and the text sent
    to the peripheral for them ([bytesToBase64]) decodes to the same
    bytes. *)
Theorem parsed_bytes_round_trip (byteString : string) (bytes : list Z) :
  ImageStorageService.parseByteString byteString = inr bytes ->
  ImageStorageService.parseByteString (ImageStorageService.bytesToHexString bytes)
  = inr bytes
  /\ option_map UseBLE.charCodes (Base64.decode (UseBLE.bytesToBase64 bytes))
     = Some bytes.
Proof.
  intros Hparse. pose proof (parseByteString_range _ _ Hparse) as Hrange.
  split; [now apply parseByteString_bytesToHexString|].
  now rewrite decode_bytesToBase64, residues_of_bytes.
Qed.

Lemma parsed_bytes_round_trip_witness :
  ImageStorageService.parseByteString (ImageStorageService.bytesToHexString [146; 10; 255]%Z)
  = inr [146; 10; 255]%Z
  /\ option_map UseBLE.charCodes
       (Base64.decode (UseBLE.bytesToBase64 [146; 10; 255]%Z))
     = Some [146; 10; 255]%Z.
Proof.
  apply (parsed_bytes_round_trip "0x92, 0A
ff").
  reflexivity.
Defined.

(** ** The list operations of the service *)

Section ServiceLists.
Import JSString ImageStorageService.

Lemma findIndex_None {A : Type} (p : A -> bool) (l : list A) :
  JS.findIndex p l = None <-> existsb p l = false.
Proof.
  induction l as [|x l IH]; cbn; [tauto|].
  destruct (p x); cbn; [split; discriminate|].
  rewrite <- IH. destruct (JS.findIndex p l); cbn; split; congruence.
Qed.

Lemma findIndex_Some {A : Type} (p : A -> bool) (l : list A) :
  forall i,
    JS.findIndex p l = Some i ->
    exists before x after,
      l = before ++ x :: after /\ length before = i
      /\ p x = true /\ existsb p before = false.
Proof.
  induction l as [|x l IH]; cbn; intros i Hi; [discriminate|].
  destruct (p x) eqn:Hx.
  - injection Hi as <-. now exists [], x, l.
  - destruct (JS.findIndex p l) as [j|]; [|discriminate].
    cbn in Hi. injection Hi as <-.
    destruct (IH j eq_refl) as (before & y & after & -> & <- & Hy & Hb).
    exists (x :: before), y, after. cbn. now rewrite Hx.
Qed.

Lemma findIndex_middle {A : Type} (p : A -> bool) (before after : list A)
      (x : A) :
  existsb p before = false -> p x = true ->
  JS.findIndex p (before ++ x :: after) = Some (length before).
Proof.
  intros Hb Hx. induction before as [|b before IH]; cbn in *.
  - now rewrite Hx.
  - apply orb_false_iff in Hb. destruct Hb as [Hb Hrest].
    now rewrite Hb, (IH Hrest).
Qed.

Lemma nth_error_middle {A : Type} (before after : list A) (x : A) :
  nth_error (before ++ x :: after) (length before) = Some x.
Proof. induction before as [|b before IH]; cbn; [reflexivity | exact IH]. Qed.

Lemma firstn_middle {A : Type} (before after : list A) :
  firstn (length before) (before ++ after) = before.
Proof. induction before as [|b before IH]; cbn; [now destruct after | now rewrite IH]. Qed.

Lemma skipn_middle {A : Type} (before after : list A) (x : A) :
  skipn (Datatypes.S (length before)) (before ++ x :: after) = after.
Proof. induction before as [|b before IH]; cbn; [reflexivity | exact IH]. Qed.

Lemma splice_one_middle {A : Type} (before after : list A) (x : A) :
  JS.splice_one (length before) (before ++ x :: after) = before ++ after.
Proof. unfold JS.splice_one. now rewrite firstn_middle, skipn_middle. Qed.

Lemma assign_middle {A : Type} (before after : list A) (x y : A) :
  JS.assign (length before) y (before ++ x :: after) = before ++ y :: after.
Proof. unfold JS.assign. now rewrite firstn_middle, skipn_middle. Qed.

Lemma find_app {A : Type} (p : A -> bool) (l1 l2 : list A) :
  find p (l1 ++ l2)
  = match find p l1 with Some x => Some x | None => find p l2 end.
Proof. induction l1 as [|x l1 IH]; cbn; [reflexivity|]. now destruct (p x). Qed.

Lemma find_none_existsb {A : Type} (p : A -> bool) (l : list A) :
  existsb p l = false -> find p l = None.
Proof.
  induction l as [|x l IH]; cbn; [reflexivity|].
  destruct (p x); cbn; [discriminate | exact IH].
Qed.

Lemma has_id_in (id0 : string) (l : list ImageDataItem) :
  existsb (has_id id0) l = false <-> ~ In id0 (map ImageStorageService.id l).
Proof.
  induction l as [|x l IH]; cbn; [tauto|].
  unfold has_id at 1. destruct (String.eqb_spec (ImageStorageService.id x) id0) as [Heq|Hne]; cbn.
  - split; [discriminate | intros Hn; exfalso; apply Hn; now left].
  - rewrite IH. tauto.
Qed.

Lemma has_id_other (id0 j : string) (x : ImageDataItem) :
  ImageStorageService.id x = id0 -> j <> id0 -> has_id j x = false.
Proof. intros <- Hne. unfold has_id. apply String.eqb_neq. congruence. Qed.

End ServiceLists.

Section ServiceOperations.
Import JSString ImageStorageService.
Context {S : Type} `{AsyncStorage S}.
Variable generatePreviewImage : string -> list Z -> string.

Lemma initialize_is_initialized (sv : Service S) :
  initialized (initialize sv) = true.
Proof.
  unfold initialize. destruct (initialized sv) eqn:Hi; [exact Hi|].
  now destruct (load (storage sv)) as [[stored|]|].
Qed.

Lemma initialize_twice (sv : Service S) :
  initialize (initialize sv) = initialize sv.
Proof. apply initialize_initialized, initialize_is_initialized. Qed.

Lemma saveToStorage_Some (sv sv' : Service S) :
  saveToStorage sv = Some sv' ->
  images sv' = images sv /\ initialized sv' = initialized sv
  /\ save (storage sv) (images sv) = Some (storage sv').
Proof.
  unfold saveToStorage. destruct (save (storage sv) (images sv)) as [st|];
    [|discriminate].
  intros [= <-]. now cbn.
Qed.

(** What [deleteImage] does when it finds the identifier. *)
Lemma deleteImage_found (id0 : string) (sv : Service S)
      (before after : list ImageDataItem) (img : ImageDataItem) :
  images (initialize sv) = before ++ img :: after ->
  has_id id0 img = true ->
  existsb (has_id id0) before = false ->
  deleteImage id0 sv
  = match save (storage sv) (before ++ after) with
    | Some st => (inr true, Build_Service (before ++ after) true st)
    | None => (inl FailedToSaveImageData,
               Build_Service (before ++ after) true (storage sv))
    end.
Proof.
  intros Himgs Himg Hbefore. unfold deleteImage.
  rewrite Himgs, (findIndex_middle _ _ _ _ Hbefore Himg), splice_one_middle.
  unfold saveToStorage. cbn [images storage initialized].
  rewrite initialize_is_initialized, initialize_storage.
  now destruct (save (storage sv) (before ++ after)).
Qed.

Lemma images_split_at_id (id0 : string) (l : list ImageDataItem) :
  existsb (has_id id0) l = true ->
  exists before img after,
    l = before ++ img :: after /\ has_id id0 img = true
    /\ existsb (has_id id0) before = false.
Proof.
  intros Hex. destruct (JS.findIndex (has_id id0) l) as [i|] eqn:Hi.
  - destruct (findIndex_Some _ _ _ Hi) as (b & x & a & Hl & _ & Hx & Hb).
    now exists b, x, a.
  - apply findIndex_None in Hi. congruence.
Qed.

End ServiceOperations.

Section ServiceTheorems.
Import JSString ImageStorageService.
Context {S : Type} `{AsyncStorage S}.
Variable generatePreviewImage : string -> list Z -> string.

(** X6. [deleteImage] with an identifier that no image of the list has
    returns [false] and changes nothing: the list stays as [initialize]
    leaves it and nothing is written to the store. *)
Theorem deleteImage_unknown_id (id0 : string) (sv : Service S) :
  ~ In id0 (map ImageStorageService.id (images (initialize sv))) ->
  deleteImage id0 sv = (inr false, initialize sv).
Proof.
  intros Hno. apply has_id_in, findIndex_None in Hno.
  unfold deleteImage. now rewrite Hno.
Qed.

(** X7. When [deleteImage] returns [true], the list has lost exactly one
    image, the first one that has the identifier; the images before and
    after it keep their places, and the shorter list is the one that was
    written to the store. *)
Theorem deleteImage_removes_first_match (id0 : string) (sv : Service S) :
  fst (deleteImage id0 sv) = inr true ->
  exists before img after,
    images (initialize sv) = before ++ img :: after
    /\ ImageStorageService.id img = id0
    /\ ~ In id0 (map ImageStorageService.id before)
    /\ images (snd (deleteImage id0 sv)) = before ++ after
    /\ save (storage sv) (before ++ after)
       = Some (storage (snd (deleteImage id0 sv))).
Proof.
  intros Hrun.
  destruct (existsb (has_id id0) (images (initialize sv))) eqn:Hex.
  - destruct (images_split_at_id _ _ Hex) as (before & img & after & Hl & Himg & Hb).
    exists before, img, after.
    rewrite (deleteImage_found _ _ _ _ _ Hl Himg Hb) in *.
    split; [exact Hl|]. split; [now apply String.eqb_eq|].
    split; [now apply has_id_in|].
    destruct (save (storage sv) (before ++ after)) as [st|]; [|discriminate].
    now cbn.
  - apply findIndex_None in Hex. unfold deleteImage in Hrun.
    rewrite Hex in Hrun. discriminate.
Qed.

(** X8. When the identifiers of the list are distinct, a successful
    [deleteImage] makes [getImageById] return [null] for the identifier
    and leaves what it returns for every other identifier unchanged. *)
Theorem getImageById_after_deleteImage (id0 j : string) (sv : Service S) :
  NoDup (map ImageStorageService.id (images (initialize sv))) ->
  fst (deleteImage id0 sv) = inr true ->
  fst (getImageById j (snd (deleteImage id0 sv)))
  = if String.eqb j id0 then None else fst (getImageById j sv).
Proof.
  intros Hids Hrun.
  destruct (existsb (has_id id0) (images (initialize sv))) eqn:Hex.
  - destruct (images_split_at_id _ _ Hex) as (before & img & after & Hl & Himg & Hb).
    rewrite (deleteImage_found _ _ _ _ _ Hl Himg Hb) in *.
    destruct (save (storage sv) (before ++ after)) as [st|]; [|discriminate].
    unfold getImageById. cbn [fst snd].
    rewrite (initialize_initialized (Build_Service _ true st) eq_refl), Hl.
    cbn [images].
    rewrite !find_app. cbn [find].
    apply String.eqb_eq in Himg.
    destruct (String.eqb_spec j id0) as [->|Hne].
    + rewrite (find_none_existsb _ _ Hb).
      apply find_none_existsb, has_id_in.
      rewrite Hl, map_app in Hids. cbn [map] in Hids.
      apply NoDup_remove_2 in Hids. rewrite Himg in Hids.
      intros Hin. apply Hids, in_or_app. now right.
    + now rewrite (has_id_other id0 j img Himg Hne).
  - apply findIndex_None in Hex. unfold deleteImage in Hrun.
    rewrite Hex in Hrun. discriminate.
Qed.

(** What a successful [addImage] has checked and done. *)
Lemma addImage_success (name byteString : string) (description : option string)
      (now : Z) (suffix : string) (sv : Service S) (img : ImageDataItem) :
  fst (addImage generatePreviewImage name byteString description now suffix sv)
  = inr img ->
  is_empty (trim name) = false
  /\ existsb (fun old => String.eqb (toLowerCase (ImageStorageService.name old))
                                    (toLowerCase name))
             (images (initialize sv)) = false
  /\ parseByteString byteString = inr (byteData img)
  /\ byteData img <> []
  /\ ImageStorageService.name img = trim name
  /\ ImageStorageService.id img
     = ("img_" ++ JS.Z_toString now ++ "_" ++ suffix)%string
  /\ exists st,
       save (storage sv) (images (initialize sv) ++ [img]) = Some st
       /\ snd (addImage generatePreviewImage name byteString description now
                        suffix sv)
          = Build_Service (images (initialize sv) ++ [img]) true st.
Proof.
  unfold addImage.
  destruct (is_empty (trim name)); [discriminate|].
  destruct (existsb _ _); [discriminate|].
  destruct (parseByteString byteString) as [e|bytes]; [discriminate|].
  destruct (Nat.eqb (length bytes) 0) eqn:Hlen; [discriminate|].
  unfold saveToStorage. cbn [images storage initialized].
  rewrite initialize_is_initialized, initialize_storage.
  destruct (save (storage sv) _) as [st|] eqn:Hsave; [|discriminate].
  cbn [fst snd]. intros [= <-]. cbn [byteData ImageStorageService.name ImageStorageService.id].
  repeat split; try reflexivity.
  - intros ->. discriminate.
  - exists st. now split.
Qed.

(** X9. A successful [addImage] appends the new image to the list, with
    the trimmed name and the bytes of the text; the count grows by one, and
    [getImageById] with the identifier of the new image returns it, unless
    an older image has the same identifier, which is then the one
    returned. *)
Theorem addImage_appends_and_is_found
        (name byteString : string) (description : option string)
        (now : Z) (suffix : string) (sv : Service S) (img : ImageDataItem) :
  let run := addImage generatePreviewImage name byteString description now
               suffix sv in
  fst run = inr img ->
  images (snd run) = images (initialize sv) ++ [img]
  /\ ImageStorageService.name img = trim name
  /\ parseByteString byteString = inr (byteData img)
  /\ fst (getImageCount (snd run)) = Datatypes.S (fst (getImageCount sv))
  /\ fst (getImageById (ImageStorageService.id img) (snd run))
     = match fst (getImageById (ImageStorageService.id img) sv) with
       | Some old => Some old
       | None => Some img
       end.
Proof.
  intros run Hrun.
  destruct (addImage_success _ _ _ _ _ _ _ Hrun)
    as (_ & _ & Hbytes & _ & Hname & _ & st & _ & Hsv).
  subst run. rewrite Hsv.
  unfold getImageCount, getImageById. cbn [fst].
  rewrite (initialize_initialized (Build_Service _ true st) eq_refl).
  cbn [images].
  repeat split; try assumption.
  - rewrite length_app. cbn. lia.
  - rewrite find_app. cbn [find]. unfold has_id at 2.
    now rewrite String.eqb_refl.
Qed.

End ServiceTheorems.

Definition dog : ImageStorageService.ImageDataItem :=
  {| ImageStorageService.id := "img_2_b";
     ImageStorageService.name := "Dog";
     ImageStorageService.preview := "";
     ImageStorageService.byteData := [2%Z];
     ImageStorageService.description := "";
     ImageStorageService.createdAt := 2;
     ImageStorageService.updatedAt := 2 |}.

Definition two_images
  : ImageStorageService.Service (option (list ImageStorageService.ImageDataItem)) :=
  ImageStorageService.Build_Service [cat; dog] true (Some [cat; dog]).

Lemma deleteImage_unknown_id_witness :
  ImageStorageService.deleteImage "img_9_z" two_images = (inr false, two_images).
Proof.
  apply (deleteImage_unknown_id "img_9_z" two_images).
  cbn. intros [Heq|[Heq|[]]]; discriminate.
Defined.

Lemma deleteImage_removes_first_match_witness :
  exists before img after,
    [cat; dog] = before ++ img :: after
    /\ ImageStorageService.id img = "img_1_a"
    /\ ~ In "img_1_a" (map ImageStorageService.id before)
    /\ ImageStorageService.images (snd (ImageStorageService.deleteImage "img_1_a" two_images))
       = before ++ after
    /\ Some (Some (before ++ after))
       = Some (ImageStorageService.storage
                 (snd (ImageStorageService.deleteImage "img_1_a" two_images))).
Proof.
  exact (deleteImage_removes_first_match "img_1_a" two_images eq_refl).
Defined.

Lemma getImageById_after_deleteImage_witness :
  fst (ImageStorageService.getImageById "img_1_a" (snd (ImageStorageService.deleteImage "img_1_a" two_images)))
  = None.
Proof.
  apply (getImageById_after_deleteImage "img_1_a" "img_1_a" two_images).
  - cbn. repeat constructor; cbn; intuition discriminate.
  - reflexivity.
Defined.

Definition bird : ImageStorageService.ImageDataItem :=
  {| ImageStorageService.id := "img_3_c";
     ImageStorageService.name := "Bird";
     ImageStorageService.preview := "";
     ImageStorageService.byteData := [1%Z; 2%Z];
     ImageStorageService.description := "";
     ImageStorageService.createdAt := 3;
     ImageStorageService.updatedAt := 3 |}.

Lemma addImage_appends_and_is_found_witness :
  let run := ImageStorageService.addImage (fun _ _ => "") " Bird " "0x01 2"
               None 3 "c" two_images in
  ImageStorageService.images (snd run) = [cat; dog; bird].
Proof.
  intros run.
  assert (Hrun : fst run = inr bird) by reflexivity.
  destruct (addImage_appends_and_is_found (fun _ _ => "") " Bird " "0x01 2"
              None 3 "c" two_images bird Hrun)
    as (Himgs & _).
  exact Himgs.
Defined.

(** ** Names and identifiers *)

Section ServiceNames.
Import JSString ImageStorageService.
Context {S : Type} `{AsyncStorage S}.
Variable generatePreviewImage : string -> list Z -> string.

(** The name of an image as the duplicate checks compare it. *)
Definition folded_name (img : ImageDataItem) : string :=
  toLowerCase (ImageStorageService.name img).

(** No two images of the list have the same name up to case. *)
Definition names_distinct (imgs : list ImageDataItem) : Prop :=
  NoDup (map folded_name imgs).

Lemma NoDup_snoc {A : Type} (l : list A) (a : A) :
  NoDup l -> ~ In a l -> NoDup (l ++ [a]).
Proof.
  intros Hl Ha. induction Hl as [|x l Hx Hl IH]; cbn.
  - constructor; [intros []|constructor].
  - constructor.
    + rewrite in_app_iff. cbn. intros [Hin|[->|[]]]; [now apply Hx|].
      apply Ha. now left.
    + apply IH. intros Hin. apply Ha. now right.
Qed.

Lemma not_NoDup_snoc {A : Type} (l : list A) (a : A) :
  In a l -> ~ NoDup (l ++ [a]).
Proof.
  intros Hin Hnd. induction l as [|x l IH]; [destruct Hin|].
  cbn in Hnd. inversion Hnd as [|? ? Hx Hl]; subst.
  destruct Hin as [->|Hin]; [|now apply IH].
  apply Hx, in_or_app. right. now left.
Qed.

Lemma name_not_taken (n : string) (l : list ImageDataItem) :
  existsb (fun old => String.eqb (toLowerCase (ImageStorageService.name old))
                                 (toLowerCase n)) l = false ->
  ~ In (toLowerCase n) (map folded_name l).
Proof.
  induction l as [|x l IH]; cbn; [tauto|].
  intros Hex. apply orb_false_iff in Hex. destruct Hex as [Hx Hl].
  apply String.eqb_neq in Hx. intros [Heq|Hin]; [now apply Hx|now apply IH].
Qed.

(** The list [addImage] leaves: the one it found, or that list with one
    image more whose name is the trimmed argument and which the duplicate
    check has let through. *)
Lemma addImage_images (name byteString : string) (description : option string)
      (now : Z) (suffix : string) (sv : Service S) :
  let sv' := snd (addImage generatePreviewImage name byteString description
                           now suffix sv) in
  images sv' = images (initialize sv)
  \/ exists img,
       images sv' = images (initialize sv) ++ [img]
       /\ ImageStorageService.name img = trim name
       /\ existsb (fun old =>
                     String.eqb (toLowerCase (ImageStorageService.name old))
                                (toLowerCase name))
                  (images (initialize sv)) = false.
Proof.
  cbv zeta. unfold addImage.
  destruct (is_empty (trim name)); [now left|].
  destruct (existsb _ _) eqn:Hex; [now left|].
  destruct (parseByteString byteString) as [e|bytes]; [now left|].
  destruct (Nat.eqb (length bytes) 0); [now left|].
  right. eexists. unfold saveToStorage. cbn [images storage initialized].
  destruct (save _ _); cbn [snd images]; repeat split; reflexivity.
Qed.

(** X10. [addImage] called with a name that has no white space at its ends
    keeps the names of the list distinct up to case, whether it succeeds
    or throws. *)
Theorem addImage_keeps_names_distinct
        (name byteString : string) (description : option string)
        (now : Z) (suffix : string) (sv : Service S) :
  trim name = name ->
  names_distinct (images (initialize sv)) ->
  names_distinct
    (images (snd (addImage generatePreviewImage name byteString description
                           now suffix sv))).
Proof.
  intros Htrim Hdistinct.
  destruct (addImage_images name byteString description now suffix sv)
    as [Hsame|(img & Himgs & Hname & Hfree)].
  - now rewrite Hsame.
  - rewrite Himgs. unfold names_distinct. rewrite map_app. cbn [map].
    apply NoDup_snoc; [exact Hdistinct|].
    unfold folded_name at 1. rewrite Hname, Htrim.
    now apply name_not_taken.
Qed.

(** X11. The duplicate check of [addImage] compares the name as given,
    while the name stored is the trimmed one: when the trimmed name is, up
    to case, the name of an image of the list and [addImage] succeeds all
    the same, the list holds two images with the same name. *)
Theorem addImage_untrimmed_name_duplicates
        (name byteString : string) (description : option string)
        (now : Z) (suffix : string) (sv : Service S)
        (old img : ImageDataItem) :
  let run := addImage generatePreviewImage name byteString description now
               suffix sv in
  In old (images (initialize sv)) ->
  folded_name old = toLowerCase (trim name) ->
  fst run = inr img ->
  In old (images (snd run)) /\ In img (images (snd run))
  /\ folded_name img = folded_name old
  /\ ~ names_distinct (images (snd run)).
Proof.
  intros run Hold Hsame Hrun.
  destruct (addImage_success _ _ _ _ _ _ _ _ Hrun)
    as (_ & _ & _ & _ & Hname & _ & st & _ & Hsv).
  subst run. rewrite Hsv. cbn [images].
  assert (Hfold : folded_name img = folded_name old).
  { unfold folded_name at 1. now rewrite Hname, Hsame. }
  split; [apply in_or_app; now left|].
  split; [apply in_or_app; right; now left|].
  split; [exact Hfold|].
  unfold names_distinct. rewrite map_app. cbn [map].
  apply not_NoDup_snoc. rewrite Hfold. now apply in_map.
Qed.

End ServiceNames.

Lemma addImage_keeps_names_distinct_witness :
  names_distinct
    (ImageStorageService.images
       (snd (ImageStorageService.addImage (fun _ _ => "") "Bird" "0x01 2"
               None 3 "c" two_images))).
Proof.
  apply (addImage_keeps_names_distinct (fun _ _ => "") "Bird" "0x01 2"
           None 3 "c" two_images).
  - reflexivity.
  - unfold names_distinct. cbn. repeat constructor; cbn; intuition discriminate.
Defined.

Lemma addImage_untrimmed_name_duplicates_witness :
  let run := ImageStorageService.addImage (fun _ _ => "") "cat " "0x01"
               None 3 "c" two_images in
  map ImageStorageService.name (ImageStorageService.images (snd run))
  = ["Cat"; "Dog"; "cat"]
  /\ ~ names_distinct (ImageStorageService.images (snd run)).
Proof.
  intros run. split; [reflexivity|].
  assert (Hrun : exists img, fst run = inr img) by (eexists; reflexivity).
  destruct Hrun as (img & Hrun).
  apply (addImage_untrimmed_name_duplicates (fun _ _ => "") "cat " "0x01"
           None 3 "c" two_images cat img).
  - now left.
  - reflexivity.
  - exact Hrun.
Defined.

(** ** updateImage *)

Section UpdateImage.
Import JSString ImageStorageService.
Context {S : Type} `{AsyncStorage S}.
Variable generatePreviewImage : string -> list Z -> string.

(** [updateImage] once the image is found: [old] is the first image of
    the list that has the identifier. *)
Lemma updateImage_found (id0 : string) (name byteString description : option string)
      (now : Z) (sv : Service S)
      (before after : list ImageDataItem) (old : ImageDataItem) :
  images (initialize sv) = before ++ old :: after ->
  has_id id0 old = true ->
  existsb (has_id id0) before = false ->
  updateImage generatePreviewImage id0 name byteString description now sv
  = match update_name id0 name (before ++ old :: after) with
    | inl e => (inl e, initialize sv)
    | inr newName =>
        match update_bytes generatePreviewImage byteString
                (or_else newName (ImageStorageService.name old)) with
        | inl e => (inl e, initialize sv)
        | inr newBytes =>
            let updatedImage :=
              merge_fields old newName newBytes (option_map trim description)
                           now in
            match save (storage sv) (before ++ updatedImage :: after) with
            | Some st =>
                (inr updatedImage,
                 Build_Service (before ++ updatedImage :: after) true st)
            | None =>
                (inl UpdateNotSaved,
                 Build_Service (before ++ updatedImage :: after) true
                               (storage sv))
            end
        end
    end.
Proof.
  intros Himgs Hold Hbefore. unfold updateImage.
  rewrite Himgs, (findIndex_middle _ _ _ _ Hbefore Hold), nth_error_middle.
  destruct (update_name id0 name (before ++ old :: after)) as [e|newName];
    [reflexivity|].
  destruct (update_bytes _ _ _) as [e|newBytes]; [reflexivity|].
  cbv zeta. rewrite assign_middle. unfold saveToStorage.
  cbn [images storage initialized].
  rewrite initialize_is_initialized, initialize_storage.
  now destruct (save (storage sv) _).
Qed.

Lemma updateImage_not_found (id0 : string)
      (name byteString description : option string) (now : Z) (sv : Service S) :
  existsb (has_id id0) (images (initialize sv)) = false ->
  updateImage generatePreviewImage id0 name byteString description now sv
  = (inl ImageNotFound, initialize sv).
Proof.
  intros Hex. apply findIndex_None in Hex. unfold updateImage. now rewrite Hex.
Qed.

Lemma update_name_result (id0 : string) (name : option string)
      (l : list ImageDataItem) :
  match update_name id0 name l with
  | inl e => e = ImageNameEmpty \/ e = NameTaken
  | inr None => name = None
  | inr (Some t) =>
      exists n, name = Some n /\ t = trim n /\ is_empty t = false
                /\ existsb (fun img =>
                              negb (has_id id0 img)
                              && String.eqb (folded_name img) (toLowerCase t)) l
                   = false
  end.
Proof.
  unfold update_name. destruct name as [n|]; [|reflexivity].
  destruct (is_empty (trim n)) eqn:Hempty; [now left|].
  destruct (existsb _ l) eqn:Hex; [now right|].
  exists n. now repeat split.
Qed.

Lemma update_bytes_result (byteString : option string) (previewName : string) :
  match update_bytes generatePreviewImage byteString previewName with
  | inl e => exists b, e = InvalidBytes b
  | inr None => byteString = None
  | inr (Some (bytes, p)) =>
      exists s, byteString = Some s /\ parseByteString s = inr bytes
                /\ bytes <> [] /\ p = generatePreviewImage previewName bytes
  end.
Proof.
  unfold update_bytes. destruct byteString as [s|]; [|reflexivity].
  destruct (parseByteString s) as [e|bytes] eqn:Hparse; [now eexists|].
  destruct (Nat.eqb (length bytes) 0) eqn:Hlen; [now eexists|].
  exists s. split; [reflexivity|]. split; [exact Hparse|].
  split; [|reflexivity]. intros ->. discriminate.
Qed.

(** X12. A successful [updateImage] replaces, in place, the first image
    that has the identifier: the images before and after it are untouched,
    the identifier and the creation time are kept, the update time is the
    current one, and each of the name, the description and the bytes is
    the (trimmed, parsed) argument when one is given and the old value
    otherwise.  The preview is recomputed only when bytes are given: a new
    name alone leaves the old preview. *)
Theorem updateImage_replaces_in_place
        (id0 : string) (name byteString description : option string)
        (now : Z) (sv : Service S) (img : ImageDataItem) :
  let run := updateImage generatePreviewImage id0 name byteString description
               now sv in
  fst run = inr img ->
  exists before old after,
    images (initialize sv) = before ++ old :: after
    /\ images (snd run) = before ++ img :: after
    /\ ~ In id0 (map ImageStorageService.id before)
    /\ ImageStorageService.id old = id0
    /\ ImageStorageService.id img = id0
    /\ createdAt img = createdAt old
    /\ updatedAt img = now
    /\ ImageStorageService.name img
       = match name with
         | Some n => trim n
         | None => ImageStorageService.name old
         end
    /\ ImageStorageService.description img
       = match description with
         | Some d => trim d
         | None => ImageStorageService.description old
         end
    /\ match byteString with
       | Some s =>
           parseByteString s = inr (byteData img)
           /\ preview img
              = generatePreviewImage (ImageStorageService.name img) (byteData img)
       | None => byteData img = byteData old /\ preview img = preview old
       end.
Proof.
  intros run Hrun. subst run.
  destruct (existsb (has_id id0) (images (initialize sv))) eqn:Hex.
  - destruct (images_split_at_id _ _ Hex) as (before & old & after & Hl & Hold & Hb).
    rewrite (updateImage_found _ _ _ _ _ _ _ _ _ Hl Hold Hb) in *.
    pose proof (update_name_result id0 name (before ++ old :: after)) as Hname.
    destruct (update_name id0 name (before ++ old :: after)) as [e|newName];
      [discriminate|].
    pose proof (update_bytes_result byteString
                  (or_else newName (ImageStorageService.name old))) as Hbytes.
    destruct (update_bytes _ _ _) as [e|newBytes]; [discriminate|].
    cbv zeta in Hrun |- *.
    destruct (save (storage sv) _) as [st|]; [|discriminate].
    cbn [fst snd images] in Hrun |- *. injection Hrun as <-.
    exists before, old, after.
    split; [exact Hl|]. split; [reflexivity|].
    split; [now apply has_id_in|].
    split; [now apply String.eqb_eq|].
    split; [now apply String.eqb_eq in Hold|].
    split; [reflexivity|]. split; [reflexivity|].
    cbn [merge_fields ImageStorageService.name ImageStorageService.description
         byteData preview].
    split.
    { destruct newName as [t|].
      - destruct Hname as (n & -> & -> & _). reflexivity.
      - now rewrite Hname. }
    split; [now destruct description|].
    destruct newBytes as [[bytes p]|].
    + destruct Hbytes as (s & -> & Hparse & _ & ->). split; [exact Hparse|].
      destruct newName as [t|]; cbn [or_else]; [|reflexivity].
      destruct Hname as (n & _ & _ & Hne & _). now rewrite Hne.
    + now rewrite Hbytes.
  - rewrite (updateImage_not_found _ _ _ _ _ _ Hex) in Hrun. discriminate.
Qed.

(** The fields of the image [updateImage] builds, from what
    [update_name] and [update_bytes] returned. *)
Lemma updated_image_fields (id0 : string)
      (name byteString description : option string) (now : Z)
      (l : list ImageDataItem) (old : ImageDataItem)
      (newName : option string) (newBytes : option (list Z * string)) :
  update_name id0 name l = inr newName ->
  update_bytes generatePreviewImage byteString
    (or_else newName (ImageStorageService.name old)) = inr newBytes ->
  let img := merge_fields old newName newBytes (option_map trim description)
               now in
  ImageStorageService.id img = ImageStorageService.id old
  /\ createdAt img = createdAt old
  /\ updatedAt img = now
  /\ ImageStorageService.name img
     = match name with
       | Some n => trim n
       | None => ImageStorageService.name old
       end
  /\ ImageStorageService.description img
     = match description with
       | Some d => trim d
       | None => ImageStorageService.description old
       end
  /\ match byteString with
     | Some s =>
         parseByteString s = inr (byteData img)
         /\ preview img
            = generatePreviewImage (ImageStorageService.name img) (byteData img)
     | None => byteData img = byteData old /\ preview img = preview old
     end.
Proof.
  intros HnewName HnewBytes.
  pose proof (update_name_result id0 name l) as Hname.
  rewrite HnewName in Hname.
  pose proof (update_bytes_result byteString
                (or_else newName (ImageStorageService.name old))) as Hbytes.
  rewrite HnewBytes in Hbytes.
  cbv zeta.
  cbn [merge_fields ImageStorageService.id ImageStorageService.name
       ImageStorageService.description byteData preview createdAt updatedAt].
  split; [reflexivity|]. split; [reflexivity|]. split; [reflexivity|].
  split.
  { destruct newName as [t|].
    - destruct Hname as (n & -> & -> & _). reflexivity.
    - now rewrite Hname. }
  split; [now destruct description|].
  destruct newBytes as [[bytes p]|].
  - destruct Hbytes as (s & -> & Hparse & _ & ->). split; [exact Hparse|].
    destruct newName as [t|]; cbn [or_else]; [|reflexivity].
    destruct Hname as (n & _ & _ & Hne & _). now rewrite Hne.
  - now rewrite Hbytes.
Qed.

(** X13. When [updateImage] throws any error but the one of the store,
    the service is left as [initialize] leaves it: no image is modified
    and nothing is written.  When the store rejects the write, the store is
    untouched but the list already holds the updated image, in the place
    of the first image that has the identifier and with the fields a
    successful call would have given it: that list is the very one whose
    write was rejected. *)
Theorem updateImage_failure
        (id0 : string) (name byteString description : option string)
        (now : Z) (sv : Service S) (e : UpdateError) :
  let run := updateImage generatePreviewImage id0 name byteString description
               now sv in
  fst run = inl e ->
  match e with
  | UpdateNotSaved =>
      storage (snd run) = storage sv
      /\ save (storage sv) (images (snd run)) = None
      /\ exists before old after img,
           images (initialize sv) = before ++ old :: after
           /\ images (snd run) = before ++ img :: after
           /\ ~ In id0 (map ImageStorageService.id before)
           /\ ImageStorageService.id old = id0
           /\ ImageStorageService.id img = id0
           /\ createdAt img = createdAt old
           /\ updatedAt img = now
           /\ ImageStorageService.name img
              = match name with
                | Some n => trim n
                | None => ImageStorageService.name old
                end
           /\ ImageStorageService.description img
              = match description with
                | Some d => trim d
                | None => ImageStorageService.description old
                end
           /\ match byteString with
              | Some s =>
                  parseByteString s = inr (byteData img)
                  /\ preview img
                     = generatePreviewImage (ImageStorageService.name img)
                                            (byteData img)
              | None => byteData img = byteData old /\ preview img = preview old
              end
  | _ => snd run = initialize sv
  end.
Proof.
  intros run Hrun. subst run.
  destruct (existsb (has_id id0) (images (initialize sv))) eqn:Hex.
  - destruct (images_split_at_id _ _ Hex) as (before & old & after & Hl & Hold & Hb).
    rewrite (updateImage_found _ _ _ _ _ _ _ _ _ Hl Hold Hb) in *.
    pose proof (update_name_result id0 name (before ++ old :: after)) as Hname.
    destruct (update_name id0 name (before ++ old :: after)) as [e1|newName]
      eqn:HnewName.
    { cbn [fst snd] in Hrun |- *. injection Hrun as <-.
      now destruct Hname as [->| ->]. }
    pose proof (update_bytes_result byteString
                  (or_else newName (ImageStorageService.name old))) as Hbytes.
    destruct (update_bytes _ _ _) as [e1|newBytes] eqn:HnewBytes.
    { cbn [fst snd] in Hrun |- *. injection Hrun as <-.
      now destruct Hbytes as (b & ->). }
    cbv zeta in Hrun |- *.
    destruct (save (storage sv) _) as [st|] eqn:Hsave; [discriminate|].
    cbn [fst snd] in Hrun |- *. injection Hrun as <-.
    cbn [storage images]. split; [reflexivity|]. split; [exact Hsave|].
    exists before, old, after,
      (merge_fields old newName newBytes (option_map trim description) now).
    split; [exact Hl|]. split; [reflexivity|].
    split; [now apply has_id_in|].
    apply String.eqb_eq in Hold.
    split; [exact Hold|].
    destruct (updated_image_fields id0 name byteString description now
                (before ++ old :: after) old newName newBytes
                HnewName HnewBytes)
      as (Hid & Hcreated & Hupdated & Hfields).
    split; [now rewrite Hid|]. split; [exact Hcreated|].
    split; [exact Hupdated|]. exact Hfields.
  - rewrite (updateImage_not_found _ _ _ _ _ _ Hex) in *.
    cbn [fst snd] in Hrun |- *. now injection Hrun as <-.
Qed.

Lemma NoDup_middle_replace {A : Type} (before after : list A) (x y : A) :
  NoDup (before ++ x :: after) ->
  ~ In y (before ++ after) ->
  NoDup (before ++ y :: after).
Proof.
  intros Hnd Hy.
  apply (NoDup_Add (Add_app y before after)). split; [|exact Hy].
  now apply NoDup_remove_1 in Hnd.
Qed.

Lemma others_have_other_ids (id0 : string) (before after : list ImageDataItem)
      (old : ImageDataItem) :
  NoDup (map ImageStorageService.id (before ++ old :: after)) ->
  ImageStorageService.id old = id0 ->
  forall img, In img (before ++ after) -> has_id id0 img = false.
Proof.
  intros Hids Hold img Hin. rewrite map_app in Hids. cbn [map] in Hids.
  apply NoDup_remove_2 in Hids. rewrite <- map_app in Hids.
  unfold has_id. apply String.eqb_neq. intros Heq. apply Hids.
  rewrite Hold, <- Heq. now apply in_map.
Qed.

(** X14. When the identifiers of the list are distinct, [updateImage]
    keeps the names of the list distinct up to case, whether it succeeds
    or throws. *)
Theorem updateImage_keeps_names_distinct
        (id0 : string) (name byteString description : option string)
        (now : Z) (sv : Service S) :
  NoDup (map ImageStorageService.id (images (initialize sv))) ->
  names_distinct (images (initialize sv)) ->
  names_distinct
    (images (snd (updateImage generatePreviewImage id0 name byteString
                              description now sv))).
Proof.
  intros Hids Hdistinct.
  destruct (existsb (has_id id0) (images (initialize sv))) eqn:Hex.
  - destruct (images_split_at_id _ _ Hex) as (before & old & after & Hl & Hold & Hb).
    rewrite (updateImage_found _ _ _ _ _ _ _ _ _ Hl Hold Hb).
    pose proof (update_name_result id0 name (before ++ old :: after)) as Hname.
    destruct (update_name id0 name (before ++ old :: after)) as [e1|newName];
      [exact Hdistinct|].
    destruct (update_bytes _ _ _) as [e1|newBytes]; [exact Hdistinct|].
    cbv zeta.
    assert (Hnew : names_distinct
                     (before ++ merge_fields old newName newBytes
                                  (option_map trim description) now :: after)).
    { rewrite Hl in Hdistinct, Hids. unfold names_distinct in *.
      rewrite map_app in *. cbn [map] in *.
      apply (NoDup_middle_replace _ _ _ _ Hdistinct).
      unfold folded_name at 1. cbn [merge_fields ImageStorageService.name].
      destruct newName as [t|].
      - destruct Hname as (n & _ & _ & _ & Hfree).
        rewrite <- map_app. intros Hin. apply in_map_iff in Hin.
        destruct Hin as (img & Himg & Hin).
        assert (Hother : has_id id0 img = false).
        { apply (others_have_other_ids id0 before after old);
            [now rewrite map_app|now apply String.eqb_eq|exact Hin]. }
        assert (Hin' : In img (before ++ old :: after)).
        { apply in_app_or in Hin. apply in_or_app.
          destruct Hin as [Hin|Hin]; [now left | right; now right]. }
        rewrite (proj2 (existsb_exists _ _)) in Hfree; [discriminate|].
        exists img. split; [exact Hin'|].
        rewrite Hother. cbn. now apply String.eqb_eq.
      - apply NoDup_remove_2 in Hdistinct. exact Hdistinct. }
    now destruct (save (storage sv) _).
  - now rewrite (updateImage_not_found _ _ _ _ _ _ Hex).
Qed.


End UpdateImage.

Lemma updateImage_replaces_in_place_witness :
  let run := ImageStorageService.updateImage (fun _ _ => "") "img_2_b" (Some " Puppy ") None
               None 5 two_images in
  length (ImageStorageService.images (snd run)) = 2.
Proof.
  intros run.
  assert (Hrun : exists img, fst run = inr img) by (eexists; reflexivity).
  destruct Hrun as (img & Hrun).
  destruct (updateImage_replaces_in_place (fun _ _ => "") "img_2_b"
              (Some " Puppy ") None None 5 two_images img Hrun)
    as (before & old & after & Hl & Himgs & _).
  fold run in Himgs. rewrite Himgs.
  apply (f_equal (@length _)) in Hl. rewrite length_app in *.
  cbn [length] in *. cbn in Hl. lia.
Defined.

Lemma updateImage_failure_witness :
  let run := ImageStorageService.updateImage (fun _ _ => "") "img_2_b" (Some "CAT") None None
               5 two_images in
  let rejected := @ImageStorageService.updateImage unit read_only_store (fun _ _ => "")
                    "img_2_b" (Some " Puppy ") None None 5
                    (ImageStorageService.Build_Service [cat; dog] true tt) in
  (fst run = inl ImageStorageService.NameTaken /\ snd run = two_images)
  /\ (fst rejected = inl ImageStorageService.UpdateNotSaved
      /\ map ImageStorageService.name
             (ImageStorageService.images (snd rejected)) = ["Cat"; "Puppy"]
      /\ @ImageStorageService.save unit read_only_store tt
           (ImageStorageService.images (snd rejected)) = None).
Proof.
  intros run rejected. split.
  - assert (Hrun : fst run = inl ImageStorageService.NameTaken) by reflexivity.
    split; [exact Hrun|].
    exact (updateImage_failure (fun _ _ => "") "img_2_b" (Some "CAT") None
             None 5 two_images ImageStorageService.NameTaken Hrun).
  - assert (Hrun : fst rejected = inl ImageStorageService.UpdateNotSaved) by reflexivity.
    split; [exact Hrun|]. split; [reflexivity|].
    destruct (@updateImage_failure unit read_only_store (fun _ _ => "")
                "img_2_b" (Some " Puppy ") None None 5
                (ImageStorageService.Build_Service [cat; dog] true tt)
                ImageStorageService.UpdateNotSaved Hrun)
      as (_ & Hsave & _).
    exact Hsave.
Defined.

Lemma updateImage_keeps_names_distinct_witness :
  names_distinct
    (ImageStorageService.images
       (snd (ImageStorageService.updateImage (fun _ _ => "") "img_2_b" (Some " Puppy ") None
               None 5 two_images))).
Proof.
  apply (updateImage_keeps_names_distinct (fun _ _ => "") "img_2_b"
           (Some " Puppy ") None None 5 two_images).
  - cbn. repeat constructor; cbn; intuition discriminate.
  - unfold names_distinct. cbn. repeat constructor; cbn; intuition discriminate.
Defined.


(** ** The store *)

Section Persistence.
Import JSString ImageStorageService.
Context {S : Type} `{AsyncStorage S}.
Variable generatePreviewImage : string -> list Z -> string.

(** A new run of the application over the store of [sv] lists the images
    that [sv] holds. *)
Definition survives_restart (sv : Service S) : Prop :=
  fst (getAllImages (new_service (storage sv))) = images sv.

Lemma saved_survives_restart (sv sv' : Service S) :
  (forall st imgs st', save st imgs = Some st' -> load st' = Some (Some imgs)) ->
  saveToStorage sv = Some sv' -> survives_restart sv'.
Proof.
  intros Hlaw Hsave. apply saveToStorage_Some in Hsave.
  destruct Hsave as (Himgs & _ & Hsave).
  unfold survives_restart, getAllImages, new_service, initialize.
  cbn [initialized storage fst]. now rewrite (Hlaw _ _ _ Hsave), Himgs.
Qed.

(** X16. Over a store that gives back what was last written to it, every
    change that succeeds survives a restart: after a successful
    [addImage], [updateImage], [deleteImage] (returning [true]) or
    [clearAllImages], a new service over the same store loads exactly the
    list the old one holds. *)
Theorem successful_changes_survive_restart
        (id0 name byteString : string) (newName newBytes description : option string)
        (now : Z) (suffix : string) (sv : Service S) :
  (forall st imgs st', save st imgs = Some st' -> load st' = Some (Some imgs)) ->
  let added := addImage generatePreviewImage name byteString description now
                 suffix sv in
  let updated := updateImage generatePreviewImage id0 newName newBytes
                   description now sv in
  let deleted := deleteImage id0 sv in
  let cleared := clearAllImages sv in
  match fst added with
  | inr _ => survives_restart (snd added)
  | inl _ => True
  end
  /\ match fst updated with
     | inr _ => survives_restart (snd updated)
     | inl _ => True
     end
  /\ match fst deleted with
     | inr true => survives_restart (snd deleted)
     | _ => True
     end
  /\ match fst cleared with
     | inr _ => survives_restart (snd cleared) /\ images (snd cleared) = []
     | inl _ => True
     end.
Proof.
  intros Hlaw added updated deleted cleared.
  split; [|split; [|split]].
  - subst added. unfold addImage.
    destruct (is_empty (trim name)); [exact I|].
    destruct (existsb _ _); [exact I|].
    destruct (parseByteString byteString) as [e|bytes]; [exact I|].
    destruct (Nat.eqb (length bytes) 0); [exact I|].
    destruct (saveToStorage _) as [sv'|] eqn:Hsave; [|exact I].
    cbn [fst snd]. exact (saved_survives_restart _ _ Hlaw Hsave).
  - subst updated. unfold updateImage.
    destruct (JS.findIndex _ _) as [i|]; [|exact I].
    destruct (nth_error _ _) as [image|]; [|exact I].
    destruct (update_name _ _ _) as [e|n]; [exact I|].
    destruct (update_bytes _ _ _) as [e|b]; [exact I|].
    cbv zeta.
    destruct (saveToStorage _) as [sv'|] eqn:Hsave; [|exact I].
    cbn [fst snd]. exact (saved_survives_restart _ _ Hlaw Hsave).
  - subst deleted. unfold deleteImage.
    destruct (JS.findIndex _ _) as [i|]; [|exact I].
    destruct (saveToStorage _) as [sv'|] eqn:Hsave; [|exact I].
    cbn [fst snd]. exact (saved_survives_restart _ _ Hlaw Hsave).
  - subst cleared. unfold clearAllImages.
    destruct (saveToStorage _) as [sv'|] eqn:Hsave; [|exact I].
    cbn [fst snd]. split; [exact (saved_survives_restart _ _ Hlaw Hsave)|].
    now destruct (saveToStorage_Some _ _ Hsave) as (-> & _).
Qed.

(** X17. When the store cannot be read (the read is rejected, or what is
    stored does not parse), [initialize] starts from an empty list, and
    the first [addImage] that succeeds writes a list that holds the new
    image alone: what the store held is replaced. *)
Theorem addImage_replaces_unreadable_store
        (name byteString : string) (description : option string)
        (now : Z) (suffix : string) (sv : Service S) (img : ImageDataItem) :
  let run := addImage generatePreviewImage name byteString description now
               suffix sv in
  initialized sv = false ->
  load (storage sv) = None ->
  fst run = inr img ->
  images (snd run) = [img]
  /\ save (storage sv) [img] = Some (storage (snd run)).
Proof.
  intros run Hinit Hload Hrun.
  destruct (addImage_success _ _ _ _ _ _ _ _ Hrun)
    as (_ & _ & _ & _ & _ & _ & st & Hsave & Hsv).
  assert (Hempty : images (initialize sv) = []).
  { unfold initialize. now rewrite Hinit, Hload. }
  subst run. rewrite Hsv. rewrite Hempty in *. cbn [images storage app] in *.
  now split.
Qed.

End Persistence.

Lemma successful_changes_survive_restart_witness :
  survives_restart
    (snd (ImageStorageService.addImage (fun _ _ => "") "Bird" "0x01 2" None 3
            "c" two_images)).
Proof.
  destruct (successful_changes_survive_restart (fun _ _ => "") "img_1_a"
              "Bird" "0x01 2" None None None 3 "c" two_images)
    as (Hadd & _).
  - intros st imgs st' [= <-]. reflexivity.
  - exact Hadd.
Defined.

(** A store whose content cannot be read, and which accepts writes. *)
Definition unreadable_store
  : ImageStorageService.AsyncStorage (option (list ImageStorageService.ImageDataItem)) :=
  {| ImageStorageService.load := fun _ => None;
     ImageStorageService.save := fun _ imgs => Some (Some imgs) |}.

Lemma addImage_replaces_unreadable_store_witness :
  let run := @ImageStorageService.addImage _ unreadable_store (fun _ _ => "")
               " Bird " "0x01 2" None 3 "c"
               (ImageStorageService.new_service (Some [cat; dog])) in
  ImageStorageService.images (snd run) = [bird]
  /\ Some (Some [bird]) = Some (ImageStorageService.storage (snd run)).
Proof.
  intros run.
  assert (Hrun : fst run = inr bird) by reflexivity.
  exact (@addImage_replaces_unreadable_store _ unreadable_store
           (fun _ _ => "") " Bird " "0x01 2" None 3 "c"
           (ImageStorageService.new_service (Some [cat; dog])) bird eq_refl eq_refl Hrun).
Defined.

(** ** The colour of the preview *)

Section Preview.
Import JSString ImageStorageService.
Local Open Scope Z_scope.

Lemma to_int32_range (z : Z) : - 2 ^ 31 <= to_int32 z < 2 ^ 31.
Proof.
  unfold to_int32.
  pose proof (Z.mod_pos_bound (z + 2 ^ 31) (2 ^ 32) ltac:(lia)). lia.
Qed.

Lemma to_int32_small (z : Z) : - 2 ^ 31 <= z < 2 ^ 31 -> to_int32 z = z.
Proof. intros Hz. unfold to_int32. rewrite Z.mod_small; lia. Qed.

Lemma name_hash_range (name : string) :
  forall hash,
    - 2 ^ 31 <= hash < 2 ^ 31 -> - 2 ^ 31 <= name_hash hash name < 2 ^ 31.
Proof.
  induction name as [|c name IH]; intros hash Hh; cbn [name_hash];
    [exact Hh|].
  apply IH. unfold hash_step. apply to_int32_range.
Qed.

Lemma abs_rem_256 (z : Z) : 0 <= Z.abs (Z.rem z 256) <= 255.
Proof.
  pose proof (Z.rem_bound_abs z 256 ltac:(lia)) as Hb.
  change (Z.abs 256) with 256 in Hb. lia.
Qed.

End Preview.

(** X18. Whatever the name and the bytes, each of the three components
    of the colour that [generatePreviewImage] writes into the picture is
    an integer from 0 to 255, and the hash of the name alone fits in 32
    bits.  When the final hash is not negative and below 2^31, the red,
    green and blue components are its first, second and third bytes. *)
Theorem preview_colour_is_valid (name : string) (byteData : list Z) :
  let '(r, g, b) := ImageStorageService.preview_rgb name byteData in
  let hash := ImageStorageService.preview_hash name byteData in
  ((0 <= r <= 255) /\ (0 <= g <= 255) /\ (0 <= b <= 255))%Z
  /\ (- 2 ^ 31 <= ImageStorageService.name_hash 0 name < 2 ^ 31)%Z
  /\ (if (0 <=? hash)%Z && (hash <? 2 ^ 31)%Z
      then r = hash mod 256 /\ g = (hash / 2 ^ 8) mod 256
           /\ b = (hash / 2 ^ 16) mod 256
      else True)%Z.
Proof.
  unfold ImageStorageService.preview_rgb. cbv zeta.
  split; [repeat split; apply abs_rem_256|].
  split; [apply name_hash_range; lia|].
  destruct ((0 <=? ImageStorageService.preview_hash name byteData)%Z
            && (ImageStorageService.preview_hash name byteData <? 2 ^ 31)%Z) eqn:Hh;
    [|exact I].
  apply andb_true_iff in Hh. destruct Hh as [H0 H1].
  apply Z.leb_le in H0. apply Z.ltb_lt in H1.
  set (hash := ImageStorageService.preview_hash name byteData) in *.
  unfold ImageStorageService.shift_right. rewrite to_int32_small by lia.
  rewrite !Z.shiftr_div_pow2 by lia.
  assert (H8 : (0 <= hash / 2 ^ 8)%Z) by (apply Z.div_pos; lia).
  assert (H16 : (0 <= hash / 2 ^ 16)%Z) by (apply Z.div_pos; lia).
  rewrite !Z.rem_mod_nonneg by lia.
  repeat split; apply Z.abs_eq; apply Z.mod_pos_bound; lia.
Qed.

(** ** More on the transfer *)

Section TransferOutcome.
Import JS UseBLE ConnectedDeviceScreen.
Context {L : Type} `{BleLink L}.

Lemma timers_app (t1 t2 : list Event) :
  timers (t1 ++ t2) = timers t1 ++ timers t2.
Proof. apply flat_map_app. Qed.

Lemma timers_chunks_events (len : Z) (chunks : list (list Z)) :
  forall c,
    timers (chunks_events len c chunks)
    = repeat (Pause 100) (length chunks).
Proof.
  induction chunks as [|chunk rest IH]; intros c; cbn [chunks_events];
    [reflexivity|].
  rewrite timers_app, IH. reflexivity.
Qed.

Lemma timer_callback_hook (w : World L) :
  hook (snd (timer_callback w))
  = Build_Hook (Int 0) (isStreaming (hook w)) "".
Proof. reflexivity. Qed.

(** The progress the hook shows after the chunks [chunks] have been
    acknowledged: the one of the last of them. *)
Lemma hook_after_progress (len : Z) (chunks : list (list Z)) :
  forall c h,
    streamingProgress (hook_after len c chunks h)
    = match chunks with
      | [] => streamingProgress h
      | _ => progress_of (c + total_length chunks) len
      end.
Proof.
  induction chunks as [|chunk rest IH]; intros c h; [reflexivity|].
  cbn [hook_after]. rewrite IH, total_length_cons.
  destruct rest as [|chunk2 rest]; cbn [streamingProgress].
  - unfold total_length. cbn. now rewrite Z.add_0_r.
  - now rewrite Z.add_assoc.
Qed.

Lemma total_length_make_chunks (byteData : list Z) :
  total_length (make_chunks byteData) = Z.of_nat (length byteData).
Proof. unfold total_length. now rewrite concat_make_chunks. Qed.

Lemma make_chunks_nil (byteData : list Z) :
  make_chunks byteData = [] -> byteData = [].
Proof.
  intros Hnil. rewrite <- (concat_make_chunks byteData), Hnil. reflexivity.
Qed.

End TransferOutcome.

Section FullProgress.
Import JS UseBLE.
Local Open Scope Z_scope.

(** The progress computed when the count has reached the length is
    exactly 100: the quotient is 1 and no rounding takes place. *)
Lemma progress_of_full (l : Z) :
  0 < l < 2 ^ 53 -> progress_of l l = Int 100.
Proof.
  intros Hl.
  destruct (progress_of_spec l l Hl Hl) as (y & z & Hy & Hz & Hp).
  rewrite Hp. f_equal.
  assert (HB : 0 < 2 ^ 1074) by (apply Z.pow_pos_nonneg; lia).
  assert (Hone : 2 ^ 1074 = 2 ^ 52 * 2 ^ 1022).
  { rewrite <- Z.pow_add_r by lia. reflexivity. }
  assert (Hcent : 100 * 2 ^ 1074 = 7036874417766400 * 2 ^ 1028).
  { change 1074 with (46 + 1028). rewrite Z.pow_add_r by lia.
    change (2 ^ 46) with 70368744177664. ring. }
  assert (HlB : 0 < l * 2 ^ 1074) by (apply Z.mul_pos_pos; lia).
  pose proof (rounds_representable (2 ^ 52) 1022 ltac:(lia) ltac:(lia)) as Hr1.
  rewrite <- Hone in Hr1.
  pose proof (rounds_representable 7036874417766400 1028 ltac:(lia) ltac:(lia))
    as Hr100.
  rewrite <- Hcent in Hr100.
  set (B := 2 ^ 1074) in *.
  assert (Hy1 : y = B).
  { apply Z.le_antisymm.
    - apply (rounds_mono _ _ _ _ _ _ HlB Z.lt_0_1 Hy Hr1).
      replace (l * B * B * 1) with (B * (l * B)) by ring. lia.
    - apply (rounds_mono _ _ _ _ _ _ Z.lt_0_1 HlB Hr1 Hy).
      replace (l * B * B * 1) with (B * (l * B)) by ring. lia. }
  subst y.
  assert (Hz1 : z = 100 * B).
  { apply Z.le_antisymm.
    - apply (rounds_mono _ _ _ _ _ _ HB Z.lt_0_1 Hz Hr100).
      replace (B * (100 * B) * 1) with (100 * B * B) by ring. lia.
    - apply (rounds_mono _ _ _ _ _ _ Z.lt_0_1 HB Hr100 Hz).
      replace (B * (100 * B) * 1) with (100 * B * B) by ring. lia. }
  subst z. unfold percent_of_scaled. fold B.
  assert (H1075 : 2 ^ 1075 = 2 * B).
  { change 1075 with (Z.succ 1074). unfold B. now rewrite Z.pow_succ_r by lia. }
  rewrite H1075.
  replace (2 * (100 * B) + B) with (100 * (2 * B) + B) by ring.
  symmetry. apply Z.div_unique with (r := B); lia.
Qed.

End FullProgress.

Section TransferTheorems.
Import JS UseBLE ConnectedDeviceScreen.
Context {L : Type} `{BleLink L}.


(** X20. When the MTU request is rejected, nothing is written to the
    peripheral and the link is left as it was; the hook ends with the
    status [Error: Streaming failed], the progress 0 and the streaming
    flag off, a state in which the progress dialog, the only place where
    the status is displayed, is not visible. *)
Theorem rejected_mtu_writes_nothing
        (d : Device) (byteData : list Z) (w : World L) :
  requestMTU (link w) 303 = None ->
  let w' := snd (startStreamingData (Some d) byteData w) in
  hook w' = Build_Hook (Int 0) false "Error: Streaming failed"
  /\ progress_visible (hook w') = false
  /\ link w' = link w
  /\ exists t, trace w' = trace w ++ t /\ writes t = [].
Proof.
  intros Hmtu. cbv zeta.
  rewrite (startStreamingData_no_mtu d byteData w Hmtu). cbn [snd hook link trace].
  split; [reflexivity|]. split; [reflexivity|]. split; [reflexivity|].
  eexists. split; [reflexivity|]. reflexivity.
Qed.

(** X21. When every chunk of a payload that is not empty has been
    acknowledged and the write of the End Marker is rejected, the
    transfer fails with the progress at 100 and the byte count at the
    length of the payload: the hook shows [Error: Streaming failed] next
    to 100 percent, in a dialog that is visible. *)
Theorem rejected_end_marker_fails_at_100
        (d : Device) (byteData : list Z) (w : World L) (l1 : L) :
  let values := map bytesToBase64 (make_chunks byteData) in
  requestMTU (link w) 303 = Some l1 ->
  byteData <> [] ->
  (Z.of_nat (length byteData) < 2 ^ 53)%Z ->
  acked_writes l1 values = length values ->
  write_to (link_after l1 values) (bytesToBase64 endMarker) = None ->
  let w' := snd (startStreamingData (Some d) byteData w) in
  hook w' = Build_Hook (Int 100) false "Error: Streaming failed"
  /\ progress_visible (hook w') = true
  /\ count w' = Z.of_nat (length byteData).
Proof.
  intros values Hmtu Hne Hlen Hacked Hmarker w'.
  assert (Hk : acked_writes l1 values = length (make_chunks byteData)).
  { rewrite Hacked. apply length_map. }
  pose proof (startStreamingData_run d byteData w l1 Hmtu) as Hrun.
  cbv zeta in Hrun. fold values in Hrun.
  rewrite Hk, Nat.eqb_refl, Hmarker, firstn_all in Hrun.
  rewrite hook_after_progress, total_length_make_chunks in Hrun.
  destruct (make_chunks byteData) as [|chunk rest] eqn:Hchunks.
  { now apply make_chunks_nil in Hchunks. }
  rewrite Z.add_0_l, progress_of_full in Hrun.
  - subst w'. rewrite Hrun. cbn [snd hook count]. now repeat split.
  - destruct byteData; [contradiction|]. cbn [length] in *. lia.
Qed.

End TransferTheorems.

(** X22. [bytesToBase64] looks at each number of the array modulo 256
    only: an array and the array of its residues give the same text, and
    decoding the text gives the residues, so a number outside 0 to 255 is
    sent as another byte without any error. *)
Theorem bytesToBase64_wraps_modulo_256 (bytes : list Z) :
  UseBLE.bytesToBase64 (map (fun b => b mod 256)%Z bytes)
  = UseBLE.bytesToBase64 bytes
  /\ option_map UseBLE.charCodes (Base64.decode (UseBLE.bytesToBase64 bytes))
     = Some (map (fun b => b mod 256)%Z bytes).
Proof.
  split; [|apply decode_bytesToBase64].
  unfold UseBLE.bytesToBase64. f_equal. rewrite !binaryString_map, map_map.
  f_equal. apply map_ext. intros b. unfold UseBLE.toUint8.
  now rewrite Z.mod_mod by lia.
Qed.

Lemma rejected_mtu_writes_nothing_witness :
  let w' := snd (@UseBLE.startStreamingData unit UseBLE.out_of_reach
                   (Some UseBLE.frame) [1; 2; 3]%Z (UseBLE.fresh tt)) in
  UseBLE.hook w' = UseBLE.Build_Hook (JS.Int 0) false "Error: Streaming failed"
  /\ ConnectedDeviceScreen.progress_visible (UseBLE.hook w') = false
  /\ UseBLE.link w' = tt
  /\ exists t, UseBLE.trace w' = [] ++ t /\ UseBLE.writes t = [].
Proof.
  exact (@rejected_mtu_writes_nothing unit UseBLE.out_of_reach UseBLE.frame
           [1; 2; 3]%Z (UseBLE.fresh tt) eq_refl).
Defined.

Lemma rejected_end_marker_fails_at_100_witness :
  let w' := snd (UseBLE.startStreamingData (Some UseBLE.frame)
                   (repeat 7%Z 700)
                   (UseBLE.fresh (UseBLE.Build_Scripted 0 (Some 3)))) in
  UseBLE.hook w' = UseBLE.Build_Hook (JS.Int 100) false "Error: Streaming failed"
  /\ ConnectedDeviceScreen.progress_visible (UseBLE.hook w') = true
  /\ UseBLE.count w' = 700%Z.
Proof.
  apply (rejected_end_marker_fails_at_100 UseBLE.frame (repeat 7%Z 700)
           (UseBLE.fresh (UseBLE.Build_Scripted 0 (Some 3)))
           (UseBLE.Build_Scripted 0 (Some 3))).
  - reflexivity.
  - discriminate.
  - vm_compute. reflexivity.
  - vm_compute. reflexivity.
  - vm_compute. reflexivity.
Defined.

(** ** The list of scanned devices *)

Section Scan.
Import UseBLE.

(** The test of the scan listener: the advertised or the cached name is
    the name of the frame. *)
Definition is_frame (scanned : ScannedDevice) : bool :=
  is_name (localName scanned) FRAME_NAME
  || is_name (name (device scanned)) FRAME_NAME.

Lemma isDuplicteDevice_in (devices : list Device) (nextDevice : Device) :
  isDuplicteDevice devices nextDevice = true
  <-> In (UseBLE.id nextDevice) (map UseBLE.id devices).
Proof.
  unfold isDuplicteDevice.
  destruct (JS.findIndex _ devices) as [i|] eqn:Hi.
  - split; [intros _|reflexivity].
    destruct (findIndex_Some _ _ _ Hi) as (b & x & a & -> & _ & Hx & _).
    apply String.eqb_eq in Hx. rewrite Hx, map_app. apply in_or_app.
    right. now left.
  - split; [discriminate|]. intros Hin. apply findIndex_None in Hi.
    apply in_map_iff in Hin. destruct Hin as (x & Hx & Hin).
    rewrite (proj2 (existsb_exists _ _)) in Hi; [discriminate|].
    exists x. split; [exact Hin|]. apply String.eqb_eq. now symmetry.
Qed.

(** One report either leaves the list alone or appends a frame whose
    identifier the list does not hold. *)
Lemma scan_listener_step (error : bool) (found : option ScannedDevice)
      (allDevices : list Device) :
  (scan_listener error found allDevices = allDevices
   /\ match found with
      | Some scanned =>
          is_frame scanned = true ->
          In (UseBLE.id (device scanned)) (map UseBLE.id allDevices)
      | None => True
      end)
  \/ exists scanned,
       found = Some scanned /\ is_frame scanned = true
       /\ ~ In (UseBLE.id (device scanned)) (map UseBLE.id allDevices)
       /\ scan_listener error found allDevices = allDevices ++ [device scanned].
Proof.
  unfold scan_listener. destruct found as [scanned|]; [|now left].
  fold (is_frame scanned). destruct (is_frame scanned) eqn:Hframe.
  - destruct (isDuplicteDevice allDevices (device scanned)) eqn:Hdup; cbn [negb].
    + left. split; [reflexivity|]. intros _. now apply isDuplicteDevice_in.
    + right. exists scanned. split; [reflexivity|]. split; [exact Hframe|].
      split; [|reflexivity].
      intros Hin. apply isDuplicteDevice_in in Hin. congruence.
  - left. split; [reflexivity|]. discriminate.
Qed.

(** What every run of the listener keeps: no identifier twice, a list
    that only grows, by reported frames, and that holds the identifier of
    every reported frame. *)
Lemma scanForPeripherals_invariant
        (reports : list (bool * option ScannedDevice))
        (allDevices : list Device) :
  NoDup (map UseBLE.id allDevices) ->
  let devices := scanForPeripherals reports allDevices in
  NoDup (map UseBLE.id devices)
  /\ (exists added,
        devices = allDevices ++ added
        /\ Forall (fun d => exists error scanned,
                       In (error, Some scanned) reports
                       /\ device scanned = d /\ is_frame scanned = true)
                  added)
  /\ (forall error scanned,
        In (error, Some scanned) reports ->
        is_frame scanned = true ->
        In (UseBLE.id (device scanned)) (map UseBLE.id devices)).
Proof.
  intros Hnd. revert allDevices Hnd.
  induction reports as [|[error found] reports IH]; intros allDevices Hnd; cbv zeta.
  - cbn. split; [exact Hnd|]. split.
    + exists []. now rewrite app_nil_r.
    + intros error scanned [].
  - unfold scanForPeripherals. cbn [fold_left fst snd].
    fold (scanForPeripherals reports (scan_listener error found allDevices)).
    destruct (scan_listener_step error found allDevices)
      as [(Hsame & Hknown)|(scanned & -> & Hframe & Hnew & Hadd)].
    + rewrite Hsame.
      destruct (IH allDevices Hnd) as (Hnd' & (added & Hadded & Hall) & Hin).
      split; [exact Hnd'|]. split.
      * exists added. split; [exact Hadded|].
        apply (Forall_impl _ (P := fun d => exists error0 scanned,
                                      In (error0, Some scanned) reports
                                      /\ device scanned = d
                                      /\ is_frame scanned = true)); [|exact Hall].
        intros d (e & s & Hs & Hd & Hf). exists e, s.
        split; [now right | now split].
      * intros e s [Heq|Hs] Hf; [|now apply (Hin e s)].
        injection Heq as -> ->.
        rewrite Hadded, map_app. apply in_or_app. left. now apply Hknown.
    + rewrite Hadd.
      assert (Hnd1 : NoDup (map UseBLE.id (allDevices ++ [device scanned]))).
      { rewrite map_app. cbn [map]. now apply NoDup_snoc. }
      destruct (IH _ Hnd1) as (Hnd' & (added & Hadded & Hall) & Hin).
      split; [exact Hnd'|]. split.
      * exists (device scanned :: added). split.
        { rewrite Hadded, <- app_assoc. reflexivity. }
        constructor.
        { exists error, scanned. split; [now left | now split]. }
        apply (Forall_impl _ (P := fun d => exists error0 scanned,
                                      In (error0, Some scanned) reports
                                      /\ device scanned = d
                                      /\ is_frame scanned = true)); [|exact Hall].
        intros d (e & s & Hs & Hd & Hf). exists e, s.
        split; [now right | now split].
      * intros e s [Heq|Hs] Hf; [|now apply (Hin e s)].
        injection Heq as -> ->.
        rewrite Hadded, !map_app. apply in_or_app. left.
        apply in_or_app. right. now left.
Qed.

Lemma scanForPeripherals_app (r1 r2 : list (bool * option ScannedDevice))
      (allDevices : list Device) :
  scanForPeripherals (r1 ++ r2) allDevices
  = scanForPeripherals r2 (scanForPeripherals r1 allDevices).
Proof. apply fold_left_app. Qed.

(** X23. Whatever the scan reports, and in whatever order, the list of
    devices never holds the same identifier twice; it only grows, by
    devices whose advertised or cached name is the name of the frame; and
    every such device that was reported is in the list, under the entry
    of the first report of its identifier: the device of a report of a
    frame is itself in the list when neither the list at the start nor an
    earlier report of a frame had its identifier, and, the identifiers
    being distinct, it is then the only entry with that identifier. *)
Theorem scanned_devices_are_distinct_frames
        (reports : list (bool * option ScannedDevice))
        (allDevices : list Device) :
  NoDup (map UseBLE.id allDevices) ->
  let devices := scanForPeripherals reports allDevices in
  NoDup (map UseBLE.id devices)
  /\ (exists added,
        devices = allDevices ++ added
        /\ Forall (fun d => exists error scanned,
                       In (error, Some scanned) reports
                       /\ device scanned = d /\ is_frame scanned = true)
                  added)
  /\ (forall error scanned,
        In (error, Some scanned) reports ->
        is_frame scanned = true ->
        In (UseBLE.id (device scanned)) (map UseBLE.id devices))
  /\ (forall earlier error scanned later,
        reports = earlier ++ (error, Some scanned) :: later ->
        is_frame scanned = true ->
        ~ In (UseBLE.id (device scanned)) (map UseBLE.id allDevices) ->
        (forall error' scanned',
            In (error', Some scanned') earlier ->
            is_frame scanned' = true ->
            UseBLE.id (device scanned') <> UseBLE.id (device scanned)) ->
        In (device scanned) devices
        /\ forall d, In d devices ->
                     UseBLE.id d = UseBLE.id (device scanned) ->
                     d = device scanned).
Proof.
  intros Hnd devices.
  destruct (scanForPeripherals_invariant reports allDevices Hnd)
    as (Hnd' & Hadded & Hin).
  fold devices in Hnd', Hadded, Hin.
  split; [exact Hnd'|]. split; [exact Hadded|]. split; [exact Hin|].
  intros earlier error scanned later Hreports Hframe Hnew Hfirst.
  assert (Hkept : In (device scanned) devices).
  { subst devices. rewrite Hreports, scanForPeripherals_app.
    destruct (scanForPeripherals_invariant earlier allDevices Hnd)
      as (Hnd1 & (added1 & Hl1 & Hall1) & _).
    set (l1 := scanForPeripherals earlier allDevices) in *.
    assert (Hnew1 : ~ In (UseBLE.id (device scanned)) (map UseBLE.id l1)).
    { rewrite Hl1, map_app, in_app_iff. intros [Hold|Hdup]; [now apply Hnew|].
      apply in_map_iff in Hdup. destruct Hdup as (d & Hd & Hdin).
      destruct (proj1 (Forall_forall _ _) Hall1 d Hdin)
        as (error' & scanned' & Hin' & Hdev & Hframe').
      apply (Hfirst error' scanned' Hin' Hframe'). now rewrite Hdev. }
    unfold scanForPeripherals at 1. cbn [fold_left fst snd].
    fold (scanForPeripherals later (scan_listener error (Some scanned) l1)).
    destruct (scan_listener_step error (Some scanned) l1)
      as [(_ & Hknown)|(scanned0 & Heq & _ & _ & Hstep)].
    { exfalso. now apply Hnew1, Hknown. }
    injection Heq as <-. rewrite Hstep.
    assert (Hnd2 : NoDup (map UseBLE.id (l1 ++ [device scanned]))).
    { rewrite map_app. cbn [map]. now apply NoDup_snoc. }
    destruct (scanForPeripherals_invariant later _ Hnd2)
      as (_ & (added2 & -> & _) & _).
    apply in_or_app. left. apply in_or_app. right. now left. }
  split; [exact Hkept|].
  intros d Hd Hid. clear - Hnd' Hkept Hd Hid.
  induction devices as [|x l IH]; [destruct Hd|].
  cbn [map] in Hnd'. inversion Hnd' as [|? ? Hx Hl]; subst.
  destruct Hd as [->|Hd], Hkept as [Heq|Hkept].
  - exact Heq.
  - exfalso. apply Hx. rewrite Hid. now apply in_map.
  - exfalso. apply Hx. rewrite Heq, <- Hid. now apply in_map.
  - now apply IH.
Qed.

End Scan.

Definition frame_report : UseBLE.ScannedDevice :=
  {| UseBLE.device := UseBLE.Build_Device "AA:BB" None;
     UseBLE.localName := Some UseBLE.FRAME_NAME |}.

(** A later report of the same identifier, with the cached name filled. *)
Definition frame_report_again : UseBLE.ScannedDevice :=
  {| UseBLE.device := UseBLE.Build_Device "AA:BB" (Some UseBLE.FRAME_NAME);
     UseBLE.localName := Some UseBLE.FRAME_NAME |}.

Definition other_report : UseBLE.ScannedDevice :=
  {| UseBLE.device := UseBLE.Build_Device "CC:DD" (Some "Speaker");
     UseBLE.localName := None |}.

Lemma scanned_devices_are_distinct_frames_witness :
  let devices :=
    UseBLE.scanForPeripherals
      [(false, Some frame_report); (false, Some other_report);
       (true, None); (false, Some frame_report_again)] [] in
  devices = [UseBLE.Build_Device "AA:BB" None]
  /\ In (UseBLE.device frame_report) devices.
Proof.
  intros devices. split; [reflexivity|].
  destruct (scanned_devices_are_distinct_frames
              [(false, Some frame_report); (false, Some other_report);
               (true, None); (false, Some frame_report_again)] []
              (NoDup_nil _))
    as (_ & _ & _ & Hfirst).
  apply (Hfirst [] false frame_report
           [(false, Some other_report); (true, None);
            (false, Some frame_report_again)]).
  - reflexivity.
  - reflexivity.
  - intros [].
  - intros error' scanned' [].
Defined.

(** ** src/App.tsx: starting a transfer *)

Section StartStreaming.
Import JS UseBLE App.
Context {L : Type} `{BleLink L}.

Definition no_device_status : Event :=
  SetStreamingStatus "Error: No device connected".

Lemma chunks_events_status (len : Z) (chunks : list (list Z)) :
  forall c, ~ In no_device_status (chunks_events len c chunks).
Proof.
  induction chunks as [|chunk rest IH]; intros c; cbn [chunks_events];
    [intros []|].
  rewrite in_app_iff. intros [Hin|Hin]; [|now apply (IH _ Hin)].
  unfold chunk_events in Hin. cbv zeta in Hin.
  destruct Hin as [Heq|[Heq|[Heq|[Heq|[]]]]]; discriminate.
Qed.

End StartStreaming.

(** X24. Through [handleStartStreaming] the status
    [Error: No device connected] is never set: without a connected device
    the handler does nothing at all (no status, no flag, no write), and
    with one the transfer sets other statuses only. *)
Theorem handleStartStreaming_never_reports_no_device
        {L : Type} `{UseBLE.BleLink L}
        (connectedDevice : option UseBLE.Device) (data : list Z)
        (w : UseBLE.World L) :
  let run := App.handleStartStreaming connectedDevice data w in
  fst run = UseBLE.Ok tt
  /\ (exists t,
        UseBLE.trace (snd run) = UseBLE.trace w ++ t
        /\ ~ In no_device_status t)
  /\ match connectedDevice with
     | Some _ => True
     | None => snd run = w
     end.
Proof.
  cbv zeta. destruct connectedDevice as [d|]; cbn [App.handleStartStreaming].
  - destruct (UseBLE.requestMTU (UseBLE.link w) 303) as [l1|] eqn:Hmtu.
    + rewrite (startStreamingData_run d data w l1 Hmtu).
      cbv zeta. cbn [fst snd].
      split; [reflexivity|]. split; [|exact I].
      destruct (Nat.eqb _ _); [destruct (write_to _ _) as [l3|]|];
        cbn [UseBLE.trace]; eexists;
        (split; [rewrite <- !app_assoc; reflexivity|]);
        rewrite !in_app_iff;
        (intros [Hin|[Hin|[Hin|Hin]]];
         [ cbn in Hin; intuition discriminate
         | cbn in Hin; intuition discriminate
         | now apply chunks_events_status in Hin
         | cbn in Hin; unfold no_device_status in Hin; intuition discriminate ]).
    + rewrite (startStreamingData_no_mtu d data w Hmtu). cbn [fst snd UseBLE.trace].
      split; [reflexivity|]. split; [|exact I].
      eexists. split; [reflexivity|].
      cbn. unfold no_device_status. intuition discriminate.
  - split; [reflexivity|]. split; [|reflexivity].
    exists []. split; [now rewrite app_nil_r | intros []].
Qed.
